(** * pijuwebui: the caching core of [main.py]

    A shallow embedding of the [Cache] class of [src/main.py] (the four
    [ensure_*] operations, [add_album_from_json], [add_artist_from_json]
    and [id_from_link]) together with the properties of its cache
    population, normalisation, de-duplication and sort orders.

    Modelling conventions
    - a Python [str] is the list of its code points ([list N]); string
      comparison is Python's lexicographic comparison of code points;
    - a Python [int] is a [Z]; [None]-able JSON fields are [option]s;
    - the cache tables are stdpp [gmap]s; the local [albums] dict of
      [ensure_genre_contents_cache] and the artist payload, whose iteration
      order is observable, are association lists in insertion order;
    - every operation is a function [Cache -> result A * Cache]: mutations
      made before an exception is raised persist, as in Python;
    - [list.sort(key=...)] is the stable sort by key (see [sort_by]);
    - what the program imports but does not define ([genre_view], the
      [unidecode] package, non-ASCII case mapping, the upstream server) is
      the [Host] interface. *)

From Stdlib Require Import ZArith NArith String Ascii Sorted.
From stdpp Require Import base option list gmap.

Open Scope Z_scope.

(** ** Python strings *)

Abbreviation pystr := (list N).

(** A literal: the code points of an ASCII (Latin-1) string constant. *)
Definition py (s : string) : pystr := map N_of_ascii (list_ascii_of_string s).

Definition is_ascii (c : N) : bool := (c <? 128)%N.

Definition ascii_upper (c : N) : N :=
  if ((97 <=? c) && (c <=? 122))%N then (c - 32)%N else c.

Definition ascii_lower (c : N) : N :=
  if ((65 <=? c) && (c <=? 90))%N then (c + 32)%N else c.

(** [a < b] on [str]: lexicographic on code points, a proper prefix is smaller. *)
Fixpoint str_ltb (a b : pystr) : bool :=
  match a, b with
  | _, [] => false
  | [], _ :: _ => true
  | x :: a', y :: b' =>
      if (x <? y)%N then true else if (y <? x)%N then false else str_ltb a' b'
  end.

Fixpoint starts_with (sub s : pystr) : bool :=
  match sub, s with
  | [], _ => true
  | _ :: _, [] => false
  | x :: sub', y :: s' => (x =? y)%N && starts_with sub' s'
  end.

(** [sub in s]: the substring test of Python's [in] on strings. *)
Fixpoint str_in (sub s : pystr) : bool :=
  starts_with sub s ||
  match s with
  | [] => false
  | _ :: s' => str_in sub s'
  end.

(** [s.replace(c, '')] for a one-character [c]. *)
Definition remove_char (c : N) (s : pystr) : pystr :=
  List.filter (fun x => negb (x =? c)%N) s.

(** [s.rindex(c)]: index of the last occurrence, [None] for [ValueError]. *)
Fixpoint rindex (c : N) (s : pystr) : option nat :=
  match s with
  | [] => None
  | x :: s' =>
      match rindex c s' with
      | Some i => Some (S i)
      | None => if (x =? c)%N then Some O else None
      end
  end.

Definition ascii_uppercase : pystr := py "ABCDEFGHIJKLMNOPQRSTUVWXYZ".

(** One of the 26 letters [A] to [Z]. *)
Definition is_upper_letter (c : N) : bool := ((65 <=? c) && (c <=? 90))%N.

(** ** Keys and their order

    Python compares sort keys with [<]; [KeyLt] is that comparison on a
    key type. The laws it obeys are the class [KeyOrder] further down. *)

Class KeyLt (K : Type) := key_ltb : K -> K -> bool.

Definition key_leb {K} `{KeyLt K} (x y : K) : bool := negb (key_ltb y x).

#[export] Instance Z_key : KeyLt Z := Z.ltb.
#[export] Instance str_key : KeyLt pystr := str_ltb.

(** Tuples compare at the first component that differs. *)
#[export] Instance pair_key {K1 K2} `{EqDecision K1} `{KeyLt K1} `{KeyLt K2} :
    KeyLt (K1 * K2) :=
  fun p q =>
    if decide (fst p = fst q) then key_ltb (snd p) (snd q)
    else key_ltb (fst p) (fst q).

(** The laws of the comparison: a strict total order. *)
Class KeyOrder (K : Type) `{KeyLt K} := {
  key_irrefl : forall x : K, key_ltb x x = false;
  key_trans : forall x y z : K,
      key_ltb x y = true -> key_ltb y z = true -> key_ltb x z = true;
  key_total : forall x y : K, key_ltb x y = false -> key_ltb y x = false -> x = y
}.

(** ** [list.sort(key=...)]

    The stable sort by key: an element is placed in front of the first one
    that is not smaller than it, so equal keys keep their input order.
    [sort_by_unique] below shows that this is the only stable arrangement
    in key order, whatever algorithm computes it. *)

Section Sort.
Context {A K : Type} `{KeyLt K} (key : A -> K).

Fixpoint insert_by (x : A) (l : list A) : list A :=
  match l with
  | [] => [x]
  | y :: l' =>
      if key_ltb (key y) (key x) then y :: insert_by x l' else x :: y :: l'
  end.

Fixpoint sort_by (l : list A) : list A :=
  match l with
  | [] => []
  | x :: l' => insert_by x (sort_by l')
  end.

(** [l] is in ascending key order. *)
Definition sorted_by (l : list A) : Prop :=
  StronglySorted (fun a b => key_leb (key a) (key b) = true) l.

(** The elements of [l] whose key is [k], in the order of [l]. *)
Definition with_key `{EqDecision K} (k : K) (l : list A) : list A :=
  List.filter (fun a => bool_decide (key a = k)) l.
End Sort.

(** ** Entities (the namedtuples of lines 16-18) *)

Module Track.
Record t := mk {
  id : pystr;
  title : option pystr;
  disknumber : option Z;
  tracknumber : option Z
}.
End Track.

Module Album.
Record t := mk {
  id : pystr;
  artist : option pystr;
  title : option pystr;
  year : option Z;
  artwork_link : option pystr;
  genre_name : option pystr;
  numberdisks : option Z;
  tracks : list Track.t;
  anchor : pystr
}.
End Album.

Module Artist.
Record t := mk {
  name : pystr;
  albums : list Album.t
}.
End Artist.

(** ** Upstream payloads

    The JSON documents of the server, with the fields the program reads.
    A field the program only passes through, or tests against [None], is
    an [option]. *)

Module TrackJson.
Record t := mk {
  link : pystr;
  title : option pystr;
  disknumber : option Z;
  tracknumber : option Z
}.
End TrackJson.

Module AlbumJson.
Record t := mk {
  link : pystr;
  genres : list pystr;
  artist : option pystr;
  title : option pystr;
  releasedate : option Z;
  artwork_link : option pystr;      (* album_json['artwork']['link'] *)
  numberdisks : option Z;
  tracks : list TrackJson.t
}.
End AlbumJson.

Module ServerGenre.
Record t := mk {
  link : pystr;
  name : pystr
}.
End ServerGenre.

(** What [response.json()] can be. *)
Inductive json_body :=
| GenresJson (server_genre_json : list ServerGenre.t)
| GenreJson (albums : list AlbumJson.t)           (* {'albums': [...]} *)
| AlbumDetailJson (album_json : AlbumJson.t)
| ArtistJson (artist_json : list (pystr * list AlbumJson.t)).

Record response := mkResponse {
  status_code : Z;
  json : json_body
}.

(** ** Exceptions and results *)

Inductive exn :=
| ConnectionError          (* requests.get could not reach the server *)
| UnableToConnect          (* Exception('Unable to connect to server') *)
| HTTPAbort (code : Z)     (* flask.abort(code) *)
| KeyError
| ValueError
| UnboundLocalError
| AttributeError
| TypeError.               (* a payload of the wrong shape *)

Inductive result (A : Type) :=
| Ok (a : A)
| Raise (e : exn).
Arguments Ok {A} a.
Arguments Raise {A} e.

(** Normalisation raises on a link without [/] or an unknown genre link. *)
Definition data_fault (e : exn) : Prop := e = ValueError \/ e = KeyError.

(** "Not found" as the request handlers see it: [abort(404)]. *)
Definition not_found : exn := HTTPAbort 404.

(** ** What the program imports

    - [host_upper], [host_lower], [host_unidecode]: [str.upper],
      [str.lower] and [unidecode.unidecode] on strings that are not pure
      ASCII (on ASCII strings they are computed, see [str_upper]);
    - [GENRE_LOOKUP], [UNCATEGORISED], [GENRE_SORT_ORDER], [GENRE_VIEWS]:
      the tables of the module [genre_view]; [GENRE_LOOKUP] gives the
      [displayed_name] of the view a server genre name maps to;
    - [server]: [app.server];
    - [http_get n url]: the answer of the server to a GET of [url] when
      the process has made [n] requests before; [None] when the
      connection fails ([requests] raises). *)

Class Host := {
  host_upper : pystr -> pystr;
  host_lower : pystr -> pystr;
  host_unidecode : pystr -> pystr;
  GenreView : Type;
  GENRE_LOOKUP : pystr -> option pystr;
  UNCATEGORISED : pystr;
  GENRE_SORT_ORDER : pystr -> option Z;
  GENRE_VIEWS : pystr -> option GenreView;
  server : pystr;
  http_get : nat -> pystr -> option response
}.

Section WithHost.
Context `{Host}.

(** [str.upper], [str.lower] and [unidecode.unidecode]: on pure ASCII they
    map the letters, resp. return the string itself. *)
Definition str_upper (s : pystr) : pystr :=
  if forallb is_ascii s then map ascii_upper s else host_upper s.

Definition str_lower (s : pystr) : pystr :=
  if forallb is_ascii s then map ascii_lower s else host_lower s.

Definition unidecode (s : pystr) : pystr :=
  if forallb is_ascii s then s else host_unidecode s.

(** ** The cache (lines 25-36)

    [display_names] is not set by [__init__]; [requests_made] is not a
    field of the Python object: it records, newest first, the URLs the
    process has requested so far. *)

Record Cache := mkCache {
  display_genres : option (list GenreView);
  display_names : option (list pystr);
  genre_links : option (gmap pystr (list pystr));
  genre_names_from_links : gmap pystr pystr;
  albums_in_genre : gmap pystr (list Album.t);
  album_details : gmap pystr Album.t;
  artist_details : gmap pystr Artist.t;
  requests_made : list pystr
}.

(** [Cache()] in a process that has made no request yet. *)
Definition init : Cache :=
  mkCache None None None ∅ ∅ ∅ ∅ [].

Definition set_display_genres (v : option (list GenreView)) (c : Cache) : Cache :=
  mkCache v (display_names c) (genre_links c) (genre_names_from_links c)
    (albums_in_genre c) (album_details c) (artist_details c) (requests_made c).

Definition set_display_names (v : option (list pystr)) (c : Cache) : Cache :=
  mkCache (display_genres c) v (genre_links c) (genre_names_from_links c)
    (albums_in_genre c) (album_details c) (artist_details c) (requests_made c).

Definition set_genre_links (v : option (gmap pystr (list pystr))) (c : Cache) : Cache :=
  mkCache (display_genres c) (display_names c) v (genre_names_from_links c)
    (albums_in_genre c) (album_details c) (artist_details c) (requests_made c).

Definition set_genre_names_from_links (v : gmap pystr pystr) (c : Cache) : Cache :=
  mkCache (display_genres c) (display_names c) (genre_links c) v
    (albums_in_genre c) (album_details c) (artist_details c) (requests_made c).

Definition set_albums_in_genre (v : gmap pystr (list Album.t)) (c : Cache) : Cache :=
  mkCache (display_genres c) (display_names c) (genre_links c)
    (genre_names_from_links c) v (album_details c) (artist_details c)
    (requests_made c).

Definition set_album_details (v : gmap pystr Album.t) (c : Cache) : Cache :=
  mkCache (display_genres c) (display_names c) (genre_links c)
    (genre_names_from_links c) (albums_in_genre c) v (artist_details c)
    (requests_made c).

Definition set_artist_details (v : gmap pystr Artist.t) (c : Cache) : Cache :=
  mkCache (display_genres c) (display_names c) (genre_links c)
    (genre_names_from_links c) (albums_in_genre c) (album_details c) v
    (requests_made c).

Definition set_requests_made (v : list pystr) (c : Cache) : Cache :=
  mkCache (display_genres c) (display_names c) (genre_links c)
    (genre_names_from_links c) (albums_in_genre c) (album_details c)
    (artist_details c) v.

(** ** Computations on the cache that may raise *)

Definition M (A : Type) : Type := Cache -> result A * Cache.

Definition ret {A} (a : A) : M A := fun c => (Ok a, c).

Definition raise {A} (e : exn) : M A := fun c => (Raise e, c).

Definition bind {A B} (m : M A) (f : A -> M B) : M B :=
  fun c =>
    match m c with
    | (Ok a, c') => f a c'
    | (Raise e, c') => (Raise e, c')
    end.

Definition get : M Cache := fun c => (Ok c, c).

Definition modify (f : Cache -> Cache) : M unit := fun c => (Ok tt, f c).

(** A partial step: [None] raises [e]. *)
Definition or_raise {A} (e : exn) (o : option A) : M A :=
  match o with
  | Some a => ret a
  | None => raise e
  end.

(** A [for] loop that threads its local variables [b]. *)
Fixpoint foldM {A B} (f : B -> A -> M B) (b : B) (l : list A) : M B :=
  match l with
  | [] => ret b
  | x :: l' => bind (f b x) (fun b' => foldM f b' l')
  end.

Notation "'let*' x ':=' m 'in' k" := (bind m (fun x => k))
  (at level 10, x name, m at level 100, k at level 200, only parsing).
Notation "m1 ';;' m2" := (bind m1 (fun _ => m2))
  (at level 100, m2 at level 200, right associativity, only parsing).

(** The URLs of lines 78, 103 and 113. *)
Definition genre_url (link : pystr) : pystr := server ++ link ++ py "?albums=all".

Definition album_url (album_id : pystr) : pystr :=
  server ++ py "/albums/" ++ album_id ++ py "?tracks=all".

Definition artist_url (artist : pystr) : pystr :=
  server ++ py "/artists/" ++ artist ++ py "?tracks=all".

(** The cache after one more request. *)
Definition requested (url : pystr) (c : Cache) : Cache :=
  set_requests_made (url :: requests_made c) c.

(** [requests.get(url)] *)
Definition requests_get (url : pystr) : M response :=
  fun c =>
    match http_get (length (requests_made c)) url with
    | Some r => (Ok r, requested url c)
    | None => (Raise ConnectionError, requested url c)
    end.

(** ** [id_from_link] (lines 21-22) *)

Definition id_from_link (link : pystr) : option pystr :=
  i ← rindex 47 link; Some (drop (S i) link).

(** ** [add_album_from_json] (lines 119-145) *)

(** Lines 121-122: the display genre of the first listed genre link. *)
Definition genre_name_of (genres : list pystr) : M (option pystr) :=
  match genres with
  | (_ :: _) as first_genre :: _ =>
      let* c := get in
      let* genre_name := or_raise KeyError (genre_names_from_links c !! first_genre) in
      ret (Some genre_name)
  | _ => ret None
  end.

(** Lines 124-127. *)
Definition anchor_of (artist : option pystr) : pystr :=
  let anchor :=
    match artist with
    | Some (c :: _) => str_upper [c]
    | _ => py "U"
    end in
  let anchor := unidecode anchor in
  if negb (str_in anchor ascii_uppercase) then py "num" else anchor.

(** Lines 128-132, one element of the comprehension. *)
Definition track_from_json (track_json : TrackJson.t) : option Track.t :=
  i ← id_from_link (TrackJson.link track_json);
  Some (Track.mk i (TrackJson.title track_json)
          (TrackJson.disknumber track_json) (TrackJson.tracknumber track_json)).

(** Lines 133-134, the [key] of the sort. *)
Definition track_sort_key (t : Track.t) : Z * Z :=
  (match Track.disknumber t with Some d => d | None => 9999 end,
   match Track.tracknumber t with Some n => n | None => 0 end).

Definition add_album_from_json (album_json : AlbumJson.t) : M Album.t :=
  let* album_id := or_raise ValueError (id_from_link (AlbumJson.link album_json)) in
  let* genre_name := genre_name_of (AlbumJson.genres album_json) in
  let artist := AlbumJson.artist album_json in
  let anchor := anchor_of artist in
  let* tracks := or_raise ValueError (mapM track_from_json (AlbumJson.tracks album_json)) in
  let tracks := sort_by track_sort_key tracks in
  let album_details_ :=
    Album.mk album_id artist (AlbumJson.title album_json)
      (AlbumJson.releasedate album_json) (AlbumJson.artwork_link album_json)
      genre_name (AlbumJson.numberdisks album_json) tracks anchor in
  modify (fun c => set_album_details (<[album_id := album_details_]> (album_details c)) c);;
  ret album_details_.

(** ** [add_artist_from_json] (lines 147-157) *)

(** Line 155, the [key] of the sort. *)
Definition artist_album_sort_key (album : Album.t) : Z :=
  match Album.year album with
  | Some y => if decide (y = 0) then 9999 else y
  | None => 9999
  end.

(** Lines 153-154, the inner loop: the albums of one group are normalised
    in turn and appended to [albums]. *)
Definition normalize_into (albums : list Album.t) (albums_json : list AlbumJson.t)
    : M (list Album.t) :=
  foldM (fun albums album_json =>
           let* album := add_album_from_json album_json in
           ret (albums ++ [album]))
        albums albums_json.

(** Lines 152-154. The locals after the loops: the last [artist_name]
    bound, if any, and [albums]. *)
Definition artist_groups (artist_json : list (pystr * list AlbumJson.t))
    : M (option pystr * list Album.t) :=
  foldM (fun acc group =>
           let* albums := normalize_into (snd acc) (snd group) in
           ret (Some (fst group), albums))
        (None, []) artist_json.

Definition add_artist_from_json (artist_json : list (pystr * list AlbumJson.t))
    : M unit :=
  let* locals := artist_groups artist_json in
  let albums := sort_by artist_album_sort_key (snd locals) in
  let* artist_name := or_raise UnboundLocalError (fst locals) in
  let artist := Artist.mk artist_name albums in
  modify (fun c =>
    set_artist_details (<[str_lower artist_name := artist]> (artist_details c)) c).

(** ** [ensure_genre_cache] (lines 38-61) *)

(** Lines 50-55. *)
Definition display_genre_of (server_genre_name : pystr) : pystr :=
  match GENRE_LOOKUP server_genre_name with
  | Some displayed_name => displayed_name
  | None => UNCATEGORISED
  end.

(** [display_names_set.add]. The set is kept in order of first insertion;
    Python leaves the iteration order of a set open, which shows only in
    the order of display genres of equal rank. *)
Definition set_add (x : pystr) (s : list pystr) : list pystr :=
  if decide (x ∈ s) then s else s ++ [x].

(** Lines 47-59, one iteration: the loop mutates [genre_links],
    [genre_names_from_links] and the local [display_names_set]. *)
Definition index_server_genre (display_names_set : list pystr)
    (server_genre : ServerGenre.t) : M (list pystr) :=
  let server_link := ServerGenre.link server_genre in
  let display_genre := display_genre_of (ServerGenre.name server_genre) in
  let* c := get in
  let* links := or_raise AttributeError (genre_links c) in
  modify (set_genre_links
            (Some (<[display_genre := default [] (links !! display_genre) ++ [server_link]]> links)));;
  modify (fun c => set_genre_names_from_links
                     (<[server_link := display_genre]> (genre_names_from_links c)) c);;
  ret (set_add display_genre display_names_set).

(** Line 60: [sorted(display_names_set, key=lambda dn: GENRE_SORT_ORDER[dn])]. *)
Definition sorted_display_names (display_names_set : list pystr) : option (list pystr) :=
  ranked ← mapM (fun dn => r ← GENRE_SORT_ORDER dn; Some (r, dn)) display_names_set;
  Some (map snd (sort_by fst ranked)).

Definition ensure_genre_cache : M unit :=
  let* c := get in
  match display_genres c with
  | Some _ => ret tt
  | None =>
      let* response := requests_get (server ++ py "/genres") in
      if negb (status_code response =? 200) then raise UnableToConnect
      else
        modify (set_genre_links (Some ∅));;
        let* server_genre_json :=
          match json response with
          | GenresJson l => ret l
          | _ => raise TypeError
          end in
        let* display_names_set := foldM index_server_genre [] server_genre_json in
        let* names := or_raise KeyError (sorted_display_names display_names_set) in
        modify (set_display_names (Some names));;
        let* views := or_raise KeyError (mapM GENRE_VIEWS names) in
        modify (set_display_genres (Some views))
  end.

(** ** [ensure_genre_contents_cache] (lines 63-98) *)

(** [albums[k] = v] on a dict: a present key keeps its place. *)
Fixpoint dict_set (k : pystr) (v : Album.t) (d : list (pystr * Album.t))
    : list (pystr * Album.t) :=
  match d with
  | [] => [(k, v)]
  | (k', v') :: d' =>
      if decide (k' = k) then (k, v) :: d' else (k', v') :: dict_set k v d'
  end.

(** Lines 86-94; the three-part key as nested pairs. *)
Definition get_album_sort_order (album : Album.t) : pystr * (Z * pystr) :=
  let artist :=
    match Album.artist album with
    | Some (c :: s) => c :: s
    | _ => py "Unknown Artist"
    end in
  let artist := remove_char 34 artist in
  let artist := unidecode artist in
  let artist := str_lower artist in
  let title :=
    match Album.title album with
    | Some (c :: s) => c :: s
    | _ => py "ZZZZZZZZZZZ"
    end in
  let title := unidecode title in
  let title := str_lower title in
  (artist,
   (match Album.year album with
    | Some y => if decide (y = 0) then 0 else y
    | None => 0
    end,
    title)).

(** Lines 77-84: the body of the loop over [server_links]. *)
Definition fetch_genre_link (albums : list (pystr * Album.t)) (link : pystr)
    : M (list (pystr * Album.t)) :=
  let* response := requests_get (genre_url link) in
  if negb (status_code response =? 200) then raise (HTTPAbort 500)
  else
    let* genre_albums :=
      match json response with
      | GenreJson l => ret l
      | _ => raise TypeError
      end in
    foldM (fun albums album_json =>
             let* album := add_album_from_json album_json in
             ret (dict_set (Album.id album) album albums))
          albums genre_albums.

(** Line 98: [self.albums_in_genre[genre_name]] on a [defaultdict(list)]. *)
Definition albums_in_genre_item (genre_name : pystr) : M (list Album.t) :=
  let* c := get in
  match albums_in_genre c !! genre_name with
  | Some albums => ret albums
  | None =>
      modify (set_albums_in_genre (<[genre_name := []]> (albums_in_genre c)));;
      ret []
  end.

Definition ensure_genre_contents_cache (genre_name : pystr)
    : M (option (list Album.t)) :=
  ensure_genre_cache;;
  let* c := get in
  match albums_in_genre c !! genre_name with
  | Some _ =>
      let* albums := albums_in_genre_item genre_name in ret (Some albums)
  | None =>
      let* links := or_raise AttributeError (genre_links c) in
      match links !! genre_name with
      | None => ret None
      | Some server_links =>
          let* albums := foldM fetch_genre_link [] server_links in
          let albums := map snd albums in
          let albums := sort_by get_album_sort_order albums in
          modify (fun c => set_albums_in_genre
                             (<[genre_name := albums]> (albums_in_genre c)) c);;
          let* albums := albums_in_genre_item genre_name in ret (Some albums)
      end
  end.

(** ** [ensure_album_cache] (lines 100-107) *)

Definition ensure_album_cache (album_id : pystr) : M Album.t :=
  ensure_genre_cache;;
  let* c := get in
  match album_details c !! album_id with
  | Some _ => ret tt
  | None =>
      let* response :=
        requests_get (album_url album_id) in
      if negb (status_code response =? 200) then raise (HTTPAbort 500)
      else
        let* album_json :=
          match json response with
          | AlbumDetailJson j => ret j
          | _ => raise TypeError
          end in
        add_album_from_json album_json;; ret tt
  end;;
  let* c := get in
  or_raise KeyError (album_details c !! album_id).

(** ** [ensure_artist_cache] (lines 109-117) *)

Definition ensure_artist_cache (artist : pystr) : M Artist.t :=
  ensure_genre_cache;;
  let artist_lookup := str_lower artist in
  let* c := get in
  match artist_details c !! artist_lookup with
  | Some _ => ret tt
  | None =>
      let* response :=
        requests_get (artist_url artist) in
      if negb (status_code response =? 200) then raise (HTTPAbort 404)
      else
        let* artist_json :=
          match json response with
          | ArtistJson j => ret j
          | _ => raise TypeError
          end in
        add_artist_from_json artist_json
  end;;
  let* c := get in
  or_raise KeyError (artist_details c !! artist_lookup).

(** ** The cache as the request handlers use it (lines 160-200)

    A handler makes one [call] and reads its value; [root] reads
    [display_genres] after [ensure_genre_cache]. *)

Inductive call :=
| EnsureGenreCache
| EnsureGenreContentsCache (genre_name : pystr)
| EnsureAlbumCache (album_id : pystr)
| EnsureArtistCache (artist : pystr).

Inductive answer :=
| Genres (display_genres : option (list GenreView))
| Albums (albums : option (list Album.t))
| AnAlbum (album : Album.t)
| AnArtist (artist : Artist.t).

Definition run (k : call) : M answer :=
  match k with
  | EnsureGenreCache =>
      ensure_genre_cache;; let* c := get in ret (Genres (display_genres c))
  | EnsureGenreContentsCache genre_name =>
      let* albums := ensure_genre_contents_cache genre_name in ret (Albums albums)
  | EnsureAlbumCache album_id =>
      let* album := ensure_album_cache album_id in ret (AnAlbum album)
  | EnsureArtistCache artist =>
      let* artist := ensure_artist_cache artist in ret (AnArtist artist)
  end.

(** The caches a process can be in: [Cache()] followed by any calls,
    whether they returned or raised. *)
Inductive reachable : Cache -> Prop :=
| reachable_init : reachable init
| reachable_run k c : reachable c -> reachable (run k c).2.

(** How many requests the process made between two states. *)
Definition fetches_between (c c' : Cache) : nat :=
  (length (requests_made c') - length (requests_made c))%nat.

(** [keeps f m]: running [m] leaves the observation [f] of the cache as it
    was, whether [m] returns or raises. *)
Definition keeps {A B} (f : Cache -> B) (m : M A) : Prop :=
  forall c, f (m c).2 = f c.

(** [raises_in P m]: whatever [m] raises satisfies [P]. *)
Definition raises_in {A} (P : exn -> Prop) (m : M A) : Prop :=
  forall c e c', m c = (Raise e, c') -> P e.

(** The local dict [albums] of [ensure_genre_contents_cache] is keyed by
    album id, without repetition, and every album in it is the one
    [album_details] holds under that id. *)
Definition dict_in_step (d : list (pystr * Album.t)) (c : Cache) : Prop :=
  NoDup (map fst d) /\
  forall k a, (k, a) ∈ d -> Album.id a = k /\ album_details c !! k = Some a.

(** A listing holds every album that a link of [server_links] lists, for
    the links that the server answers with one and the same document
    whenever it is asked. *)
Definition listing_complete (server_links : list pystr) (l : list Album.t) : Prop :=
  forall link genre_albums album_json i,
    link ∈ server_links ->
    (forall n, http_get n (genre_url link)
               = Some (mkResponse 200 (GenreJson genre_albums))) ->
    album_json ∈ genre_albums ->
    id_from_link (AlbumJson.link album_json) = Some i ->
    i ∈ map Album.id l.

(** An invariant of the caches a process can be in: a cached listing
    belongs to a display genre of the loaded genre index, is free of
    repeated ids, is in the order of [get_album_sort_order] and holds the
    albums of the upstream links of its display genre. *)
Definition listings_ok (c : Cache) : Prop :=
  forall g l, albums_in_genre c !! g = Some l ->
    is_Some (display_genres c) /\
    exists links server_links,
      genre_links c = Some links /\ links !! g = Some server_links /\
      NoDup (map Album.id l) /\ sorted_by get_album_sort_order l /\
      listing_complete server_links l.

(** How often an album id occurs in a listing. *)
Definition occurrences (album_id : pystr) (l : list Album.t) : nat :=
  length (List.filter (fun a => bool_decide (Album.id a = album_id)) l).

(** The requests a call for [k] that returns has to make, from the cache
    [c] it starts in ([c1] is the cache it ends in, which holds the genre
    index): one for the genre index unless it is loaded, and for a key that
    is not cached one for an album or an artist, and one for each upstream
    link of a display genre. *)
Definition fetches_needed (k : call) (c c1 : Cache) : nat :=
  (match display_genres c with Some _ => 0 | None => 1 end
   + match k with
     | EnsureGenreCache => 0
     | EnsureGenreContentsCache genre_name =>
         match albums_in_genre c !! genre_name with
         | Some _ => 0
         | None => length (default [] (genre_links c1 ≫= (.!! genre_name)))
         end
     | EnsureAlbumCache album_id =>
         match album_details c !! album_id with Some _ => 0 | None => 1 end
     | EnsureArtistCache artist =>
         match artist_details c !! str_lower artist with
         | Some _ => 0
         | None => 1
         end
     end)%nat.

(** Whether a run returned rather than raised. *)
Definition returned {A} (r : result A * Cache) : bool :=
  match r.1 with
  | Ok _ => true
  | Raise _ => false
  end.

End WithHost.

(** * A host for the examples

    A server with a handful of routes, the genre tables of a small
    [genre_view], and the case mapping and transliteration of the three
    non-ASCII characters the examples use (U+00C9, U+00E9, U+00AA), as
    Python and the [unidecode] package give them. *)

Definition demo_upper (s : pystr) : pystr :=
  map (fun c => if (c =? 233)%N then 201%N else ascii_upper c) s.

Definition demo_lower (s : pystr) : pystr :=
  map (fun c => if (c =? 201)%N then 233%N else ascii_lower c) s.

Definition demo_unidecode (s : pystr) : pystr :=
  flat_map (fun c =>
              if (c =? 201)%N then py "E"
              else if (c =? 233)%N then py "e"
              else if (c =? 170)%N then py "a"
              else if is_ascii c then [c] else [])
           s.

Definition demo_genre_lookup (server_genre_name : pystr) : option pystr :=
  if decide (server_genre_name = py "Rock") then Some (py "Rock")
  else if decide (server_genre_name = py "Hard Rock") then Some (py "Rock")
  else if decide (server_genre_name = py "Folk") then Some (py "Folk")
  else None.

Definition demo_genre_sort_order (dn : pystr) : option Z :=
  if decide (dn = py "Rock") then Some 0
  else if decide (dn = py "Folk") then Some 1
  else if decide (dn = py "Uncategorised") then Some 2
  else None.

Definition demo_track (link : string) (disk track : option Z) : TrackJson.t :=
  TrackJson.mk (py link) (Some (py "track")) disk track.

Definition demo_album (link genre : string) (artist title : option pystr)
    (year : option Z) (tracks : list TrackJson.t) : AlbumJson.t :=
  AlbumJson.mk (py link) [py genre] artist title year
    (Some (py "/artwork/1")) (Some 1) tracks.

(** The albums A, B and C of the sort-order example. *)
Definition album_A : AlbumJson.t :=
  demo_album "/albums/10" "/genres/1" (Some (py "Bob")) (Some (py "Ten")) (Some 2000)
    [demo_track "/tracks/1" (Some 1) (Some 2);
     demo_track "/tracks/2" None (Some 1);
     demo_track "/tracks/3" (Some 1) (Some 1)].

Definition album_B : AlbumJson.t :=
  demo_album "/albums/11" "/genres/2" (Some (py "bob")) (Some (py "Eleven")) (Some 1990) [].

Definition album_C : AlbumJson.t :=
  demo_album "/albums/12" "/genres/1" None (Some (py "X")) (Some 1995) [].

(** Album 10 as the artist route serves it, under another title. *)
Definition album_A_retitled : AlbumJson.t :=
  demo_album "/albums/10" "/genres/1" (Some (py "Bob")) (Some (py "Ten (Remastered)"))
    (Some 2000) [].

(** Two albums of one artist and year, one of them untitled. *)
Definition album_untitled : AlbumJson.t :=
  demo_album "/albums/30" "/genres/4" (Some (py "Villagers")) None (Some 2013) [].

Definition album_awayland : AlbumJson.t :=
  demo_album "/albums/31" "/genres/4" (Some (py "Villagers")) (Some (py "{Awayland}"))
    (Some 2013) [].

Definition demo_routes : list (pystr * response) :=
  [ (py "http://piju:5000/genres",
     mkResponse 200 (GenresJson
       [ ServerGenre.mk (py "/genres/1") (py "Rock");
         ServerGenre.mk (py "/genres/2") (py "Hard Rock");
         ServerGenre.mk (py "/genres/4") (py "Folk") ]));
    (py "http://piju:5000/genres/1?albums=all",
     mkResponse 200 (GenreJson [album_A; album_C]));
    (py "http://piju:5000/genres/2?albums=all",
     mkResponse 200 (GenreJson [album_A; album_B]));
    (py "http://piju:5000/genres/4?albums=all",
     mkResponse 200 (GenreJson [album_awayland; album_untitled]));
    (py "http://piju:5000/albums/10?tracks=all",
     mkResponse 200 (AlbumDetailJson album_A));
    (py "http://piju:5000/artists/Bob?tracks=all",
     mkResponse 200 (ArtistJson
       [ (py "Bob", [album_A_retitled]);
         (py "bob", [album_B]) ]));
    (py "http://piju:5000/artists/Nobody?tracks=all",
     mkResponse 200 (ArtistJson []));
    (py "http://piju:5000/artists/prince?tracks=all",
     mkResponse 200 (ArtistJson [ (py "Prince & Co", []) ])) ].

(** Any other URL is answered 404, with an empty document. *)
Definition demo_http_get (n : nat) (url : pystr) : option response :=
  match list_find (fun r => r.1 = url) demo_routes with
  | Some (_, (_, r)) => Some r
  | None => Some (mkResponse 404 (GenresJson []))
  end.

Definition demo_host : Host := {|
  host_upper := demo_upper;
  host_lower := demo_lower;
  host_unidecode := demo_unidecode;
  GenreView := pystr;
  GENRE_LOOKUP := demo_genre_lookup;
  UNCATEGORISED := py "Uncategorised";
  GENRE_SORT_ORDER := demo_genre_sort_order;
  GENRE_VIEWS := fun dn => Some dn;
  server := py "http://piju:5000";
  http_get := demo_http_get
|}.

(** The cache of the demo process once the genre index is loaded. *)
Definition demo_indexed : Cache (H:=demo_host) :=
  (ensure_genre_cache (H:=demo_host) init).2.

(** The same server and tables over another transport. *)
Definition demo_host_with (get : nat -> pystr -> option response) : Host := {|
  host_upper := demo_upper;
  host_lower := demo_lower;
  host_unidecode := demo_unidecode;
  GenreView := pystr;
  GENRE_LOOKUP := demo_genre_lookup;
  UNCATEGORISED := py "Uncategorised";
  GENRE_SORT_ORDER := demo_genre_sort_order;
  GENRE_VIEWS := fun dn => Some dn;
  server := py "http://piju:5000";
  http_get := get
|}.

(** The demo server behind a connection that is lost after [k] requests. *)
Definition dropping_host (k : nat) : Host :=
  demo_host_with (fun n url => if (n <? k)%nat then demo_http_get n url else None).

(** A server that answers the route of album 7 with album 10. *)
Definition mixed_up_host : Host :=
  demo_host_with (fun n url =>
    if decide (url = py "http://piju:5000/albums/7?tracks=all")
    then Some (mkResponse 200 (AlbumDetailJson album_A))
    else demo_http_get n url).

(** * The rest of [main.py]

    The route handler of a genre page, the header helpers, the
    normalisation of the server argument and the protocol-version check
    of [connection_test]. *)

(** ** [get_genre] (lines 166-184) *)

(** [k in d] and [d[k] = v] for the dict [first_album_for_anchor]. *)
Fixpoint dict_get {V} (k : pystr) (d : list (pystr * V)) : option V :=
  match d with
  | [] => None
  | (k', v) :: d' => if decide (k' = k) then Some v else dict_get k d'
  end.

(** Line 172. *)
Definition letters : pystr := py "#" ++ ascii_uppercase.

(** Line 173. *)
Definition anchor_names : list pystr :=
  py "num" :: map (fun c => [c]) ascii_uppercase.

(** Lines 171 and 174. The set [anchors] only serves the membership test;
    the keys of [anchor_names] differ, so the dict is the list of pairs. *)
Definition have_anchors_of (albums : list Album.t) : list (pystr * bool) :=
  map (fun anchor => (anchor, bool_decide (anchor ∈ map Album.anchor albums)))
      anchor_names.

(** Lines 175-178. *)
Definition first_album_step (d : list (pystr * pystr)) (album : Album.t)
    : list (pystr * pystr) :=
  match dict_get (Album.anchor album) d with
  | Some _ => d
  | None => d ++ [(Album.anchor album, Album.id album)]
  end.

Definition first_album_for_anchor_of (albums : list Album.t)
    : list (pystr * pystr) :=
  fold_left first_album_step albums [].

(** What [get_genre] hands to the template [genre.html], besides
    [app.default_template_args]. *)
Module GenrePage.
Record t := mk {
  genre_name : pystr;
  albums : list Album.t;
  letters : pystr;
  have_anchors : list (pystr * bool);
  first_album_for_anchor : list (pystr * pystr)
}.
End GenrePage.

Section Handlers.
Context `{Host}.

Definition get_genre (genre_name : pystr) : M GenrePage.t :=
  bind (ensure_genre_contents_cache genre_name) (fun albums =>
    match albums with
    | None => raise (HTTPAbort 404)
    | Some albums =>
        ret (GenrePage.mk genre_name albums letters (have_anchors_of albums)
               (first_album_for_anchor_of albums))
    end).

End Handlers.

(** ** [make_header] (lines 215-220) *)

(** [sep.join(l)] *)
Fixpoint str_join (sep : pystr) (l : list pystr) : pystr :=
  match l with
  | [] => []
  | [s] => s
  | s :: l' => s ++ sep ++ str_join sep l'
  end.

(** Line 220; code point 34 is the double quote. *)
Definition make_header_component (dest label : pystr) : pystr :=
  py "<a href=" ++ [34%N] ++ dest ++ [34%N]
  ++ py " class=" ++ [34%N] ++ py "text-decoration-none" ++ [34%N]
  ++ py " style=" ++ [34%N] ++ py "color: ghostwhite" ++ [34%N]
  ++ py ">" ++ label ++ py "</a>".

Definition make_header (links : list (pystr * pystr)) : pystr :=
  str_join (py " | ") (map (fun l => make_header_component l.1 l.2) links).

(** ** [parse_args] (lines 223-235)

    [argv_server] is the positional argument, if given. [None] as result
    stands for the [IndexError] of [args.server[-1]]. *)

Definition normalize_server (server : pystr) : option pystr :=
  let server :=
    if starts_with (py "http") server then server else py "http://" ++ server in
  c ← last server;
  Some (if (c =? 47)%N then removelast server else server).

Definition parse_args (argv_server : option pystr) : option pystr :=
  normalize_server (default (py "piju:5000") argv_server).

(** ** [connection_test] (lines 238-274)

    The function only logs. Its model takes the outcome of
    [requests.get(server + "/")] and returns the log records in order,
    with [Raise ValueError] when [int] rejects a fragment. The body of a
    reply is taken to be a JSON object whose [ApiVersion], if any, is a
    string, and integer strings to be within the length the interpreter
    converts. *)

Inductive level := ERROR | WARNING.

(** The outcome of the request: [requests.exceptions.ConnectionError], or
    the status and [data.get('ApiVersion')]. *)
Inductive root_reply :=
| ConnectionRefused
| Replied (status_code : Z) (ApiVersion : option pystr).

(** [s.split(c)] for a one-character separator. *)
Fixpoint str_split (c : N) (s : pystr) : list pystr :=
  match s with
  | [] => [[]]
  | x :: s' =>
      if (x =? c)%N then [] :: str_split c s'
      else match str_split c s' with
           | f :: fs => (x :: f) :: fs
           | [] => [[x]]
           end
  end.

(** [itertools.zip_longest(l1, l2, fillvalue=fill)] *)
Fixpoint zip_longest {A} (fill : A) (l1 l2 : list A) : list (A * A) :=
  match l1, l2 with
  | [], _ => map (fun y => (fill, y)) l2
  | _ :: _, [] => map (fun x => (x, fill)) l1
  | x :: l1', y :: l2' => (x, y) :: zip_longest fill l1' l2'
  end.

(** One of the digits [0] to [9]. *)
Definition is_digit (c : N) : bool := ((48 <=? c) && (c <=? 57))%N.

(** The value of a string of ASCII digits. *)
Definition digits_value (s : pystr) : Z :=
  fold_left (fun v c => 10 * v + (Z.of_N c - 48)) s 0.

(** The messages of lines 242-272. *)
Definition unable_to_connect : pystr :=
  py "Unable to connect to the specified server".

Definition no_api_version : pystr :=
  py "Server response did not include an API protocol version. "
  ++ py "Probably an old or incompatible server".

Definition non_numeric : pystr :=
  py "Non-numeric version string fragment encountered".

Definition versions (required_api_version api_version : pystr) : pystr :=
  py "Required: " ++ required_api_version ++ py "; detected: " ++ api_version.

Definition newer_msg (required_api_version api_version : pystr) : pystr :=
  py "Server is using a newer protocol version than the UI requires: may be incompatible. "
  ++ versions required_api_version api_version.

Definition older_msg (required_api_version api_version : pystr) : pystr :=
  py "Server is using an older protocol version than required by the UI: likely to be incompatible. "
  ++ versions required_api_version api_version.

Section ConnectionTest.

(** [str.isdigit] and [int] on strings that are not pure ASCII. *)
Variable host_isdigit : pystr -> bool.
Variable host_int : pystr -> option Z.

Definition str_isdigit (s : pystr) : bool :=
  if forallb is_ascii s
  then negb (bool_decide (s = [])) && forallb is_digit s
  else host_isdigit s.

(** [int(s)], which the loop calls on strings that passed [isdigit]
    only: on ASCII these are the strings of digits. *)
Definition str_int (s : pystr) : option Z :=
  if forallb is_ascii s
  then (if negb (bool_decide (s = [])) && forallb is_digit s
        then Some (digits_value s) else None)
  else host_int s.

(** Lines 255-274: the loop over the pairs of fragments. *)
Fixpoint compare_fragments (required_api_version api_version : pystr)
    (fragments : list (pystr * pystr)) : result unit * list (level * pystr) :=
  match fragments with
  | [] => (Ok tt, [])
  | (required_fragment, detected_fragment) :: rest =>
      if negb (str_isdigit required_fragment) || negb (str_isdigit detected_fragment)
      then
        let r := compare_fragments required_api_version api_version rest in
        (r.1, (WARNING, non_numeric) :: r.2)
      else
        match str_int required_fragment, str_int detected_fragment with
        | Some required, Some detected =>
            if required =? detected
            then compare_fragments required_api_version api_version rest
            else if required <? detected
            then (Ok tt, [(WARNING, newer_msg required_api_version api_version)])
            else (Ok tt, [(ERROR, older_msg required_api_version api_version)])
        | _, _ => (Raise ValueError, [])
        end
  end.

Definition connection_test (reply : root_reply) (required_api_version : pystr)
    : result unit * list (level * pystr) :=
  match reply with
  | ConnectionRefused => (Ok tt, [(ERROR, unable_to_connect)])
  | Replied status_code ApiVersion =>
      if negb (status_code =? 200) then (Ok tt, [(WARNING, unable_to_connect)])
      else
        match ApiVersion with
        | Some ((_ :: _) as api_version) =>
            compare_fragments required_api_version api_version
              (zip_longest (py "0")
                 (str_split 46 required_api_version) (str_split 46 api_version))
        | _ => (Ok tt, [(WARNING, no_api_version)])
        end
  end.

End ConnectionTest.

(** A fragment that is a string of ASCII digits, one at least. *)
Definition numeric (fragment : pystr) : Prop :=
  fragment <> [] /\ Forall (fun c => is_digit c = true) fragment.

(** The fragments of a version as numbers. *)
Definition version_numbers (version : pystr) : list Z :=
  map digits_value (str_split 46 version).

(** The [i]-th number of a version, 0 beyond its end. *)
Definition version_nth (version : pystr) (i : nat) : Z :=
  nth i (version_numbers version) 0.

(** [i] is the first position at which two versions differ. *)
Definition first_difference (required detected : pystr) (i : nat) : Prop :=
  (forall j, (j < i)%nat -> version_nth required j = version_nth detected j) /\
  version_nth required i <> version_nth detected i.

(** * What the cache holds

    The vocabulary of the invariants of the cache, of its runs and of the
    results of [ensure_genre_cache]. *)

Section CacheContents.
Context `{Host}.

(** Every album of [l] has an entry in [album_details] under its id. *)
Definition cached (l : list Album.t) (c : Cache) : Prop :=
  forall a, a ∈ l -> is_Some (album_details c !! Album.id a).

(** The tables hold well-formed entries: an album is stored under its own
    id, with its tracks in order; an artist is stored under the
    lower-cased name, with the albums in order of year; and every album of
    an artist or of a genre listing has an entry in [album_details]. *)
Definition cache_ok (c : Cache) : Prop :=
  (forall k a, album_details c !! k = Some a ->
     Album.id a = k /\ sorted_by track_sort_key (Album.tracks a)) /\
  (forall k r, artist_details c !! k = Some r ->
     k = str_lower (Artist.name r) /\
     sorted_by artist_album_sort_key (Artist.albums r) /\
     cached (Artist.albums r) c) /\
  (forall g l, albums_in_genre c !! g = Some l -> cached l c).

(** [triple P m Q I]: from a cache with [P], a run of [m] that returns [a]
    ends in a cache with [Q a], and a run that raises ends in a cache
    with [I]. *)
Definition triple {A} (P : Cache -> Prop) (m : M A) (Q : A -> Cache -> Prop)
    (I : Cache -> Prop) : Prop :=
  forall c, P c ->
    match m c with
    | (Ok a, c') => Q a c'
    | (Raise _, c') => I c'
    end.

(** A payload that [add_album_from_json] can normalise in the cache [c]:
    its link and the links of its tracks have a [/], and its first genre
    link, if not empty, is one the genre index knows. *)
Definition normalisable (album_json : AlbumJson.t) (c : Cache) : Prop :=
  is_Some (id_from_link (AlbumJson.link album_json)) /\
  match AlbumJson.genres album_json with
  | (_ :: _) as first_genre :: _ => is_Some (genre_names_from_links c !! first_genre)
  | _ => True
  end /\
  Forall (fun t => is_Some (id_from_link (TrackJson.link t)))
         (AlbumJson.tracks album_json).

(** The upstream links that the genres of a [/genres] document give to a
    display genre, in the order of the document. *)
Definition links_of (display_genre : pystr) (server_genre_json : list ServerGenre.t)
    : list pystr :=
  map ServerGenre.link
      (List.filter (fun g => bool_decide
                               (display_genre_of (ServerGenre.name g) = display_genre))
                   server_genre_json).

(** The genres of a [/genres] document that have a given link. *)
Definition genres_with_link (link : pystr) (server_genre_json : list ServerGenre.t)
    : list ServerGenre.t :=
  List.filter (fun g => bool_decide (ServerGenre.link g = link)) server_genre_json.

(** A URL of the configured server. *)
Definition on_server (url : pystr) : Prop := exists path, url = server ++ path.

(** What a run raised, if it did. *)
Definition raised {A} (r : result A * Cache) : option exn :=
  match r.1 with
  | Ok _ => None
  | Raise e => Some e
  end.

(** An exception that is no [abort], or the [abort] of the given status. *)
Definition abort_only (code : Z) (e : exn) : Prop :=
  forall code', e = HTTPAbort code' -> code' = code.

End CacheContents.

(** * Properties *)

(** ** The order on keys *)

Lemma key_asym {K} `{KeyOrder K} (x y : K) :
  key_ltb x y = true -> key_ltb y x = false.
Proof.
  intros Hxy. destruct (key_ltb y x) eqn:Hyx; [|done].
  rewrite <- (key_irrefl x). symmetry. by apply key_trans with y.
Qed.

Lemma key_leb_refl {K} `{KeyOrder K} (x : K) : key_leb x x = true.
Proof. unfold key_leb. by rewrite key_irrefl. Qed.

Lemma key_leb_trans {K} `{KeyOrder K} (x y z : K) :
  key_leb x y = true -> key_leb y z = true -> key_leb x z = true.
Proof.
  unfold key_leb. rewrite !negb_true_iff. intros Hyx Hzy.
  destruct (key_ltb z x) eqn:Hzx; [|done].
  destruct (key_ltb x y) eqn:Hxy.
  - rewrite <- Hzy. symmetry. by apply key_trans with x.
  - rewrite (key_total _ _ Hxy Hyx) in Hzx. congruence.
Qed.

Lemma key_leb_antisym {K} `{KeyOrder K} (x y : K) :
  key_leb x y = true -> key_leb y x = true -> x = y.
Proof.
  unfold key_leb. rewrite !negb_true_iff. intros Hyx Hxy. by apply key_total.
Qed.

Lemma key_ltb_leb {K} `{KeyOrder K} (x y : K) :
  key_ltb x y = true -> key_leb x y = true.
Proof. intros Hxy. unfold key_leb. by rewrite (key_asym _ _ Hxy). Qed.

#[export] Instance Z_key_order : KeyOrder Z.
Proof.
  split; unfold key_ltb, Z_key; intros; rewrite ?Z.ltb_lt, ?Z.ltb_ge in *; lia.
Qed.

Lemma str_ltb_irrefl (a : pystr) : str_ltb a a = false.
Proof. induction a as [|x a IH]; simpl; [done|]. by rewrite N.ltb_irrefl. Qed.

Lemma str_ltb_trans (a b c : pystr) :
  str_ltb a b = true -> str_ltb b c = true -> str_ltb a c = true.
Proof.
  revert b c. induction a as [|x a IH]; intros [|y b] [|z c]; simpl; try done.
  destruct (N.ltb_spec x y), (N.ltb_spec y x), (N.ltb_spec y z), (N.ltb_spec z y),
    (N.ltb_spec x z), (N.ltb_spec z x); try done; try lia.
  apply IH.
Qed.

Lemma str_ltb_total (a b : pystr) :
  str_ltb a b = false -> str_ltb b a = false -> a = b.
Proof.
  revert b. induction a as [|x a IH]; intros [|y b]; simpl; try done.
  destruct (N.ltb_spec x y), (N.ltb_spec y x); try done; try lia.
  intros Hab Hba. f_equal; [lia|]. by apply IH.
Qed.

#[export] Instance str_key_order : KeyOrder pystr.
Proof.
  split; [apply str_ltb_irrefl | apply str_ltb_trans | apply str_ltb_total].
Qed.

#[export] Instance pair_key_order {K1 K2} `{EqDecision K1}
  `{KeyOrder K1} `{KeyOrder K2} : KeyOrder (K1 * K2).
Proof.
  split.
  - intros [a b]. unfold key_ltb, pair_key; simpl.
    rewrite decide_True by done. apply key_irrefl.
  - intros [a b] [a' b'] [a'' b'']. unfold key_ltb, pair_key; simpl.
    repeat case_decide; subst; try done; intros Hlt Hlt'.
    + by apply key_trans with b'.
    + by rewrite (key_asym _ _ Hlt) in Hlt'.
    + by apply key_trans with a'.
  - intros [a b] [a' b']. unfold key_ltb, pair_key; simpl.
    repeat case_decide; subst; try done; intros Hlt Hlt'.
    + f_equal. by apply key_total.
    + exfalso. eauto using key_total.
Qed.

(** ** The stable sort *)

Section SortFacts.
Context {A K : Type} `{KeyOrder K} `{EqDecision K} (key : A -> K).

Lemma insert_by_perm (x : A) (l : list A) : insert_by key x l ≡ₚ x :: l.
Proof.
  induction l as [|y l IH]; simpl; [done|].
  destruct (key_ltb (key y) (key x)); [|done].
  rewrite IH. apply perm_swap.
Qed.

Lemma sort_by_perm (l : list A) : sort_by key l ≡ₚ l.
Proof.
  induction l as [|x l IH]; simpl; [done|].
  by rewrite insert_by_perm, IH.
Qed.

Lemma sort_by_elem_of (a : A) (l : list A) : a ∈ sort_by key l <-> a ∈ l.
Proof. by rewrite sort_by_perm. Qed.

Lemma sort_by_length (l : list A) : length (sort_by key l) = length l.
Proof. by rewrite sort_by_perm. Qed.

Lemma insert_by_sorted (x : A) (l : list A) :
  sorted_by key l -> sorted_by key (insert_by key x l).
Proof.
  unfold sorted_by. induction 1 as [|y l Hl IH Hy]; simpl.
  - repeat constructor.
  - destruct (key_ltb (key y) (key x)) eqn:Hyx.
    + constructor; [done|].
      rewrite Forall_forall in *. intros z Hz.
      rewrite insert_by_perm in Hz.
      apply elem_of_cons in Hz as [->|Hz]; [by apply key_ltb_leb|].
      by apply Hy.
    + assert (key_leb (key x) (key y) = true) as Hxy
        by (unfold key_leb; by rewrite Hyx).
      constructor; [by constructor|].
      constructor; [done|].
      rewrite Forall_forall in *. intros z Hz.
      eapply key_leb_trans; [exact Hxy|]. by apply Hy.
Qed.

Lemma sort_by_sorted (l : list A) : sorted_by key (sort_by key l).
Proof.
  induction l as [|x l IH]; simpl; [constructor|]. by apply insert_by_sorted.
Qed.

Lemma with_key_insert_by (k : K) (x : A) (l : list A) :
  with_key key k (insert_by key x l) = with_key key k (x :: l).
Proof.
  unfold with_key. induction l as [|y l IH]; simpl; [done|].
  destruct (key_ltb (key y) (key x)) eqn:Hyx; [|done].
  simpl. rewrite IH. simpl.
  destruct (bool_decide_reflect (key y = k)) as [Hy|Hy],
    (bool_decide_reflect (key x = k)) as [Hx|Hx]; try done.
  rewrite Hy, Hx, key_irrefl in Hyx. done.
Qed.

(** Stability: the elements of any one key come out in their input order. *)
Lemma sort_by_stable (k : K) (l : list A) :
  with_key key k (sort_by key l) = with_key key k l.
Proof.
  induction l as [|x l IH]; simpl; [done|].
  rewrite with_key_insert_by. unfold with_key in *. simpl. by rewrite IH.
Qed.

Lemma sorted_by_lookup (l : list A) (i j : nat) (a b : A) :
  sorted_by key l -> l !! i = Some a -> l !! j = Some b -> (i < j)%nat ->
  key_leb (key a) (key b) = true.
Proof.
  intros Hl. revert i j. induction Hl as [|x l Hl IH Hx]; intros i j Hi Hj Hij.
  - done.
  - destruct j as [|j]; [lia|]. destruct i as [|i]; simpl in *.
    + injection Hi as <-. rewrite Forall_forall in Hx.
      apply Hx, list_elem_of_lookup. eauto.
    + apply (IH i j); [done|done|lia].
Qed.

Lemma with_key_head (x : A) (l : list A) :
  with_key key (key x) (x :: l) = x :: with_key key (key x) l.
Proof. unfold with_key. simpl. by rewrite bool_decide_eq_true_2. Qed.

Lemma with_key_elem_of (k : K) (a : A) (l : list A) :
  a ∈ with_key key k l -> a ∈ l.
Proof.
  unfold with_key. rewrite !list_elem_of_In, filter_In. tauto.
Qed.

(** A list in key order that keeps, key by key, the order of [l] is
    [sort_by key l]: the result of a stable sort does not depend on the
    algorithm. *)
Lemma sorted_stable_unique (l1 l2 : list A) :
  sorted_by key l1 -> sorted_by key l2 ->
  (forall k, with_key key k l1 = with_key key k l2) ->
  l1 = l2.
Proof.
  intros Hs1. revert l2.
  induction Hs1 as [|x l1 Hl1 IH Hx]; intros l2 Hs2 Heq.
  - destruct l2 as [|y l2]; [done|].
    specialize (Heq (key y)). by rewrite with_key_head in Heq.
  - destruct Hs2 as [|y l2 Hl2 Hy].
    + specialize (Heq (key x)). by rewrite with_key_head in Heq.
    + rewrite Forall_forall in Hx, Hy.
      assert (key x = key y) as Hk.
      { apply key_leb_antisym.
        - destruct (decide (key x = key y)) as [->|Hne]; [apply key_leb_refl|].
          apply Hx. apply (with_key_elem_of (key y)).
          pose proof (Heq (key y)) as Hq. rewrite with_key_head in Hq.
          assert (y ∈ with_key key (key y) (x :: l1)) as Hin
            by (rewrite Hq; left).
          unfold with_key in Hin. simpl in Hin.
          by rewrite bool_decide_eq_false_2 in Hin.
        - destruct (decide (key y = key x)) as [->|Hne]; [apply key_leb_refl|].
          apply Hy. apply (with_key_elem_of (key x)).
          pose proof (Heq (key x)) as Hq. rewrite with_key_head in Hq.
          assert (x ∈ with_key key (key x) (y :: l2)) as Hin
            by (rewrite <- Hq; left).
          unfold with_key in Hin. simpl in Hin.
          by rewrite bool_decide_eq_false_2 in Hin. }
      assert (x = y) as ->.
      { specialize (Heq (key x)). rewrite with_key_head in Heq.
        rewrite Hk, with_key_head in Heq. congruence. }
      f_equal. apply IH; [done|]. intros k.
      specialize (Heq k). unfold with_key in *. simpl in Heq.
      destruct (bool_decide (key y = k)); congruence.
Qed.

Lemma sort_by_unique (l l' : list A) :
  sorted_by key l' ->
  (forall k, with_key key k l' = with_key key k l) ->
  l' = sort_by key l.
Proof.
  intros Hs Hk. apply sorted_stable_unique; [done|apply sort_by_sorted|].
  intros k. by rewrite sort_by_stable.
Qed.

End SortFacts.

(** ** Running computations *)

Section MonadFacts.
Context `{Host}.

Lemma bind_Ok {A B} (m : M A) (f : A -> M B) c b c' :
  bind m f c = (Ok b, c') <->
  exists a c1, m c = (Ok a, c1) /\ f a c1 = (Ok b, c').
Proof.
  unfold bind. split.
  - destruct (m c) as [[a|e] c1]; [eauto|done].
  - by intros (a & c1 & -> & ?).
Qed.

Lemma bind_Raise {A B} (m : M A) (f : A -> M B) c e c' :
  bind m f c = (Raise e, c') <->
  m c = (Raise e, c') \/ exists a c1, m c = (Ok a, c1) /\ f a c1 = (Raise e, c').
Proof.
  unfold bind. split.
  - destruct (m c) as [[a|e1] c1]; [eauto|]. intros [= -> ->]. by left.
  - intros [->|(a & c1 & -> & ?)]; done.
Qed.

Lemma ret_Ok {A} (a b : A) c c' : ret a c = (Ok b, c') <-> a = b /\ c = c'.
Proof. unfold ret. split; [by intros [= -> ->]|by intros [-> ->]]. Qed.

Lemma get_Ok c b c' : get c = (Ok b, c') <-> b = c /\ c' = c.
Proof. unfold get. split; [by intros [= -> ->]|by intros [-> ->]]. Qed.

Lemma modify_Ok f c u c' : modify f c = (Ok u, c') <-> c' = f c.
Proof. unfold modify. destruct u. split; [by intros [= <-]|by intros ->]. Qed.

Lemma or_raise_Ok {A} e (o : option A) c a c' :
  or_raise e o c = (Ok a, c') <-> o = Some a /\ c' = c.
Proof.
  destruct o as [x|]; simpl; unfold ret, raise;
    (split; [by intros [= -> ->]|by intros [[= ->] ->]]).
Qed.

Lemma raise_Ok {A} e c (a : A) c' : raise e c = (Ok a, c') <-> False.
Proof. unfold raise. split; [by intros [=]|done]. Qed.

Lemma keeps_ret {A B} (f : Cache -> B) (a : A) : keeps f (ret a).
Proof. by intros c. Qed.

Lemma keeps_raise {A B} (f : Cache -> B) e : keeps f (raise (A:=A) e).
Proof. by intros c. Qed.

Lemma keeps_get {B} (f : Cache -> B) : keeps f get.
Proof. by intros c. Qed.

Lemma keeps_or_raise {A B} (f : Cache -> B) e (o : option A) :
  keeps f (or_raise e o).
Proof. by destruct o; intros c. Qed.

Lemma keeps_modify {B} (f : Cache -> B) g :
  (forall c, f (g c) = f c) -> keeps f (modify g).
Proof. intros Hg c. apply Hg. Qed.

Lemma keeps_bind {A A' B} (f : Cache -> B) (m : M A) (k : A -> M A') :
  keeps f m -> (forall a, keeps f (k a)) -> keeps f (bind m k).
Proof.
  intros Hm Hk c. unfold bind. specialize (Hm c).
  destruct (m c) as [[a|e] c1]; simpl in *; [|done].
  by rewrite Hk.
Qed.

Lemma keeps_foldM {A A' B} (f : Cache -> B) (g : A' -> A -> M A') b l :
  (forall b x, keeps f (g b x)) -> keeps f (foldM g b l).
Proof.
  intros Hg. revert b. induction l as [|x l IH]; intros b; simpl.
  - apply keeps_ret.
  - apply keeps_bind; [apply Hg|]. intros b'. apply IH.
Qed.

Lemma keeps_requests_get {B} (f : Cache -> B) url :
  (forall v c, f (set_requests_made v c) = f c) -> keeps f (requests_get url).
Proof.
  intros Hf c. unfold requests_get.
  destruct (http_get _ _); simpl; apply Hf.
Qed.

End MonadFacts.

Ltac keeps_step :=
  lazymatch goal with
  | |- keeps _ (bind _ _) => apply keeps_bind; [|intros ?]
  | |- keeps _ (ret _) => apply keeps_ret
  | |- keeps _ (raise _) => apply keeps_raise
  | |- keeps _ get => apply keeps_get
  | |- keeps _ (or_raise _ _) => apply keeps_or_raise
  | |- keeps _ (foldM _ _ _) => apply keeps_foldM; intros ? ?
  | |- keeps _ (modify _) => apply keeps_modify; intros ?; reflexivity
  | |- keeps _ (requests_get _) =>
      apply keeps_requests_get; intros ? ?; reflexivity
  | |- keeps _ (match ?x with _ => _ end) => destruct x
  end.

Create HintDb keeps.

Ltac keeps_tac := repeat (first [keeps_step | solve [eauto with keeps]]).

(** Inverting a run that returned. *)
Ltac minv :=
  repeat match goal with
  | H : bind _ _ _ = (Ok _, _) |- _ =>
      apply bind_Ok in H as (? & ? & ? & H)
  | H : ret _ _ = (Ok _, _) |- _ => apply ret_Ok in H as [? ?]
  | H : get _ = (Ok _, _) |- _ => apply get_Ok in H as [? ?]
  | H : modify _ _ = (Ok _, _) |- _ => apply modify_Ok in H
  | H : or_raise _ _ _ = (Ok _, _) |- _ => apply or_raise_Ok in H as [? ?]
  | H : raise _ _ = (Ok _, _) |- _ => by apply raise_Ok in H
  | H : (if ?b then _ else _) _ = (Ok _, _) |- _ => destruct b eqn:?
  | H : (match ?x with _ => _ end) _ = (Ok _, _) |- _ => destruct x eqn:?
  | _ => progress subst
  end.

(** ** What the operations leave alone *)

Section Frames.
Context `{Host}.

Lemma genre_name_of_keeps {B} (f : Cache -> B) genres : keeps f (genre_name_of genres).
Proof. unfold genre_name_of. keeps_tac. Qed.

Lemma add_album_keeps_display_genres j : keeps display_genres (add_album_from_json j).
Proof. unfold add_album_from_json. pose proof @genre_name_of_keeps. keeps_tac. Qed.

Lemma add_album_keeps_genre_links j : keeps genre_links (add_album_from_json j).
Proof. unfold add_album_from_json. pose proof @genre_name_of_keeps. keeps_tac. Qed.

Lemma add_album_keeps_albums_in_genre j : keeps albums_in_genre (add_album_from_json j).
Proof. unfold add_album_from_json. pose proof @genre_name_of_keeps. keeps_tac. Qed.

Lemma add_album_keeps_artist_details j : keeps artist_details (add_album_from_json j).
Proof. unfold add_album_from_json. pose proof @genre_name_of_keeps. keeps_tac. Qed.

Lemma add_album_keeps_requests_made j : keeps requests_made (add_album_from_json j).
Proof. unfold add_album_from_json. pose proof @genre_name_of_keeps. keeps_tac. Qed.

#[local] Hint Resolve add_album_keeps_display_genres add_album_keeps_genre_links
  add_album_keeps_albums_in_genre add_album_keeps_artist_details
  add_album_keeps_requests_made : keeps.

Lemma fetch_genre_link_keeps_display_genres d link :
  keeps display_genres (fetch_genre_link d link).
Proof. unfold fetch_genre_link. keeps_tac. Qed.

Lemma fetch_genre_link_keeps_genre_links d link :
  keeps genre_links (fetch_genre_link d link).
Proof. unfold fetch_genre_link. keeps_tac. Qed.

Lemma fetch_genre_link_keeps_albums_in_genre d link :
  keeps albums_in_genre (fetch_genre_link d link).
Proof. unfold fetch_genre_link. keeps_tac. Qed.

Lemma fetch_genre_link_keeps_artist_details d link :
  keeps artist_details (fetch_genre_link d link).
Proof. unfold fetch_genre_link. keeps_tac. Qed.

Lemma normalize_into_keeps {B} (f : Cache -> B) l js :
  (forall j, keeps f (add_album_from_json j)) -> keeps f (normalize_into l js).
Proof. intros Hf. unfold normalize_into. keeps_tac. Qed.

Lemma artist_groups_keeps_display_genres m : keeps display_genres (artist_groups m).
Proof. unfold artist_groups. keeps_tac. apply normalize_into_keeps. eauto with keeps. Qed.

Lemma artist_groups_keeps_genre_links m : keeps genre_links (artist_groups m).
Proof. unfold artist_groups. keeps_tac. apply normalize_into_keeps. eauto with keeps. Qed.

Lemma artist_groups_keeps_albums_in_genre m : keeps albums_in_genre (artist_groups m).
Proof. unfold artist_groups. keeps_tac. apply normalize_into_keeps. eauto with keeps. Qed.

Lemma artist_groups_keeps_artist_details m : keeps artist_details (artist_groups m).
Proof. unfold artist_groups. keeps_tac. apply normalize_into_keeps. eauto with keeps. Qed.

Lemma artist_groups_keeps_requests_made m : keeps requests_made (artist_groups m).
Proof. unfold artist_groups. keeps_tac. apply normalize_into_keeps. eauto with keeps. Qed.

#[local] Hint Resolve artist_groups_keeps_display_genres
  artist_groups_keeps_genre_links artist_groups_keeps_albums_in_genre
  artist_groups_keeps_artist_details artist_groups_keeps_requests_made : keeps.

Lemma add_artist_keeps_display_genres m : keeps display_genres (add_artist_from_json m).
Proof. unfold add_artist_from_json. keeps_tac. Qed.

Lemma add_artist_keeps_genre_links m : keeps genre_links (add_artist_from_json m).
Proof. unfold add_artist_from_json. keeps_tac. Qed.

Lemma add_artist_keeps_albums_in_genre m : keeps albums_in_genre (add_artist_from_json m).
Proof. unfold add_artist_from_json. keeps_tac. Qed.

Lemma add_artist_keeps_requests_made m : keeps requests_made (add_artist_from_json m).
Proof. unfold add_artist_from_json. keeps_tac. Qed.

Lemma index_server_genre_keeps {B} (f : Cache -> B) names g :
  (forall v c, f (set_genre_links v c) = f c) ->
  (forall v c, f (set_genre_names_from_links v c) = f c) ->
  keeps f (index_server_genre names g).
Proof.
  intros Hl Hn. unfold index_server_genre.
  repeat first [keeps_step | apply keeps_modify; intros ?; (apply Hl || apply Hn)].
Qed.

Lemma ensure_genre_cache_keeps_albums_in_genre : keeps albums_in_genre ensure_genre_cache.
Proof.
  unfold ensure_genre_cache. keeps_tac; by apply index_server_genre_keeps.
Qed.

Lemma ensure_genre_cache_keeps_album_details : keeps album_details ensure_genre_cache.
Proof.
  unfold ensure_genre_cache. keeps_tac; by apply index_server_genre_keeps.
Qed.

Lemma ensure_genre_cache_keeps_artist_details : keeps artist_details ensure_genre_cache.
Proof.
  unfold ensure_genre_cache. keeps_tac; by apply index_server_genre_keeps.
Qed.

(** *** The genre index, once loaded, is not loaded again *)

Lemma ensure_genre_cache_hit c :
  is_Some (display_genres c) -> ensure_genre_cache c = (Ok tt, c).
Proof.
  intros [v Hv]. unfold ensure_genre_cache, bind, get. by rewrite Hv.
Qed.

Lemma ensure_genre_cache_Ok c c1 :
  ensure_genre_cache c = (Ok tt, c1) -> is_Some (display_genres c1).
Proof.
  unfold ensure_genre_cache. intros Hrun. minv; simpl; eauto.
Qed.

Lemma keeps_run {A B} (f : Cache -> B) (m : M A) c r c' :
  keeps f m -> m c = (r, c') -> f c' = f c.
Proof. intros Hk Hrun. specialize (Hk c). by rewrite Hrun in Hk. Qed.

Lemma albums_in_genre_item_hit c g l :
  albums_in_genre c !! g = Some l -> albums_in_genre_item g c = (Ok l, c).
Proof. intros Hl. unfold albums_in_genre_item, bind, get. by rewrite Hl. Qed.

(** *** Second calls *)

Lemma ensure_genre_contents_cache_hit c g l :
  is_Some (display_genres c) -> albums_in_genre c !! g = Some l ->
  ensure_genre_contents_cache g c = (Ok (Some l), c).
Proof.
  intros Hd Hl. unfold ensure_genre_contents_cache, bind at 1.
  rewrite (ensure_genre_cache_hit _ Hd). unfold bind at 1, get. rewrite Hl.
  unfold bind. by rewrite (albums_in_genre_item_hit _ _ _ Hl).
Qed.

Lemma ensure_genre_contents_cache_unknown c g links :
  is_Some (display_genres c) -> albums_in_genre c !! g = None ->
  genre_links c = Some links -> links !! g = None ->
  ensure_genre_contents_cache g c = (Ok None, c).
Proof.
  intros Hd Hl Hgl Hg. unfold ensure_genre_contents_cache, bind at 1.
  rewrite (ensure_genre_cache_hit _ Hd). unfold bind at 1, get. rewrite Hl.
  unfold bind, or_raise. rewrite Hgl. simpl. by rewrite Hg.
Qed.

Lemma ensure_genre_contents_cache_Ok g c r c1 :
  ensure_genre_contents_cache g c = (Ok r, c1) ->
  is_Some (display_genres c1) /\
  ((exists l, r = Some l /\ albums_in_genre c1 !! g = Some l) \/
   (r = None /\ albums_in_genre c1 !! g = None /\
    exists links, genre_links c1 = Some links /\ links !! g = None)).
Proof.
  unfold ensure_genre_contents_cache. intros Hrun.
  apply bind_Ok in Hrun as ([] & c0 & Hidx & Hrun).
  apply ensure_genre_cache_Ok in Hidx.
  apply bind_Ok in Hrun as (? & ? & [-> ->]%get_Ok & Hrun).
  destruct (albums_in_genre c0 !! g) as [l0|] eqn:Hl0.
  - rewrite bind_Ok in Hrun. destruct Hrun as (l & c2 & Hitem & [<- ->]%ret_Ok).
    rewrite (albums_in_genre_item_hit _ _ _ Hl0) in Hitem.
    injection Hitem as <- <-. eauto.
  - apply bind_Ok in Hrun as (links & ? & [Hgl ->]%or_raise_Ok & Hrun).
    destruct (links !! g) as [server_links|] eqn:Hg.
    + apply bind_Ok in Hrun as (d & c2 & Hloop & Hrun).
      apply bind_Ok in Hrun as ([] & c3 & ->%modify_Ok & Hrun).
      apply bind_Ok in Hrun as (l & c4 & Hitem & [<- ->]%ret_Ok).
      rewrite (albums_in_genre_item_hit _ _ (sort_by get_album_sort_order (map snd d)))
        in Hitem by (simpl; apply lookup_insert_eq).
      injection Hitem as <- <-. split.
      * simpl. erewrite (keeps_run display_genres); [done| |exact Hloop].
        apply keeps_foldM. intros. apply fetch_genre_link_keeps_display_genres.
      * left. eexists. split; [done|]. simpl. apply lookup_insert_eq.
    + apply ret_Ok in Hrun as [<- <-]. eauto 10.
Qed.

Lemma ensure_album_cache_hit c album_id a :
  is_Some (display_genres c) -> album_details c !! album_id = Some a ->
  ensure_album_cache album_id c = (Ok a, c).
Proof.
  intros Hd Ha. unfold ensure_album_cache, bind at 1.
  rewrite (ensure_genre_cache_hit _ Hd). unfold bind, get, ret, or_raise.
  rewrite Ha. simpl. by rewrite Ha.
Qed.

Lemma ensure_album_cache_Ok album_id c a c1 :
  ensure_album_cache album_id c = (Ok a, c1) ->
  is_Some (display_genres c1) /\ album_details c1 !! album_id = Some a.
Proof.
  unfold ensure_album_cache. intros Hrun.
  apply bind_Ok in Hrun as ([] & c0 & Hidx & Hrun).
  apply ensure_genre_cache_Ok in Hidx.
  apply bind_Ok in Hrun as (? & ? & [-> ->]%get_Ok & Hrun).
  apply bind_Ok in Hrun as ([] & c2 & Hfill & Hrun).
  apply bind_Ok in Hrun as (? & ? & [-> ->]%get_Ok & [Ha ->]%or_raise_Ok).
  split; [|done].
  destruct (album_details c0 !! album_id).
  - by apply ret_Ok in Hfill as [_ <-].
  - erewrite (keeps_run display_genres); [done| |exact Hfill]. keeps_tac.
Qed.

Lemma ensure_artist_cache_hit c artist a :
  is_Some (display_genres c) -> artist_details c !! str_lower artist = Some a ->
  ensure_artist_cache artist c = (Ok a, c).
Proof.
  intros Hd Ha. unfold ensure_artist_cache, bind at 1.
  rewrite (ensure_genre_cache_hit _ Hd). unfold bind, get, ret, or_raise.
  rewrite Ha. simpl. by rewrite Ha.
Qed.

Lemma ensure_artist_cache_Ok artist c a c1 :
  ensure_artist_cache artist c = (Ok a, c1) ->
  is_Some (display_genres c1) /\ artist_details c1 !! str_lower artist = Some a.
Proof.
  unfold ensure_artist_cache. intros Hrun.
  apply bind_Ok in Hrun as ([] & c0 & Hidx & Hrun).
  apply ensure_genre_cache_Ok in Hidx.
  apply bind_Ok in Hrun as (? & ? & [-> ->]%get_Ok & Hrun).
  apply bind_Ok in Hrun as ([] & c2 & Hfill & Hrun).
  apply bind_Ok in Hrun as (? & ? & [-> ->]%get_Ok & [Ha ->]%or_raise_Ok).
  split; [|done].
  destruct (artist_details c0 !! str_lower artist).
  - by apply ret_Ok in Hfill as [_ <-].
  - erewrite (keeps_run display_genres); [done| |exact Hfill].
    pose proof add_artist_keeps_display_genres. keeps_tac.
Qed.

End Frames.

#[export] Hint Resolve add_album_keeps_display_genres add_album_keeps_genre_links
  add_album_keeps_albums_in_genre add_album_keeps_artist_details
  add_album_keeps_requests_made
  add_artist_keeps_display_genres add_artist_keeps_genre_links
  add_artist_keeps_albums_in_genre add_artist_keeps_requests_made : keeps.

Lemma returned_run `{Host} {A} (m : M A) c :
  returned (m c) = true -> exists a c1, m c = (Ok a, c1).
Proof.
  unfold returned. destruct (m c) as [[a|e] c1]; simpl; [eauto|done].
Qed.

(** ** States of runs *)

Section Reachable.
Context `{Host}.

Lemma bind_snd {A B} (m : M A) (f : A -> M B) c :
  (bind m f c).2 =
  match m c with
  | (Ok a, c1) => (f a c1).2
  | (Raise _, c1) => c1
  end.
Proof. unfold bind. by destruct (m c) as [[a|e] c1]. Qed.

Lemma returned_unit (m : M unit) c :
  returned (m c) = true -> m c = (Ok tt, (m c).2).
Proof.
  unfold returned. by destruct (m c) as [[[]|e] c1].
Qed.

End Reachable.

Lemma demo_indexed_run :
  ensure_genre_cache (H:=demo_host) init = (Ok tt, demo_indexed).
Proof.
  apply (returned_unit (H:=demo_host) ensure_genre_cache init).
  vm_compute. reflexivity.
Qed.

(** ** Upstream failures of the single-entity lookups *)

Section Failures.
Context `{Host}.

Lemma raises_in_ret {A} P (a : A) : raises_in P (ret a).
Proof. by intros c e c' [=]. Qed.

Lemma raises_in_get P : raises_in P get.
Proof. by intros c e c' [=]. Qed.

Lemma raises_in_modify P f : raises_in P (modify f).
Proof. by intros c e c' [=]. Qed.

Lemma raises_in_raise {A} (P : exn -> Prop) e : P e -> raises_in P (raise (A:=A) e).
Proof. by intros HP c e' c' [= <- _]. Qed.

Lemma raises_in_or_raise {A} (P : exn -> Prop) e (o : option A) :
  P e -> raises_in P (or_raise e o).
Proof. intros HP. destruct o; [apply raises_in_ret|by apply raises_in_raise]. Qed.

Lemma raises_in_bind {A B} P (m : M A) (f : A -> M B) :
  raises_in P m -> (forall a, raises_in P (f a)) -> raises_in P (bind m f).
Proof.
  intros Hm Hf c e c' [Hr|(a & c1 & _ & Hr)]%bind_Raise; [by eapply Hm|by eapply Hf].
Qed.

Lemma raises_in_foldM {A B} P (f : B -> A -> M B) b l :
  (forall b x, raises_in P (f b x)) -> raises_in P (foldM f b l).
Proof.
  intros Hf. revert b. induction l as [|x l IH]; intros b; simpl.
  - apply raises_in_ret.
  - apply raises_in_bind; [apply Hf|]. intros b'. apply IH.
Qed.

End Failures.

Ltac raises_step :=
  lazymatch goal with
  | |- raises_in _ (bind _ _) => apply raises_in_bind; [|intros ?]
  | |- raises_in _ (ret _) => apply raises_in_ret
  | |- raises_in _ get => apply raises_in_get
  | |- raises_in _ (modify _) => apply raises_in_modify
  | |- raises_in _ (raise _) => apply raises_in_raise; simpl; tauto
  | |- raises_in _ (or_raise _ _) => apply raises_in_or_raise; simpl; tauto
  | |- raises_in _ (foldM _ _ _) => apply raises_in_foldM; intros ? ?
  | |- raises_in _ (match ?x with _ => _ end) => destruct x
  end.

Section SingleEntity.
Context `{Host}.

Lemma add_album_raises j : raises_in data_fault (add_album_from_json j).
Proof.
  unfold add_album_from_json, genre_name_of, data_fault. repeat raises_step.
Qed.

Lemma artist_groups_raises m : raises_in data_fault (artist_groups m).
Proof.
  unfold artist_groups, normalize_into.
  repeat first [raises_step | apply add_album_raises].
Qed.

Lemma add_artist_raises m :
  raises_in (fun e => e = UnboundLocalError \/ data_fault e) (add_artist_from_json m).
Proof.
  unfold add_artist_from_json. apply raises_in_bind.
  - intros c e c' Hr. right. by eapply artist_groups_raises.
  - intros locals. repeat raises_step.
Qed.

Lemma add_artist_raise_keeps m c e c' :
  add_artist_from_json m c = (Raise e, c') -> artist_details c' = artist_details c.
Proof.
  unfold add_artist_from_json.
  intros [Hr|(locals & c1 & Hg & Hr)]%bind_Raise.
  - apply (keeps_run artist_details _ _ _ _ (artist_groups_keeps_artist_details m) Hr).
  - apply bind_Raise in Hr as [Hr|(name & c2 & _ & [=])].
    rewrite <- (keeps_run artist_details _ _ _ _
                  (artist_groups_keeps_artist_details m) Hg).
    destruct (locals.1); simpl in Hr; unfold ret, raise in Hr; congruence.
Qed.

(** After the loops, [artist_name] is the key of the last group. *)
Lemma artist_groups_last_aux (m : list (pystr * list AlbumJson.t))
    (acc : option pystr * list Album.t) c o l c1 :
  foldM (fun acc group =>
           bind (normalize_into (snd acc) (snd group))
                (fun albums => ret (Some (fst group), albums)))
        acc m c = (Ok (o, l), c1) ->
  o = match last (map fst m) with Some k => Some k | None => fst acc end.
Proof.
  revert acc c. induction m as [|group m IH]; intros acc c; simpl.
  - by intros [-> _]%ret_Ok.
  - intros (acc' & c' & Hstep & Hrest)%bind_Ok.
    apply IH in Hrest.
    apply bind_Ok in Hstep as (albums & c2 & _ & [<- _]%ret_Ok).
    simpl in Hrest. rewrite Hrest, last_cons.
    by destruct (last (map fst m)).
Qed.

Lemma artist_groups_last m c o l c1 :
  artist_groups m c = (Ok (o, l), c1) -> o = last (map fst m).
Proof.
  intros Hg. apply artist_groups_last_aux in Hg as ->. simpl.
  by destruct (last (map fst m)).
Qed.

End SingleEntity.

Section SingleEntityCalls.
Context `{Host}.

Lemma requests_get_run url c resp :
  http_get (length (requests_made c)) url = Some resp ->
  requests_get url c = (Ok resp, requested url c).
Proof. intros Hget. unfold requests_get. by rewrite Hget. Qed.

Lemma ensure_album_cache_miss album_id c c1 resp :
  ensure_genre_cache c = (Ok tt, c1) ->
  album_details c !! album_id = None ->
  http_get (length (requests_made c1)) (album_url album_id) = Some resp ->
  ensure_album_cache album_id c =
  (if negb (status_code resp =? 200) then raise (HTTPAbort 500)
   else
     bind (bind match json resp with
                | AlbumDetailJson j => ret j
                | _ => raise TypeError
                end
                (fun album_json => bind (add_album_from_json album_json)
                                        (fun _ => ret tt)))
          (fun _ => bind get (fun c =>
                      or_raise KeyError (album_details c !! album_id))))
    (requested (album_url album_id) c1).
Proof.
  intros Hidx Hmiss Hget. unfold ensure_album_cache, bind at 1. rewrite Hidx.
  unfold bind at 1, get.
  rewrite <- (keeps_run album_details _ _ _ _
                ensure_genre_cache_keeps_album_details Hidx) in Hmiss.
  rewrite Hmiss. unfold bind at 1. unfold bind at 1.
  rewrite (requests_get_run _ _ _ Hget).
  destruct (negb (status_code resp =? 200)); [done|].
  unfold bind at 3. done.
Qed.

Lemma ensure_artist_cache_miss artist c c1 resp :
  ensure_genre_cache c = (Ok tt, c1) ->
  artist_details c !! str_lower artist = None ->
  http_get (length (requests_made c1)) (artist_url artist) = Some resp ->
  ensure_artist_cache artist c =
  (if negb (status_code resp =? 200) then raise (HTTPAbort 404)
   else
     bind (bind match json resp with
                | ArtistJson j => ret j
                | _ => raise TypeError
                end
                add_artist_from_json)
          (fun _ => bind get (fun c =>
                      or_raise KeyError (artist_details c !! str_lower artist))))
    (requested (artist_url artist) c1).
Proof.
  intros Hidx Hmiss Hget. unfold ensure_artist_cache, bind at 1. rewrite Hidx.
  unfold bind at 1, get.
  rewrite <- (keeps_run artist_details _ _ _ _
                ensure_genre_cache_keeps_artist_details Hidx) in Hmiss.
  rewrite Hmiss. unfold bind at 1. unfold bind at 1.
  rewrite (requests_get_run _ _ _ Hget).
  destruct (negb (status_code resp =? 200)); [done|].
  unfold bind at 3. done.
Qed.

End SingleEntityCalls.

(** C6 (as amended). When the album is not cached and the server answers
    the album request with a status other than 200, [ensure_album_cache]
    aborts the request with status 500, a server error and not the 404 of
    "not found"; nothing is cached for the album. *)
Theorem album_fetch_failure_aborts_500 `{Host} (album_id : pystr)
    (c c1 : Cache) (resp : response) :
  ensure_genre_cache c = (Ok tt, c1) ->
  album_details c !! album_id = None ->
  http_get (length (requests_made c1)) (album_url album_id) = Some resp ->
  status_code resp <> 200 ->
  ensure_album_cache album_id c
    = (Raise (HTTPAbort 500), requested (album_url album_id) c1) /\
  HTTPAbort 500 <> not_found /\
  album_details (requested (album_url album_id) c1) !! album_id = None.
Proof.
  intros Hidx Hmiss Hget Hstatus.
  rewrite (ensure_album_cache_miss _ _ _ _ Hidx Hmiss Hget).
  apply Z.eqb_neq in Hstatus. rewrite Hstatus. simpl.
  split; [done|]. split; [done|].
  by rewrite (keeps_run album_details _ _ _ _
                ensure_genre_cache_keeps_album_details Hidx).
Qed.

Lemma album_fetch_failure_aborts_500_witness :
  let url := album_url (H:=demo_host) (py "99") in
  ensure_album_cache (H:=demo_host) (py "99") init
    = (Raise (HTTPAbort 500), requested url demo_indexed) /\
  HTTPAbort 500 <> not_found /\
  album_details (requested url demo_indexed) !! py "99" = None.
Proof.
  apply (album_fetch_failure_aborts_500 (py "99") init demo_indexed
           (mkResponse 404 (GenresJson []))).
  - apply demo_indexed_run.
  - apply lookup_empty.
  - vm_compute. reflexivity.
  - simpl. lia.
Defined.

(** C6 (as stated) fails: the demo server answers 404 for album 99, which
    is not cached, and the call raises [abort(500)], not "not found". *)
Lemma album_not_found_is_server_error :
  let url := py "http://piju:5000/albums/99?tracks=all" in
  let outcome := (ensure_album_cache (H:=demo_host) (py "99") init).1 in
  option_map status_code (demo_http_get 1 url) = Some 404 /\
  album_details (H:=demo_host) init !! py "99" = None /\
  outcome = Raise (HTTPAbort 500) /\
  outcome <> Raise not_found.
Proof.
  intros url outcome.
  assert (outcome = Raise (HTTPAbort 500)) as -> by (vm_compute; reflexivity).
  split; [vm_compute; reflexivity|]. split; [apply lookup_empty|].
  split; [reflexivity|discriminate].
Qed.

(** C10. When the artist is not cached and the server answers the artist
    request with status 200 and a mapping that is empty, or has no group
    key equal to the queried name up to case, [ensure_artist_cache]
    raises: it returns no artist and does not abort with 404. The
    exception is [UnboundLocalError] for the empty mapping (raised by
    [add_artist_from_json], nothing is stored), and otherwise [KeyError]
    from the final lookup unless normalising an album raised before; in
    every case the cache has no entry under the lower-cased query name. *)
Theorem artist_lookup_raises `{Host} (artist : pystr) (c c1 : Cache)
    (resp : response) (artist_json : list (pystr * list AlbumJson.t)) :
  ensure_genre_cache c = (Ok tt, c1) ->
  artist_details c !! str_lower artist = None ->
  http_get (length (requests_made c1)) (artist_url artist) = Some resp ->
  status_code resp = 200 ->
  json resp = ArtistJson artist_json ->
  (artist_json = [] \/
   forall k, k ∈ map fst artist_json -> str_lower k <> str_lower artist) ->
  exists e c',
    ensure_artist_cache artist c = (Raise e, c') /\
    e <> not_found /\
    (artist_json = [] -> e = UnboundLocalError) /\
    (returned (add_artist_from_json artist_json (requested (artist_url artist) c1))
       = true -> e = KeyError) /\
    artist_details c' !! str_lower artist = None.
Proof.
  intros Hidx Hmiss Hget Hstatus Hjson Hkeys.
  rewrite (ensure_artist_cache_miss _ _ _ _ Hidx Hmiss Hget).
  rewrite Hstatus, Hjson. simpl. unfold bind at 1. unfold bind at 1. simpl.
  set (c2 := requested (artist_url artist) c1).
  assert (artist_details c2 !! str_lower artist = None) as Hmiss2.
  { simpl. by rewrite (keeps_run artist_details _ _ _ _
                         ensure_genre_cache_keeps_artist_details Hidx). }
  unfold returned.
  destruct (add_artist_from_json artist_json c2) as [[[]|e] c3] eqn:Hadd; simpl.
  - assert (artist_details c3 !! str_lower artist = None) as Hmiss3.
    { unfold add_artist_from_json in Hadd.
      apply bind_Ok in Hadd as ([o l] & c4 & Hgroups & Hadd).
      apply bind_Ok in Hadd as (name & ? & [Hname ->]%or_raise_Ok & ->%modify_Ok).
      simpl in *. subst o.
      apply artist_groups_last in Hgroups as Hlast.
      destruct Hkeys as [->|Hkeys]; [done|].
      rewrite lookup_insert_ne.
      - by rewrite (keeps_run artist_details _ _ _ _
                      (artist_groups_keeps_artist_details _) Hgroups).
      - apply Hkeys. symmetry in Hlast. by apply last_Some_elem_of in Hlast. }
    unfold bind, get, or_raise. rewrite Hmiss3. simpl.
    exists KeyError, c3. repeat split; try done.
    intros ->. by vm_compute in Hadd.
  - exists e, c3. split; [done|].
    pose proof (add_artist_raises _ _ _ _ Hadd) as He.
    split; [intros ->; destruct He as [?|[?|?]]; discriminate|].
    split; [|split; [done|]].
    + intros ->. by injection Hadd as <- _.
    + by rewrite (add_artist_raise_keeps _ _ _ _ Hadd).
Qed.

Lemma artist_lookup_raises_witness :
  (exists e, (ensure_artist_cache (H:=demo_host) (py "prince") init).1 = Raise e /\
             e <> not_found) /\
  (exists e, (ensure_artist_cache (H:=demo_host) (py "Nobody") init).1 = Raise e /\
             e = UnboundLocalError).
Proof.
  split.
  - destruct (artist_lookup_raises (H:=demo_host) (py "prince") init demo_indexed
                (mkResponse 200 (ArtistJson [(py "Prince & Co", [])]))
                [(py "Prince & Co", [])])
      as (e & c' & Hrun & He & _).
    + apply demo_indexed_run.
    + apply lookup_empty.
    + vm_compute. reflexivity.
    + reflexivity.
    + reflexivity.
    + right. intros k ->%list_elem_of_singleton. vm_compute. discriminate.
    + exists e. by rewrite Hrun.
  - destruct (artist_lookup_raises (H:=demo_host) (py "Nobody") init demo_indexed
                (mkResponse 200 (ArtistJson [])) [])
      as (e & c' & Hrun & _ & He & _).
    + apply demo_indexed_run.
    + apply lookup_empty.
    + vm_compute. reflexivity.
    + reflexivity.
    + reflexivity.
    + by left.
    + exists e. rewrite Hrun. split; [done|]. by apply He.
Defined.

(** ** Normalising an artist *)

Section ArtistNormalisation.
Context `{Host}.

Lemma foldM_app {A B} (f : B -> A -> M B) b l1 l2 c :
  foldM f b (l1 ++ l2) c = bind (foldM f b l1) (fun b' => foldM f b' l2) c.
Proof.
  revert b c. induction l1 as [|x l1 IH]; intros b c; simpl.
  - done.
  - unfold bind at 1 2 3.
    destruct (f b x c) as [[b'|e] c']; [|done]. by rewrite IH.
Qed.

Lemma artist_groups_concat_aux (m : list (pystr * list AlbumJson.t))
    (acc : option pystr * list Album.t) c o l c1 :
  foldM (fun acc group =>
           bind (normalize_into (snd acc) (snd group))
                (fun albums => ret (Some (fst group), albums)))
        acc m c = (Ok (o, l), c1) ->
  normalize_into (snd acc) (concat (map snd m)) c = (Ok l, c1).
Proof.
  revert acc c. induction m as [|group m IH]; intros acc c; simpl.
  - by intros [-> ->]%ret_Ok.
  - intros (acc' & c' & Hstep & Hrest)%bind_Ok.
    apply IH in Hrest.
    apply bind_Ok in Hstep as (albums & c2 & Hgroup & [<- <-]%ret_Ok).
    unfold normalize_into in *. rewrite foldM_app. apply bind_Ok. eauto.
Qed.

(** The loops of [add_artist_from_json] normalise the albums of all groups,
    in order, into one list. *)
Lemma artist_groups_concat m c o l c1 :
  artist_groups m c = (Ok (o, l), c1) ->
  normalize_into [] (concat (map snd m)) c = (Ok l, c1).
Proof. apply artist_groups_concat_aux. Qed.

Lemma artist_key_lacking (a b : Album.t) (y : Z) :
  key_leb (artist_album_sort_key a) (artist_album_sort_key b) = true ->
  Album.year a = None -> Album.year b = Some y -> y = 0 \/ 9999 <= y.
Proof.
  unfold key_leb, key_ltb, Z_key, artist_album_sort_key.
  intros Hle Ha Hb. rewrite Ha, Hb in Hle.
  apply negb_true_iff, Z.ltb_ge in Hle. case_decide; lia.
Qed.

End ArtistNormalisation.

(** C8. When [add_artist_from_json] returns on a grouped payload, the
    albums of all groups have been normalised in order into one list
    [normalized]; the artist stored has the key of the last group as its
    name and, as its albums, [normalized] in ascending order of year, where
    an album without a year counts as year 9999 and so comes after every
    album of an earlier year (equal years keep their order); the artist is
    stored in [artist_details] under the lower-cased name. A year of 0 is
    no year for Python's truth test. *)
Theorem add_artist_from_json_spec `{Host}
    (artist_json : list (pystr * list AlbumJson.t)) (c c' : Cache) :
  add_artist_from_json artist_json c = (Ok tt, c') ->
  exists (artist_name : pystr) (normalized : list Album.t) (c1 : Cache),
    let albums := sort_by artist_album_sort_key normalized in
    let artist := Artist.mk artist_name albums in
    last (map fst artist_json) = Some artist_name /\
    normalize_into [] (concat (map snd artist_json)) c = (Ok normalized, c1) /\
    c' = set_artist_details (<[str_lower artist_name := artist]> (artist_details c1)) c1 /\
    artist_details c' !! str_lower artist_name = Some artist /\
    albums ≡ₚ normalized /\
    sorted_by artist_album_sort_key albums /\
    (forall k, with_key artist_album_sort_key k albums
               = with_key artist_album_sort_key k normalized) /\
    (forall i j a b, albums !! i = Some a -> albums !! j = Some b -> (i < j)%nat ->
       (forall y z, Album.year a = Some y -> Album.year b = Some z ->
                    y <> 0 -> z <> 0 -> y <= z) /\
       (forall y, Album.year a = None -> Album.year b = Some y ->
                  y = 0 \/ 9999 <= y)).
Proof.
  unfold add_artist_from_json. intros Hrun.
  apply bind_Ok in Hrun as ([o normalized] & c1 & Hgroups & Hrun).
  apply bind_Ok in Hrun as (name & ? & [Hname ->]%or_raise_Ok & ->%modify_Ok).
  simpl in *. subst o.
  exists name, normalized, c1. split; [|split; [|split; [|split]]].
  - symmetry. by apply artist_groups_last in Hgroups.
  - by apply artist_groups_concat in Hgroups.
  - done.
  - simpl. apply lookup_insert_eq.
  - split; [apply sort_by_perm|]. split; [apply sort_by_sorted|].
    split; [intros k; apply sort_by_stable|].
    intros i j a b Ha Hb Hij.
    pose proof (sorted_by_lookup _ _ _ _ _ _ (sort_by_sorted _ normalized) Ha Hb Hij)
      as Hle.
    split; [|intros y; by apply artist_key_lacking].
    intros y z Hy Hz Hy0 Hz0. revert Hle.
    unfold key_leb, key_ltb, Z_key, artist_album_sort_key. rewrite Hy, Hz.
    rewrite !decide_False by done. intros Hle%negb_true_iff%Z.ltb_ge. lia.
Qed.

Lemma add_artist_from_json_spec_witness :
  let artist_json :=
    [(py "Bob", [album_A_retitled]); (py "bob", [album_B])] in
  let c' := (add_artist_from_json (H:=demo_host) artist_json demo_indexed).2 in
  exists artist_name albums,
    last (map fst artist_json) = Some artist_name /\
    artist_details c' !! str_lower (H:=demo_host) artist_name
      = Some (Artist.mk artist_name albums) /\
    sorted_by artist_album_sort_key albums.
Proof.
  intros artist_json c'.
  destruct (add_artist_from_json_spec artist_json demo_indexed c')
    as (name & normalized & c1 & Hlast & _ & _ & Hstored & _ & Hsorted & _).
  - apply (returned_unit (add_artist_from_json artist_json) demo_indexed).
    vm_compute. reflexivity.
  - exists name, (sort_by artist_album_sort_key normalized). auto.
Defined.

(** ** Normalising an album *)

Lemma pair_key_leb_Z (d n d' n' : Z) :
  key_leb (d, n) (d', n') = true <-> d < d' \/ (d = d' /\ n <= n').
Proof.
  unfold key_leb, key_ltb, pair_key, key_ltb, Z_key. simpl.
  rewrite negb_true_iff. case_decide; rewrite Z.ltb_ge; lia.
Qed.

Section AlbumNormalisation.
Context `{Host}.

Lemma add_album_from_json_Ok j c a c' :
  add_album_from_json j c = (Ok a, c') ->
  exists album_id genre_name ts,
    id_from_link (AlbumJson.link j) = Some album_id /\
    mapM track_from_json (AlbumJson.tracks j) = Some ts /\
    a = Album.mk album_id (AlbumJson.artist j) (AlbumJson.title j)
          (AlbumJson.releasedate j) (AlbumJson.artwork_link j) genre_name
          (AlbumJson.numberdisks j) (sort_by track_sort_key ts)
          (anchor_of (AlbumJson.artist j)) /\
    c' = set_album_details (<[album_id := a]> (album_details c)) c.
Proof.
  unfold add_album_from_json. intros Hrun.
  apply bind_Ok in Hrun as (album_id & ? & [Hid ->]%or_raise_Ok & Hrun).
  apply bind_Ok in Hrun as (genre_name & c1 & Hgenre & Hrun).
  assert (c1 = c) as ->.
  { unfold genre_name_of in Hgenre. by minv. }
  apply bind_Ok in Hrun as (ts & ? & [Hts ->]%or_raise_Ok & Hrun).
  apply bind_Ok in Hrun as ([] & ? & ->%modify_Ok & [<- <-]%ret_Ok).
  eauto 10.
Qed.

End AlbumNormalisation.

(** C4. The tracks of a normalised album are the normalised tracks of the
    payload in ascending order of (disk number, track number), a missing
    disk number counting as 9999 and a missing track number as 0; tracks
    of equal key keep the order of the payload. So a track without disk
    number is followed by no track of a disk below 9999, and within one
    disk a track without number is preceded by no track of a positive
    number. The three tracks (1,2), (None,1), (1,1) come out as (1,1),
    (1,2), (None,1). *)
Theorem tracks_sorted `{Host} (album_json : AlbumJson.t) (c c' : Cache)
    (album : Album.t) :
  add_album_from_json album_json c = (Ok album, c') ->
  (exists ts,
     mapM track_from_json (AlbumJson.tracks album_json) = Some ts /\
     Album.tracks album ≡ₚ ts /\
     (forall k, with_key track_sort_key k (Album.tracks album)
                = with_key track_sort_key k ts)) /\
  sorted_by track_sort_key (Album.tracks album) /\
  (forall i j t u,
     Album.tracks album !! i = Some t -> Album.tracks album !! j = Some u ->
     (i < j)%nat ->
     let disk t := default 9999 (Track.disknumber t) in
     let number t := default 0 (Track.tracknumber t) in
     disk t < disk u \/ (disk t = disk u /\ number t <= number u)) /\
  (let track d n := Track.mk (py "7") None d n in
   sort_by track_sort_key
     [track (Some 1) (Some 2); track None (Some 1); track (Some 1) (Some 1)]
   = [track (Some 1) (Some 1); track (Some 1) (Some 2); track None (Some 1)]).
Proof.
  intros (album_id & genre_name & ts & _ & Hts & -> & _)%add_album_from_json_Ok.
  simpl. split; [|split; [|split]].
  - exists ts. split; [done|]. split; [apply sort_by_perm|].
    intros k. apply sort_by_stable.
  - apply sort_by_sorted.
  - intros i j t u Ht Hu Hij.
    pose proof (sorted_by_lookup _ _ _ _ _ _ (sort_by_sorted _ ts) Ht Hu Hij) as Hle.
    unfold track_sort_key in Hle. apply pair_key_leb_Z in Hle.
    destruct (Track.disknumber t), (Track.disknumber u),
      (Track.tracknumber t), (Track.tracknumber u); simpl; lia.
  - reflexivity.
Qed.

Lemma tracks_sorted_witness :
  exists album,
    (add_album_from_json (H:=demo_host) album_A demo_indexed).1 = Ok album /\
    sorted_by track_sort_key (Album.tracks album) /\
    map (fun t => (Track.disknumber t, Track.tracknumber t)) (Album.tracks album)
    = [(Some 1, Some 1); (Some 1, Some 2); (None, Some 1)].
Proof.
  destruct (returned_run (add_album_from_json (H:=demo_host) album_A) demo_indexed)
    as (album & c' & Hrun); [vm_compute; reflexivity|].
  exists album. rewrite Hrun. split; [done|].
  split; [exact (proj1 (proj2 (tracks_sorted album_A demo_indexed c' album Hrun)))|].
  assert (match (add_album_from_json (H:=demo_host) album_A demo_indexed).1 with
          | Ok a => map (fun t => (Track.disknumber t, Track.tracknumber t))
                      (Album.tracks a)
          | Raise _ => []
          end = [(Some 1, Some 1); (Some 1, Some 2); (None, Some 1)]) as Hpairs
    by (vm_compute; reflexivity).
  by rewrite Hrun in Hpairs.
Defined.

(** *** The anchor *)

Lemma str_in_single (x : N) (s : pystr) : str_in [x] s = existsb (N.eqb x) s.
Proof.
  induction s as [|y s IH]; simpl; [done|].
  by rewrite IH, andb_true_r.
Qed.

Lemma str_in_ascii_uppercase (x : N) :
  str_in [x] ascii_uppercase = is_upper_letter x.
Proof.
  rewrite str_in_single. apply eq_true_iff_eq.
  assert (ascii_uppercase = map N.of_nat (seq 65 26)) as -> by reflexivity.
  rewrite existsb_exists. unfold is_upper_letter.
  rewrite andb_true_iff, !N.leb_le. split.
  - intros (y & (n & <- & Hn%in_seq)%in_map_iff & ->%N.eqb_eq). lia.
  - intros Hx. exists x. split; [|apply N.eqb_refl].
    apply in_map_iff. exists (N.to_nat x). split; [lia|]. apply in_seq. lia.
Qed.

Lemma anchor_of_single `{Host} (ch : N) (rest : pystr) (x : N) :
  unidecode (str_upper [ch]) = [x] ->
  anchor_of (Some (ch :: rest)) = if is_upper_letter x then [x] else py "num".
Proof.
  intros Hx. unfold anchor_of. rewrite Hx, str_in_ascii_uppercase.
  by destruct (is_upper_letter x).
Qed.

Lemma anchor_of_ascii `{Host} (ch : N) (rest : pystr) :
  is_ascii ch = true ->
  unidecode (str_upper [ch]) = [ascii_upper ch].
Proof.
  intros Hch. unfold str_upper. simpl. rewrite Hch. simpl.
  unfold unidecode. simpl.
  assert (is_ascii (ascii_upper ch) = true) as ->; [|done].
  unfold is_ascii, ascii_upper in *. apply N.ltb_lt in Hch.
  apply N.ltb_lt. destruct ((97 <=? ch) && (ch <=? 122))%N; lia.
Qed.

(** C5 (as amended). The anchor of a normalised album comes from the first
    character of the artist name, upper-cased and then transliterated. For
    a missing or empty artist the letter [U] stands in and the anchor is
    "U". When the transliteration is one character, the anchor is that
    character if it is one of the letters A to Z and "num" otherwise; for
    an ASCII first character this is its upper-case letter, or "num" for a
    digit or symbol. "3 Doors Down" gives "num"; "Etienne" with an acute
    E (U+00C9, which [str.upper] keeps and [unidecode] maps to E) gives
    "E". *)
Theorem anchor_derivation `{Host} (album_json : AlbumJson.t) (c c' : Cache)
    (album : Album.t) :
  add_album_from_json album_json c = (Ok album, c') ->
  let artist := AlbumJson.artist album_json in
  (artist = None \/ artist = Some [] -> Album.anchor album = py "U") /\
  (forall ch rest x,
     artist = Some (ch :: rest) -> unidecode (str_upper [ch]) = [x] ->
     Album.anchor album = if is_upper_letter x then [x] else py "num") /\
  (forall ch rest,
     artist = Some (ch :: rest) -> is_ascii ch = true ->
     Album.anchor album
     = if is_upper_letter (ascii_upper ch) then [ascii_upper ch] else py "num") /\
  (artist = Some (py "3 Doors Down") -> Album.anchor album = py "num") /\
  (artist = Some (201%N :: py "tienne") ->
   host_upper [201%N] = [201%N] -> host_unidecode [201%N] = py "E" ->
   Album.anchor album = py "E").
Proof.
  intros (album_id & genre_name & ts & _ & _ & -> & _)%add_album_from_json_Ok.
  simpl. split; [|split; [|split; [|split]]].
  - by intros [->| ->].
  - intros ch rest x -> Hx. by apply anchor_of_single.
  - intros ch rest -> Hch. apply anchor_of_single. by apply anchor_of_ascii.
  - by intros ->.
  - intros -> Hupper Hunidecode.
    rewrite (anchor_of_single _ _ 69%N); [done|].
    unfold str_upper, unidecode. simpl. rewrite Hupper. simpl. done.
Qed.

Lemma anchor_derivation_witness :
  let etienne := demo_album "/albums/20" "/genres/1" (Some (201%N :: py "tienne")) None None [] in
  exists album,
    (add_album_from_json (H:=demo_host) etienne demo_indexed).1 = Ok album /\
    Album.anchor album = py "E".
Proof.
  intros etienne.
  destruct (returned_run (add_album_from_json (H:=demo_host) etienne) demo_indexed)
    as (album & c' & Hrun); [vm_compute; reflexivity|].
  exists album. rewrite Hrun. split; [done|].
  apply (anchor_derivation etienne demo_indexed c' album Hrun); reflexivity.
Defined.

(** C5 (as stated) fails for a missing and for an empty artist, whose
    anchor is "U" and not "num". The order of the two steps shows on the
    ordinal indicator U+00AA, which [str.upper] keeps and [unidecode] maps
    to [a]: the anchor is "num", although transliterating first and
    upper-casing then gives the letter A. *)
Lemma missing_artist_anchor_is_U :
  let anchor_for artist :=
    match (add_album_from_json (H:=demo_host)
             (demo_album "/albums/20" "/genres/1" artist None None []) demo_indexed).1 with
    | Ok album => Some (Album.anchor album)
    | Raise _ => None
    end in
  anchor_for None = Some (py "U") /\
  anchor_for (Some []) = Some (py "U") /\
  py "U" <> py "num" /\
  anchor_for (Some [170%N]) = Some (py "num") /\
  str_upper (H:=demo_host) (unidecode (H:=demo_host) [170%N]) = py "A".
Proof.
  intros anchor_for.
  split; [vm_compute; reflexivity|]. split; [vm_compute; reflexivity|].
  split; [discriminate|]. split; vm_compute; reflexivity.
Qed.

(** ** The listing of a genre *)

Lemma dict_set_keys k v d k' :
  k' ∈ map fst (dict_set k v d) <-> k' = k \/ k' ∈ map fst d.
Proof.
  induction d as [|[k0 v0] d IH]; simpl.
  - rewrite list_elem_of_singleton, elem_of_nil. tauto.
  - case_decide as Hk; subst; simpl; rewrite !elem_of_cons; [tauto|].
    rewrite IH. tauto.
Qed.

Lemma dict_set_NoDup k v d :
  NoDup (map fst d) -> NoDup (map fst (dict_set k v d)).
Proof.
  induction d as [|[k0 v0] d IH]; simpl.
  - intros _. apply NoDup_singleton.
  - intros [Hk0 Hd]%NoDup_cons. case_decide as Hk; subst; simpl.
    + by apply NoDup_cons.
    + apply NoDup_cons. split; [|by apply IH].
      rewrite dict_set_keys. intros [?|?]; congruence.
Qed.

Lemma dict_set_elem_of k v d k' v' :
  NoDup (map fst d) ->
  (k', v') ∈ dict_set k v d ->
  (k' = k /\ v' = v) \/ ((k', v') ∈ d /\ k' <> k).
Proof.
  induction d as [|[k0 v0] d IH]; simpl.
  - intros _ [= -> ->]%list_elem_of_singleton. by left.
  - intros [Hk0 Hd]%NoDup_cons. case_decide as Hk; subst.
    + intros [[= -> ->]|Hin]%elem_of_cons; [by left|].
      right. split; [by right|]. intros ->. apply Hk0.
      apply list_elem_of_fmap. by exists (k, v').
    + intros [[= -> ->]|Hin]%elem_of_cons.
      * right. split; [by left|done].
      * destruct (IH Hd Hin) as [?|[? ?]]; [by left|].
        right. split; [by right|done].
Qed.

Section GenreListing.
Context `{Host}.

Lemma foldM_inv {A B} (I : B -> Cache -> Prop) (f : B -> A -> M B) l :
  (forall b x c b' c', f b x c = (Ok b', c') -> I b c -> I b' c') ->
  forall b c b' c', foldM f b l c = (Ok b', c') -> I b c -> I b' c'.
Proof.
  intros Hf. induction l as [|x l IH]; intros b c b' c'; simpl.
  - by intros [-> ->]%ret_Ok.
  - intros (b1 & c1 & Hstep & Hrest)%bind_Ok Hb.
    eapply IH; [exact Hrest|]. by eapply Hf.
Qed.

(** Line 83-84: one album goes into the dict and into [album_details]. *)
Lemma dict_in_step_album j d c a c' :
  add_album_from_json j c = (Ok a, c') -> dict_in_step d c ->
  dict_in_step (dict_set (Album.id a) a d) c'.
Proof.
  intros Hrun [Hnodup Hd].
  apply add_album_from_json_Ok in Hrun
    as (album_id & genre_name & ts & _ & _ & Ha & ->).
  assert (Album.id a = album_id) as Hid by (by rewrite Ha).
  rewrite Hid. split; [by apply dict_set_NoDup|].
  intros k a' Hin.
  apply dict_set_elem_of in Hin as [[-> ->]|[Hin Hne]]; [| |done]; simpl.
  - by rewrite lookup_insert_eq.
  - rewrite lookup_insert_ne by done. by apply Hd.
Qed.

Lemma fetch_genre_link_Ok d link c d' c' :
  fetch_genre_link d link c = (Ok d', c') ->
  exists resp genre_albums,
    http_get (length (requests_made c)) (genre_url link) = Some resp /\
    status_code resp = 200 /\
    json resp = GenreJson genre_albums /\
    foldM (fun albums album_json =>
             bind (add_album_from_json album_json)
                  (fun album => ret (dict_set (Album.id album) album albums)))
          d genre_albums (requested (genre_url link) c) = (Ok d', c').
Proof.
  unfold fetch_genre_link. intros (resp & c1 & Hget & Hrun)%bind_Ok.
  unfold requests_get in Hget.
  destruct (http_get _ _) as [resp'|] eqn:Hresp; [|done].
  injection Hget as -> <-.
  destruct (status_code resp =? 200) eqn:Hstatus; [|by apply raise_Ok in Hrun].
  apply Z.eqb_eq in Hstatus. simpl in Hrun.
  apply bind_Ok in Hrun as (genre_albums & c2 & Hjson & Hrun).
  destruct (json resp) eqn:Hbody; try by apply raise_Ok in Hjson.
  apply ret_Ok in Hjson as [-> <-]. eauto 10.
Qed.

Lemma dict_in_step_link d link c d' c' :
  fetch_genre_link d link c = (Ok d', c') -> dict_in_step d c -> dict_in_step d' c'.
Proof.
  intros (resp & genre_albums & _ & _ & _ & Hloop)%fetch_genre_link_Ok Hd.
  eapply (foldM_inv dict_in_step); [|exact Hloop|exact Hd].
  intros b j c0 b' c0' (a & c1 & Hadd & [<- <-]%ret_Ok)%bind_Ok.
  by eapply dict_in_step_album.
Qed.

Lemma dict_in_step_links d links c d' c' :
  foldM fetch_genre_link d links c = (Ok d', c') ->
  dict_in_step d c -> dict_in_step d' c'.
Proof. apply foldM_inv. intros *. apply dict_in_step_link. Qed.

(** Keys are never dropped from the dict. *)
Lemma dict_keys_album i j d c d' c' :
  bind (add_album_from_json j)
       (fun album => ret (dict_set (Album.id album) album d)) c = (Ok d', c') ->
  i ∈ map fst d -> i ∈ map fst d'.
Proof.
  intros (a & c1 & _ & [<- _]%ret_Ok)%bind_Ok Hi. apply dict_set_keys. by right.
Qed.

Lemma dict_keys_link i d link c d' c' :
  fetch_genre_link d link c = (Ok d', c') -> i ∈ map fst d -> i ∈ map fst d'.
Proof.
  intros (resp & genre_albums & _ & _ & _ & Hloop)%fetch_genre_link_Ok.
  eapply (foldM_inv (fun d _ => i ∈ map fst d)); [|exact Hloop].
  intros *. apply dict_keys_album.
Qed.

(** An album listed by a link that was fetched is in the dict. *)
Lemma dict_has_listed_album i album_json genre_albums d c d' c' :
  foldM (fun albums album_json =>
           bind (add_album_from_json album_json)
                (fun album => ret (dict_set (Album.id album) album albums)))
        d genre_albums c = (Ok d', c') ->
  album_json ∈ genre_albums ->
  id_from_link (AlbumJson.link album_json) = Some i ->
  i ∈ map fst d'.
Proof.
  revert d c. induction genre_albums as [|j js IH]; intros d c; simpl.
  - by intros _ ?%elem_of_nil.
  - intros (d1 & c1 & Hstep & Hrest)%bind_Ok [->|Hin]%elem_of_cons Hid.
    + eapply (foldM_inv (fun d _ => i ∈ map fst d)); [|exact Hrest|].
      { intros *. apply dict_keys_album. }
      apply bind_Ok in Hstep as (a & c2 & Hadd & [<- _]%ret_Ok).
      apply add_album_from_json_Ok in Hadd
        as (album_id & genre_name & ts & Hid' & _ & -> & _).
      simpl. apply dict_set_keys. left. congruence.
    + by eapply IH.
Qed.

Lemma dict_has_listed_link i album_json genre_albums link links d c d' c' :
  foldM fetch_genre_link d links c = (Ok d', c') ->
  link ∈ links ->
  (forall n, http_get n (genre_url link)
             = Some (mkResponse 200 (GenreJson genre_albums))) ->
  album_json ∈ genre_albums ->
  id_from_link (AlbumJson.link album_json) = Some i ->
  i ∈ map fst d'.
Proof.
  intros Hloop Hlink Hget Hin Hid.
  revert d c Hloop. induction links as [|link0 links IH]; intros d c; simpl.
  - by apply elem_of_nil in Hlink.
  - intros (d1 & c1 & Hstep & Hrest)%bind_Ok.
    apply elem_of_cons in Hlink as [<-|Hlink].
    + eapply (foldM_inv (fun d _ => i ∈ map fst d)); [|exact Hrest|].
      { intros *. apply dict_keys_link. }
      apply fetch_genre_link_Ok in Hstep
        as (resp & albums' & Hget' & _ & Hjson & Hloop).
      rewrite Hget in Hget'. injection Hget' as <-. simpl in Hjson.
      injection Hjson as <-. by eapply dict_has_listed_album.
    + by eapply IH.
Qed.

End GenreListing.

Section GenreListingState.
Context `{Host}.

Lemma dict_ids d c : dict_in_step d c -> map Album.id (map snd d) = map fst d.
Proof.
  intros [_ Hd]. induction d as [|[k a] d IH]; simpl; [done|].
  f_equal.
  - apply (Hd k a). by left.
  - apply IH. intros k' a' Hin. apply Hd. by right.
Qed.

Lemma listing_of_dict d c :
  dict_in_step d c ->
  let l := sort_by get_album_sort_order (map snd d) in
  NoDup (map Album.id l) /\ sorted_by get_album_sort_order l /\
  forall a, a ∈ l -> album_details c !! Album.id a = Some a.
Proof.
  intros Hd l. split; [|split].
  - unfold l. rewrite sort_by_perm, (dict_ids _ _ Hd). apply Hd.
  - apply sort_by_sorted.
  - intros a Ha. unfold l in Ha. rewrite sort_by_perm in Ha.
    apply list_elem_of_fmap in Ha as ([k a'] & -> & Hin).
    destruct Hd as [_ Hd]. destruct (Hd k a' Hin) as [<- Hk]. done.
Qed.

Lemma dict_in_step_nil c : dict_in_step [] c.
Proof. split; [constructor|]. by intros k a ?%elem_of_nil. Qed.

(** What a call that returns did. *)
Lemma ensure_genre_contents_cache_cases g c r c' :
  ensure_genre_contents_cache g c = (Ok r, c') ->
  exists c0,
    ensure_genre_cache c = (Ok tt, c0) /\
    ((exists l, albums_in_genre c0 !! g = Some l /\ r = Some l /\ c' = c0) \/
     (albums_in_genre c0 !! g = None /\
      exists links, genre_links c0 = Some links /\
        ((links !! g = None /\ r = None /\ c' = c0) \/
         (exists server_links d c2,
            links !! g = Some server_links /\
            foldM fetch_genre_link [] server_links c0 = (Ok d, c2) /\
            r = Some (sort_by get_album_sort_order (map snd d)) /\
            c' = set_albums_in_genre
                   (<[g := sort_by get_album_sort_order (map snd d)]>
                      (albums_in_genre c2)) c2)))).
Proof.
  unfold ensure_genre_contents_cache. intros Hrun.
  apply bind_Ok in Hrun as ([] & c0 & Hidx & Hrun). exists c0. split; [done|].
  apply bind_Ok in Hrun as (? & ? & [-> ->]%get_Ok & Hrun).
  destruct (albums_in_genre c0 !! g) as [l0|] eqn:Hl0.
  - rewrite bind_Ok in Hrun. destruct Hrun as (l & c2 & Hitem & [<- ->]%ret_Ok).
    rewrite (albums_in_genre_item_hit _ _ _ Hl0) in Hitem.
    injection Hitem as <- <-. left. eauto.
  - right. split; [done|].
    apply bind_Ok in Hrun as (links & ? & [Hgl ->]%or_raise_Ok & Hrun).
    exists links. split; [done|].
    destruct (links !! g) as [server_links|] eqn:Hg.
    + apply bind_Ok in Hrun as (d & c2 & Hloop & Hrun).
      apply bind_Ok in Hrun as ([] & c3 & ->%modify_Ok & Hrun).
      apply bind_Ok in Hrun as (l & c4 & Hitem & [<- ->]%ret_Ok).
      rewrite (albums_in_genre_item_hit _ _ (sort_by get_album_sort_order (map snd d)))
        in Hitem by (simpl; apply lookup_insert_eq).
      injection Hitem as <- <-. right. eauto 10.
    + apply ret_Ok in Hrun as [<- <-]. left. eauto.
Qed.

(** A call that filled the listing of [g]. *)
Lemma ensure_genre_contents_cache_populate g c l c' :
  ensure_genre_contents_cache g c = (Ok (Some l), c') ->
  albums_in_genre c !! g = None ->
  exists c0 links server_links d c2,
    ensure_genre_cache c = (Ok tt, c0) /\
    genre_links c0 = Some links /\
    links !! g = Some server_links /\
    foldM fetch_genre_link [] server_links c0 = (Ok d, c2) /\
    dict_in_step d c2 /\
    l = sort_by get_album_sort_order (map snd d) /\
    c' = set_albums_in_genre (<[g := l]> (albums_in_genre c2)) c2.
Proof.
  intros (c0 & Hidx & Hcases)%ensure_genre_contents_cache_cases Hmiss.
  rewrite <- (keeps_run albums_in_genre _ _ _ _
                ensure_genre_cache_keeps_albums_in_genre Hidx) in Hmiss.
  destruct Hcases as [(l0 & Hl0 & _)|(_ & links & Hgl & Hcases)]; [congruence|].
  destruct Hcases as [(_ & [=] & _)|(server_links & d & c2 & Hg & Hloop & [= ->] & ->)].
  exists c0, links, server_links, d, c2.
  do 4 (split; [done|]). split; [|done].
  exact (dict_in_step_links _ _ _ _ _ Hloop (dict_in_step_nil c0)).
Qed.

Lemma ensure_album_cache_keeps_albums_in_genre album_id :
  keeps albums_in_genre (ensure_album_cache album_id).
Proof.
  pose proof ensure_genre_cache_keeps_albums_in_genre.
  unfold ensure_album_cache. keeps_tac.
Qed.

Lemma ensure_artist_cache_keeps_albums_in_genre artist :
  keeps albums_in_genre (ensure_artist_cache artist).
Proof.
  pose proof ensure_genre_cache_keeps_albums_in_genre.
  unfold ensure_artist_cache. keeps_tac.
Qed.

(** *** What a call does to the listings

    Once the genre index is loaded, a call leaves [display_genres] and
    [genre_links] alone, and either leaves the listings alone or, when it
    is a call for a display genre without listing, adds the listing it
    gathered from the links of that genre. *)

Lemma albums_in_genre_item_keeps {B} (f : Cache -> B) g :
  (forall v c, f (set_albums_in_genre v c) = f c) ->
  keeps f (albums_in_genre_item g).
Proof.
  intros Hf. unfold albums_in_genre_item.
  repeat first [keeps_step | apply keeps_modify; intros ?; apply Hf].
Qed.

Lemma genre_contents_effect g c c0 :
  ensure_genre_cache c = (Ok tt, c0) ->
  let c' := (ensure_genre_contents_cache g c).2 in
  display_genres c' = display_genres c0 /\
  genre_links c' = genre_links c0 /\
  (albums_in_genre c' = albums_in_genre c0 \/
   exists links server_links d c2,
     genre_links c0 = Some links /\
     links !! g = Some server_links /\
     foldM fetch_genre_link [] server_links c0 = (Ok d, c2) /\
     albums_in_genre c'
     = <[g := sort_by get_album_sort_order (map snd d)]> (albums_in_genre c0)).
Proof.
  intros Hidx c'. unfold c', ensure_genre_contents_cache.
  rewrite bind_snd, Hidx. split; [|split].
  - match goal with
    | |- ?f (?m c0).2 = _ => enough (keeps f m) as Hk by exact (Hk c0)
    end.
    pose proof fetch_genre_link_keeps_display_genres.
    keeps_tac; by apply albums_in_genre_item_keeps.
  - match goal with
    | |- ?f (?m c0).2 = _ => enough (keeps f m) as Hk by exact (Hk c0)
    end.
    pose proof fetch_genre_link_keeps_genre_links.
    keeps_tac; by apply albums_in_genre_item_keeps.
  - match goal with |- context [(?m c0).2] => remember (m c0).2 as c1 eqn:Hc1 end.
    rewrite bind_snd in Hc1. unfold get at 1 in Hc1.
    destruct (albums_in_genre c0 !! g) as [l0|] eqn:Hl0.
    + rewrite bind_snd, (albums_in_genre_item_hit _ _ _ Hl0) in Hc1.
      left. by subst.
    + rewrite bind_snd in Hc1.
      destruct (genre_links c0) as [links|] eqn:Hgl; [|left; by subst].
      simpl in Hc1.
      destruct (links !! g) as [server_links|] eqn:Hg; [|left; by subst].
      rewrite bind_snd in Hc1.
      pose proof (keeps_foldM albums_in_genre fetch_genre_link [] server_links
                    fetch_genre_link_keeps_albums_in_genre) as Hkeep.
      destruct (foldM fetch_genre_link [] server_links c0) as [[d|e] c2] eqn:Hloop.
      * rewrite bind_snd in Hc1. unfold modify at 1 in Hc1.
        rewrite bind_snd in Hc1.
        rewrite (albums_in_genre_item_hit _ _
                   (sort_by get_album_sort_order (map snd d))) in Hc1
          by (simpl; apply lookup_insert_eq).
        right. exists links, server_links, d, c2. subst c1. simpl.
        rewrite (keeps_run albums_in_genre _ _ _ _ Hkeep Hloop). done.
      * left. subst c1. apply (keeps_run albums_in_genre _ _ _ _ Hkeep Hloop).
Qed.

Lemma run_effect k c c0 :
  ensure_genre_cache c = (Ok tt, c0) ->
  let c' := (run k c).2 in
  display_genres c' = display_genres c0 /\
  genre_links c' = genre_links c0 /\
  (albums_in_genre c' = albums_in_genre c0 \/
   exists g links server_links d c2,
     genre_links c0 = Some links /\
     links !! g = Some server_links /\
     foldM fetch_genre_link [] server_links c0 = (Ok d, c2) /\
     albums_in_genre c'
     = <[g := sort_by get_album_sort_order (map snd d)]> (albums_in_genre c0)).
Proof.
  intros Hidx c'. unfold c'.
  destruct k as [|g|album_id|artist]; simpl; rewrite bind_snd.
  - rewrite Hidx. simpl. auto.
  - destruct (genre_contents_effect g c c0 Hidx) as (Hd & Hgl & Hl).
    destruct (ensure_genre_contents_cache g c) as [[o|e] c1]; simpl in *;
      (split; [done|split; [done|]]);
      (destruct Hl as [?|(links & server_links & d & c2 & ?)]; [by left|right; eauto 10]).
  - assert (let c1 := (ensure_album_cache album_id c).2 in
            display_genres c1 = display_genres c0 /\
            genre_links c1 = genre_links c0 /\
            albums_in_genre c1 = albums_in_genre c0) as Hkeep.
    { unfold ensure_album_cache. rewrite bind_snd, Hidx.
      repeat split;
        match goal with
        | |- ?f (?m c0).2 = _ => enough (keeps f m) as Hk by exact (Hk c0)
        end; keeps_tac. }
    destruct (ensure_album_cache album_id c) as [[o|e] c1]; simpl in *; tauto.
  - assert (let c1 := (ensure_artist_cache artist c).2 in
            display_genres c1 = display_genres c0 /\
            genre_links c1 = genre_links c0 /\
            albums_in_genre c1 = albums_in_genre c0) as Hkeep.
    { unfold ensure_artist_cache. rewrite bind_snd, Hidx.
      repeat split;
        match goal with
        | |- ?f (?m c0).2 = _ => enough (keeps f m) as Hk by exact (Hk c0)
        end; keeps_tac. }
    destruct (ensure_artist_cache artist c) as [[o|e] c1]; simpl in *; tauto.
Qed.

Lemma run_index_raise k c e c0 :
  ensure_genre_cache c = (Raise e, c0) -> (run k c).2 = c0.
Proof.
  intros Hidx. destruct k; simpl; rewrite bind_snd.
  - by rewrite Hidx.
  - unfold ensure_genre_contents_cache, bind. by rewrite Hidx.
  - unfold ensure_album_cache, bind. by rewrite Hidx.
  - unfold ensure_artist_cache, bind. by rewrite Hidx.
Qed.

(** *** The invariant *)

Lemma ensure_genre_cache_listings_ok c :
  listings_ok c -> listings_ok (ensure_genre_cache c).2.
Proof.
  intros Hinv. destruct (display_genres c) as [v|] eqn:Hd.
  - by rewrite ensure_genre_cache_hit.
  - intros g l Hl. exfalso.
    rewrite ensure_genre_cache_keeps_albums_in_genre in Hl.
    apply Hinv in Hl as [[v Hv] _]. congruence.
Qed.

Lemma listing_of_links_complete server_links d c0 c2 :
  foldM fetch_genre_link [] server_links c0 = (Ok d, c2) ->
  listing_complete server_links (sort_by get_album_sort_order (map snd d)).
Proof.
  intros Hloop link genre_albums album_json i Hlink Hget Hin Hid.
  pose proof (dict_in_step_links _ _ _ _ _ Hloop (dict_in_step_nil c0)) as Hd.
  rewrite sort_by_perm, (dict_ids _ _ Hd).
  by eapply dict_has_listed_link.
Qed.

Lemma run_listings_ok k c : listings_ok c -> listings_ok (run k c).2.
Proof.
  intros Hinv. apply ensure_genre_cache_listings_ok in Hinv.
  destruct (ensure_genre_cache c) as [[[]|e] c0] eqn:Hidx; simpl in Hinv;
    [|by rewrite (run_index_raise _ _ _ _ Hidx)].
  pose proof (ensure_genre_cache_Ok _ _ Hidx) as Hd.
  destruct (run_effect k c c0 Hidx) as (Hdg & Hgl & Hl).
  intros g' l Hin. rewrite Hdg, Hgl.
  destruct Hl as [Hsame|(g & links & server_links & d & c2 & Hgl0 & Hg & Hloop & Hnew)].
  - rewrite Hsame in Hin. by apply Hinv.
  - rewrite Hnew in Hin. destruct (decide (g = g')) as [<-|Hne].
    + rewrite lookup_insert_eq in Hin. injection Hin as <-.
      split; [done|]. exists links, server_links.
      pose proof (dict_in_step_links _ _ _ _ _ Hloop (dict_in_step_nil c0)) as Hdict.
      destruct (listing_of_dict _ _ Hdict) as (Hnodup & Hsorted & _).
      do 4 (split; [done|]). by eapply listing_of_links_complete.
    + rewrite lookup_insert_ne in Hin by done. by apply Hinv.
Qed.

Lemma reachable_listings_ok c : reachable c -> listings_ok c.
Proof.
  induction 1 as [|k c Hc IH].
  - intros g l Hl. simpl in Hl. by rewrite lookup_empty in Hl.
  - by apply run_listings_ok.
Qed.

(** Any listing a call returns is a cached listing of a reachable cache. *)
Lemma returned_listing_ok g c l c' :
  reachable c -> ensure_genre_contents_cache g c = (Ok (Some l), c') ->
  exists links server_links,
    genre_links c' = Some links /\ links !! g = Some server_links /\
    NoDup (map Album.id l) /\ sorted_by get_album_sort_order l /\
    listing_complete server_links l.
Proof.
  intros Hc Hrun.
  pose proof (reachable_run (EnsureGenreContentsCache g) c Hc) as Hc'.
  simpl in Hc'. rewrite bind_snd, Hrun in Hc'. simpl in Hc'.
  apply ensure_genre_contents_cache_Ok in Hrun
    as [_ [(l' & [= <-] & Hl)|([=] & _)]].
  by apply (reachable_listings_ok c' Hc' g).
Qed.

End GenreListingState.

(** ** An unknown genre *)

(** C7. In any cache the process can be in, when the genre index is loaded
    (or loads) and does not list [genre_name], the call returns [None], it
    does not raise, and it ends in the state in which [ensure_genre_cache]
    left the cache: no request for a genre's albums is made. *)
Theorem unknown_genre_not_found `{Host} (genre_name : pystr) (c c1 : Cache)
    (links : gmap pystr (list pystr)) :
  reachable c ->
  ensure_genre_cache c = (Ok tt, c1) ->
  genre_links c1 = Some links ->
  links !! genre_name = None ->
  ensure_genre_contents_cache genre_name c = (Ok None, c1) /\
  fetches_between c1 (ensure_genre_contents_cache genre_name c).2 = 0%nat.
Proof.
  intros Hc Hidx Hgl Hg.
  assert (ensure_genre_contents_cache genre_name c = (Ok None, c1)) as Hrun.
  { pose proof (ensure_genre_cache_listings_ok c
                  (reachable_listings_ok c Hc)) as Hinv.
    rewrite Hidx in Hinv. simpl in Hinv.
    assert (albums_in_genre c1 !! genre_name = None) as Hl.
    { destruct (albums_in_genre c1 !! genre_name) as [l|] eqn:Hl; [|done].
      destruct (Hinv genre_name l Hl) as [_ (links' & server_links & ? & ? & _)].
      congruence. }
    unfold ensure_genre_contents_cache, bind at 1. rewrite Hidx.
    unfold bind at 1, get. rewrite Hl. unfold bind, or_raise. rewrite Hgl.
    simpl. by rewrite Hg. }
  split; [done|]. rewrite Hrun. unfold fetches_between. simpl. lia.
Qed.

Lemma unknown_genre_not_found_witness :
  let links := default ∅ (genre_links demo_indexed) in
  ensure_genre_contents_cache (H:=demo_host) (py "NoSuchGenre") init
    = (Ok None, demo_indexed) /\
  fetches_between demo_indexed
    (ensure_genre_contents_cache (H:=demo_host) (py "NoSuchGenre") init).2 = 0%nat.
Proof.
  intros links.
  apply (unknown_genre_not_found (py "NoSuchGenre") init demo_indexed links).
  - apply reachable_init.
  - apply demo_indexed_run.
  - unfold links.
    assert (match genre_links demo_indexed with Some _ => true | None => false end
            = true) as Hs by (vm_compute; reflexivity).
    by destruct (genre_links demo_indexed).
  - vm_compute. reflexivity.
Defined.

Lemma occurrences_not_in (i : pystr) (l : list Album.t) :
  i ∉ map Album.id l -> occurrences i l = 0%nat.
Proof.
  unfold occurrences. induction l as [|a l IH]; simpl; [done|].
  rewrite not_elem_of_cons. intros [Hne Hl].
  rewrite bool_decide_eq_false_2 by done. by apply IH.
Qed.

Lemma occurrences_NoDup (i : pystr) (l : list Album.t) :
  NoDup (map Album.id l) ->
  (occurrences i l <= 1)%nat /\ (i ∈ map Album.id l -> occurrences i l = 1%nat).
Proof.
  induction l as [|a l IH]; simpl.
  - intros _. split; [unfold occurrences; simpl; lia|by intros ?%elem_of_nil].
  - intros [Ha Hl]%NoDup_cons. destruct (IH Hl) as [Hle Hin].
    unfold occurrences in *. simpl.
    destruct (bool_decide_reflect (Album.id a = i)) as [<-|Hne]; simpl.
    + pose proof (occurrences_not_in _ _ Ha) as Hz. unfold occurrences in Hz.
      rewrite Hz. split; [lia|done].
    + split; [done|]. intros [?|?]%elem_of_cons; [congruence|by apply Hin].
Qed.

Lemma returned_some `{Host} {A} (m : M (option A)) c :
  match (m c).1 with Ok (Some _) => true | _ => false end = true ->
  exists a c1, m c = (Ok (Some a), c1).
Proof. destruct (m c) as [[[a|]|e] c1]; simpl; [eauto|done|done]. Qed.

(** C2. A listing returned by [ensure_genre_contents_cache] never has two
    albums of one id, and an album listed by any of the upstream links of
    the display genre, by one link or by several, occurs in it exactly
    once. (For the second part the server is taken to answer the request
    for that link with the same document whenever it is asked.) *)
Theorem genre_contents_dedup `{Host} (genre_name : pystr) (c c' : Cache)
    (l : list Album.t) :
  reachable c ->
  ensure_genre_contents_cache genre_name c = (Ok (Some l), c') ->
  NoDup (map Album.id l) /\
  (forall i, (occurrences i l <= 1)%nat) /\
  (forall links server_links link genre_albums album_json i,
     genre_links c' = Some links ->
     links !! genre_name = Some server_links ->
     link ∈ server_links ->
     (forall n, http_get n (genre_url link)
                = Some (mkResponse 200 (GenreJson genre_albums))) ->
     album_json ∈ genre_albums ->
     id_from_link (AlbumJson.link album_json) = Some i ->
     occurrences i l = 1%nat).
Proof.
  intros Hc Hrun.
  destruct (returned_listing_ok _ _ _ _ Hc Hrun)
    as (links0 & server_links0 & Hgl0 & Hg0 & Hnodup & _ & Hcomplete).
  split; [done|]. split; [intros i; by apply occurrences_NoDup|].
  intros links server_links link genre_albums album_json i Hgl Hg Hlink
    Hget Hin Hid.
  apply occurrences_NoDup; [done|].
  assert (links0 = links) as -> by congruence.
  assert (server_links0 = server_links) as -> by congruence.
  by eapply Hcomplete.
Qed.

Lemma genre_contents_dedup_witness :
  exists l,
    (ensure_genre_contents_cache (H:=demo_host) (py "Rock") init).1 = Ok (Some l) /\
    occurrences (py "10") l = 1%nat.
Proof.
  destruct (returned_some (ensure_genre_contents_cache (H:=demo_host) (py "Rock")) init)
    as (l & c' & Hrun); [vm_compute; reflexivity|].
  exists l. rewrite Hrun. split; [done|].
  apply (genre_contents_dedup (py "Rock") init c' l (reachable_init) Hrun)
    with (links := default ∅ (genre_links c'))
         (server_links := [py "/genres/1"; py "/genres/2"])
         (link := py "/genres/2") (genre_albums := [album_A; album_B])
         (album_json := album_A).
  - assert (match genre_links (ensure_genre_contents_cache (H:=demo_host)
                                 (py "Rock") init).2 with
            | Some _ => true
            | None => false
            end = true) as Hs by (vm_compute; reflexivity).
    rewrite Hrun in Hs. simpl in Hs. by destruct (genre_links c').
  - assert (default ∅ (genre_links (ensure_genre_contents_cache (H:=demo_host)
                                      (py "Rock") init).2) !! py "Rock"
            = Some [py "/genres/1"; py "/genres/2"]) as Hs
      by (vm_compute; reflexivity).
    by rewrite Hrun in Hs.
  - apply elem_of_cons. right. apply elem_of_cons. by left.
  - intros n. vm_compute. reflexivity.
  - apply elem_of_cons. by left.
  - vm_compute. reflexivity.
Defined.

(** C9 (as amended). After a call of [ensure_genre_contents_cache] that
    fills the listing of the genre (the genre had no cached listing) and
    returns, every album of the returned list is the value of
    [album_details] under its id. *)
Theorem filled_listing_in_album_details `{Host} (genre_name : pystr)
    (c c' : Cache) (l : list Album.t) :
  albums_in_genre c !! genre_name = None ->
  ensure_genre_contents_cache genre_name c = (Ok (Some l), c') ->
  forall album, album ∈ l -> album_details c' !! Album.id album = Some album.
Proof.
  intros Hmiss Hrun album Hin.
  apply ensure_genre_contents_cache_populate in Hrun
    as (c0 & links & server_links & d & c2 & _ & _ & _ & _ & Hd & -> & ->);
    [|done].
  simpl. by apply (listing_of_dict _ _ Hd).
Qed.

Lemma filled_listing_in_album_details_witness :
  exists l c',
    ensure_genre_contents_cache (H:=demo_host) (py "Rock") init = (Ok (Some l), c') /\
    forall album, album ∈ l -> album_details c' !! Album.id album = Some album.
Proof.
  destruct (returned_some (ensure_genre_contents_cache (H:=demo_host) (py "Rock")) init)
    as (l & c' & Hrun); [vm_compute; reflexivity|].
  exists l, c'. split; [done|].
  apply (filled_listing_in_album_details (py "Rock") init c' l); [|done].
  apply lookup_empty.
Defined.

(** C9 (as stated) fails after a cache hit. The listing of "Rock" is
    filled, with album 10 titled "Ten"; a later artist lookup normalises
    album 10 again, from the document of the artist route, where it is
    titled "Ten (Remastered)", and replaces the entry of [album_details];
    the next call for "Rock" returns the cached listing, whose second
    album, of id 10, is no longer the one in [album_details]. *)
Lemma stale_listing_after_artist_fetch :
  let rock := ensure_genre_contents_cache (H:=demo_host) (py "Rock") in
  let c1 := (rock init).2 in
  let c2 := (ensure_artist_cache (H:=demo_host) (py "Bob") c1).2 in
  let listing := match (rock c2).1 with Ok (Some l) => l | _ => [] end in
  returned (rock init) = true /\
  returned (ensure_artist_cache (H:=demo_host) (py "Bob") c1) = true /\
  match (rock c2).1 with Ok (Some _) => true | _ => false end = true /\
  Album.id <$> listing !! 1%nat = Some (py "10") /\
  Album.title <$> listing !! 1%nat = Some (Some (py "Ten")) /\
  Album.title <$> album_details (rock c2).2 !! py "10"
    = Some (Some (py "Ten (Remastered)")) /\
  listing !! 1%nat <> album_details (rock c2).2 !! py "10".
Proof.
  intros rock c1 c2 listing.
  do 6 (split; [vm_compute; reflexivity|]).
  intros Heq. apply (f_equal (fmap Album.title)) in Heq.
  vm_compute in Heq. discriminate Heq.
Qed.

(** ** The order of a genre's listing *)

Lemma album_key_leb (ar ar' : pystr) (y y' : Z) (t t' : pystr) :
  key_leb (ar, (y, t)) (ar', (y', t')) = true <->
  str_ltb ar ar' = true \/
  (ar = ar' /\ (y < y' \/ (y = y' /\ str_ltb t' t = false))).
Proof.
  unfold key_leb. rewrite negb_true_iff.
  unfold key_ltb at 1, pair_key. simpl.
  destruct (decide (ar' = ar)) as [->|Hne].
  - unfold key_ltb at 1, pair_key. simpl.
    rewrite str_ltb_irrefl.
    destruct (decide (y' = y)) as [->|Hy].
    + unfold key_ltb, str_key. split; [intros ?; right; auto|].
      intros [?|[_ [?|[_ ?]]]]; [done|lia|done].
    + unfold key_ltb, Z_key. rewrite Z.ltb_ge. split; [intros ?; right|].
      * split; [done|]. left. lia.
      * intros [?|[_ [?|[? _]]]]; [done|lia|lia].
  - unfold key_ltb, str_key. split.
    + intros Hlt. left. destruct (str_ltb ar ar') eqn:Hlt'; [done|].
      destruct Hne. symmetry. by apply str_ltb_total.
    + intros [Hlt|[-> _]]; [|done].
      destruct (str_ltb ar' ar) eqn:Hlt'; [|done].
      rewrite <- (str_ltb_irrefl ar). symmetry. by apply str_ltb_trans with ar'.
Qed.

(** C3 (as amended). Every listing returned by
    [ensure_genre_contents_cache] is in ascending order of the key
    (artist, year, title): the artist without double quotes,
    transliterated and lower-cased, a missing or empty artist being
    "Unknown Artist" under the same normalisation; the year, a missing
    year being 0; the title transliterated and lower-cased, a missing or
    empty title being "ZZZZZZZZZZZ", that is "zzzzzzzzzzz". With artist
    and year equal, a titled album comes strictly before an untitled one
    exactly when its normalised title is below "zzzzzzzzzzz". The albums
    A (Bob, 2000), B (bob, 1990) and C (no artist, 1995, "X") sort to
    B, A, C from every order. *)
Theorem genre_listing_sorted `{Host} (genre_name : pystr) (c c' : Cache)
    (l : list Album.t) :
  reachable c ->
  ensure_genre_contents_cache genre_name c = (Ok (Some l), c') ->
  sorted_by get_album_sort_order l /\
  (forall i j a b, l !! i = Some a -> l !! j = Some b -> (i < j)%nat ->
     let ka := get_album_sort_order a in
     let kb := get_album_sort_order b in
     str_ltb ka.1 kb.1 = true \/
     (ka.1 = kb.1 /\
      (ka.2.1 < kb.2.1 \/ (ka.2.1 = kb.2.1 /\ str_ltb kb.2.2 ka.2.2 = false)))) /\
  (forall a,
     get_album_sort_order a =
     (str_lower (unidecode (remove_char 34
        match Album.artist a with
        | Some (ch :: s) => ch :: s
        | _ => py "Unknown Artist"
        end)),
      (default 0 (Album.year a),
       str_lower (unidecode
        match Album.title a with
        | Some (ch :: s) => ch :: s
        | _ => py "ZZZZZZZZZZZ"
        end)))) /\
  (str_lower (unidecode (remove_char 34 (py "Unknown Artist"))) = py "unknown artist" /\
   str_lower (unidecode (py "ZZZZZZZZZZZ")) = py "zzzzzzzzzzz") /\
  (forall a b,
     let ka := get_album_sort_order a in
     let kb := get_album_sort_order b in
     ka.1 = kb.1 -> ka.2.1 = kb.2.1 -> Album.title a = None ->
     (key_ltb kb ka = true <-> str_ltb kb.2.2 (py "zzzzzzzzzzz") = true)) /\
  (forall title_A title_B,
     let album i artist title year anchor :=
       Album.mk i artist title (Some year) None None None [] anchor in
     let A := album (py "1") (Some (py "Bob")) title_A 2000 (py "B") in
     let B := album (py "2") (Some (py "bob")) title_B 1990 (py "B") in
     let C := album (py "3") None (Some (py "X")) 1995 (py "U") in
     let sorted := sort_by get_album_sort_order in
     sorted [A; B; C] = [B; A; C] /\ sorted [A; C; B] = [B; A; C] /\
     sorted [B; A; C] = [B; A; C] /\ sorted [B; C; A] = [B; A; C] /\
     sorted [C; A; B] = [B; A; C] /\ sorted [C; B; A] = [B; A; C]).
Proof.
  intros Hc Hrun.
  destruct (returned_listing_ok _ _ _ _ Hc Hrun) as (_ & _ & _ & _ & _ & Hsorted & _).
  assert (forall a, get_album_sort_order a =
     (str_lower (unidecode (remove_char 34
        match Album.artist a with
        | Some (ch :: s) => ch :: s
        | _ => py "Unknown Artist"
        end)),
      (default 0 (Album.year a),
       str_lower (unidecode
        match Album.title a with
        | Some (ch :: s) => ch :: s
        | _ => py "ZZZZZZZZZZZ"
        end)))) as Hkey.
  { intros a. unfold get_album_sort_order.
    destruct (Album.year a) as [y|]; simpl; [|done]. by case_decide; subst. }
  split; [done|]. split; [|split; [done|split; [done|split]]].
  - intros i j a b Ha Hb Hij ka kb.
    pose proof (sorted_by_lookup _ _ _ _ _ _ Hsorted Ha Hb Hij) as Hle.
    fold ka kb in Hle. destruct ka as [ar [y t]], kb as [ar' [y' t']].
    by apply album_key_leb.
  - intros a b ka kb Har Hy Ht.
    assert (ka.2.2 = py "zzzzzzzzzzz") as Hta.
    { unfold ka. rewrite Hkey, Ht. done. }
    destruct ka as [ar [y t]], kb as [ar' [y' t']]. simpl in *. subst.
    unfold key_ltb at 1, pair_key. simpl. rewrite decide_True by done.
    unfold key_ltb at 1, pair_key. simpl. by rewrite decide_True.
  - intros title_A title_B album A B C sorted.
    do 5 (split; [vm_compute; reflexivity|]). vm_compute. reflexivity.
Qed.

Lemma genre_listing_sorted_witness :
  exists l,
    (ensure_genre_contents_cache (H:=demo_host) (py "Rock") init).1 = Ok (Some l) /\
    sorted_by (get_album_sort_order (H:=demo_host)) l /\
    map Album.id l = [py "11"; py "10"; py "12"].
Proof.
  destruct (returned_some (ensure_genre_contents_cache (H:=demo_host) (py "Rock")) init)
    as (l & c' & Hrun); [vm_compute; reflexivity|].
  exists l. rewrite Hrun. split; [done|].
  split; [exact (proj1 (genre_listing_sorted (py "Rock") init c' l reachable_init Hrun))|].
  assert (match (ensure_genre_contents_cache (H:=demo_host) (py "Rock") init).1 with
          | Ok (Some l) => map Album.id l
          | _ => []
          end = [py "11"; py "10"; py "12"]) as Hids
    by (vm_compute; reflexivity).
  by rewrite Hrun in Hids.
Defined.

(** C3 (as stated) fails on the title sentinel, which does not sort after
    all titles. The server lists "{Awayland}" and then an untitled album
    of the same artist and year; the listing has the untitled album first:
    its key "zzzzzzzzzzz" is below "{awayland}", as [z] is below the
    brace. *)
Lemma untitled_album_before_titled :
  let folk := (ensure_genre_contents_cache (H:=demo_host) (py "Folk") init).1 in
  let listing := match folk with Ok (Some l) => l | _ => [] end in
  map AlbumJson.title [album_awayland; album_untitled]
    = [Some (py "{Awayland}"); None] /\
  map Album.title listing = [None; Some (py "{Awayland}")] /\
  map Album.artist listing = [Some (py "Villagers"); Some (py "Villagers")] /\
  map Album.year listing = [Some 2013; Some 2013] /\
  map (fun a => (get_album_sort_order (H:=demo_host) a).2.2) listing
    = [py "zzzzzzzzzzz"; py "{awayland}"] /\
  str_ltb (py "zzzzzzzzzzz") (py "{awayland}") = true.
Proof.
  intros folk listing.
  do 5 (split; [vm_compute; reflexivity|]). vm_compute. reflexivity.
Qed.

(** ** Calling an [ensure_*] operation twice *)

Section Fetches.
Context `{Host}.

Lemma requests_get_length url c r c' :
  requests_get url c = (r, c') ->
  length (requests_made c') = S (length (requests_made c)).
Proof.
  unfold requests_get. destruct (http_get _ _); by intros [= _ <-].
Qed.

(** The genre index costs one request, once. *)
Lemma ensure_genre_cache_fetches c c1 :
  ensure_genre_cache c = (Ok tt, c1) ->
  length (requests_made c1)
  = (length (requests_made c)
     + match display_genres c with Some _ => 0 | None => 1 end)%nat.
Proof.
  destruct (display_genres c) as [v|] eqn:Hd.
  - rewrite ensure_genre_cache_hit by eauto. intros [= <-]. lia.
  - unfold ensure_genre_cache. intros Hrun.
    apply bind_Ok in Hrun as (? & ? & [-> ->]%get_Ok & Hrun). rewrite Hd in Hrun.
    apply bind_Ok in Hrun as (resp & c' & Hget & Hrun).
    apply requests_get_length in Hget.
    erewrite (keeps_run requests_made); [|clear Hrun|exact Hrun].
    + lia.
    + keeps_tac; by apply index_server_genre_keeps.
Qed.

(** Each upstream link of the display genre costs one request. *)
Lemma fetch_links_fetches links : forall d c d' c',
  foldM fetch_genre_link d links c = (Ok d', c') ->
  length (requests_made c') = (length (requests_made c) + length links)%nat.
Proof.
  induction links as [|link links IH]; intros d c d' c'; simpl.
  - intros [_ <-]%ret_Ok. lia.
  - intros (d1 & c1 & Hstep & Hrest)%bind_Ok.
    apply IH in Hrest. rewrite Hrest.
    apply fetch_genre_link_Ok in Hstep as (resp & albums & _ & _ & _ & Hloop).
    erewrite (keeps_run requests_made); [| |exact Hloop].
    + simpl. lia.
    + keeps_tac.
Qed.

Lemma ensure_genre_contents_cache_fetches g c r c1 :
  ensure_genre_contents_cache g c = (Ok r, c1) ->
  length (requests_made c1)
  = (length (requests_made c)
     + match display_genres c with Some _ => 0 | None => 1 end
     + match albums_in_genre c !! g with
       | Some _ => 0
       | None => length (default [] (genre_links c1 ≫= (.!! g)))
       end)%nat.
Proof.
  intros (c0 & Hidx & Hcases)%ensure_genre_contents_cache_cases.
  rewrite <- (keeps_run albums_in_genre _ _ _ _
                ensure_genre_cache_keeps_albums_in_genre Hidx).
  apply ensure_genre_cache_fetches in Hidx. rewrite <- Hidx.
  destruct Hcases as [(l0 & -> & _ & ->)|(-> & links & Hgl & Hcases)]; [lia|].
  destruct Hcases as [(Hg & _ & ->)|(server_links & d & c2 & Hg & Hloop & _ & ->)].
  - rewrite Hgl. simpl. rewrite Hg. simpl. lia.
  - simpl.
    rewrite (keeps_run genre_links _ _ _ _
               (keeps_foldM _ _ _ _ fetch_genre_link_keeps_genre_links) Hloop).
    rewrite Hgl. simpl. rewrite Hg. simpl.
    by apply fetch_links_fetches in Hloop.
Qed.

Lemma ensure_album_cache_fetches album_id c a c1 :
  ensure_album_cache album_id c = (Ok a, c1) ->
  length (requests_made c1)
  = (length (requests_made c)
     + match display_genres c with Some _ => 0 | None => 1 end
     + match album_details c !! album_id with Some _ => 0 | None => 1 end)%nat.
Proof.
  unfold ensure_album_cache. intros Hrun.
  apply bind_Ok in Hrun as ([] & c0 & Hidx & Hrun).
  rewrite <- (keeps_run album_details _ _ _ _
                ensure_genre_cache_keeps_album_details Hidx).
  apply ensure_genre_cache_fetches in Hidx. rewrite <- Hidx.
  apply bind_Ok in Hrun as (? & ? & [-> ->]%get_Ok & Hrun).
  apply bind_Ok in Hrun as ([] & c2 & Hfill & Hrun).
  apply bind_Ok in Hrun as (? & ? & [-> ->]%get_Ok & [_ ->]%or_raise_Ok).
  destruct (album_details c0 !! album_id).
  - apply ret_Ok in Hfill as [_ <-]. lia.
  - apply bind_Ok in Hfill as (resp & c' & Hget & Hfill).
    apply requests_get_length in Hget.
    erewrite (keeps_run requests_made); [|clear Hfill|exact Hfill].
    + lia.
    + keeps_tac.
Qed.

Lemma ensure_artist_cache_fetches artist c a c1 :
  ensure_artist_cache artist c = (Ok a, c1) ->
  length (requests_made c1)
  = (length (requests_made c)
     + match display_genres c with Some _ => 0 | None => 1 end
     + match artist_details c !! str_lower artist with
       | Some _ => 0
       | None => 1
       end)%nat.
Proof.
  unfold ensure_artist_cache. intros Hrun.
  apply bind_Ok in Hrun as ([] & c0 & Hidx & Hrun).
  rewrite <- (keeps_run artist_details _ _ _ _
                ensure_genre_cache_keeps_artist_details Hidx).
  apply ensure_genre_cache_fetches in Hidx. rewrite <- Hidx.
  apply bind_Ok in Hrun as (? & ? & [-> ->]%get_Ok & Hrun).
  apply bind_Ok in Hrun as ([] & c2 & Hfill & Hrun).
  apply bind_Ok in Hrun as (? & ? & [-> ->]%get_Ok & [_ ->]%or_raise_Ok).
  destruct (artist_details c0 !! str_lower artist).
  - apply ret_Ok in Hfill as [_ <-]. lia.
  - apply bind_Ok in Hfill as (resp & c' & Hget & Hfill).
    apply requests_get_length in Hget.
    erewrite (keeps_run requests_made); [|clear Hfill|exact Hfill].
    + lia.
    + keeps_tac.
Qed.

End Fetches.

(** C1 (as amended). Whenever a call of one of the four [ensure_*]
    operations returns, calling it again with the same key returns the same
    value and leaves the cache, and the list of requests made, as the first
    call left them: the second call issues no upstream fetch. The two
    calls together issue the requests of the first, which are
    [fetches_needed]: one for the genre index unless it was loaded, and,
    unless the key was cached, one for an album or artist and one per
    upstream link for a display genre. *)
Theorem second_call_is_cached `{Host} (k : call) (c c1 : Cache) (r : answer) :
  run k c = (Ok r, c1) ->
  run k c1 = (Ok r, c1) /\
  fetches_between c1 (run k c1).2 = 0%nat /\
  fetches_between c (run k c1).2 = fetches_needed k c c1.
Proof.
  intros Hrun.
  assert (run k c1 = (Ok r, c1)) as Hagain.
  { destruct k as [|g|album_id|artist]; simpl in *.
    - apply bind_Ok in Hrun as ([] & c0 & Hidx & Hrun).
      apply bind_Ok in Hrun as (? & ? & [-> ->]%get_Ok & [<- ->]%ret_Ok).
      apply ensure_genre_cache_Ok in Hidx.
      unfold bind. by rewrite (ensure_genre_cache_hit _ Hidx).
    - apply bind_Ok in Hrun as (o & c0 & Hfirst & [<- ->]%ret_Ok).
      apply ensure_genre_contents_cache_Ok in Hfirst
        as [Hd [(l & -> & Hl)|(-> & Hl & links & Hgl & Hg)]]; unfold bind.
      + by rewrite (ensure_genre_contents_cache_hit _ _ _ Hd Hl).
      + by rewrite (ensure_genre_contents_cache_unknown _ _ _ Hd Hl Hgl Hg).
    - apply bind_Ok in Hrun as (a & c0 & Hfirst & [<- ->]%ret_Ok).
      apply ensure_album_cache_Ok in Hfirst as [Hd Ha]. unfold bind.
      by rewrite (ensure_album_cache_hit _ _ _ Hd Ha).
    - apply bind_Ok in Hrun as (a & c0 & Hfirst & [<- ->]%ret_Ok).
      apply ensure_artist_cache_Ok in Hfirst as [Hd Ha]. unfold bind.
      by rewrite (ensure_artist_cache_hit _ _ _ Hd Ha). }
  split; [done|]. rewrite Hagain. unfold fetches_between, fetches_needed. simpl.
  split; [lia|].
  destruct k as [|g|album_id|artist]; simpl in *.
  - apply bind_Ok in Hrun as ([] & c0 & Hidx & Hrun).
    apply bind_Ok in Hrun as (? & ? & [-> ->]%get_Ok & [<- ->]%ret_Ok).
    apply ensure_genre_cache_fetches in Hidx. lia.
  - apply bind_Ok in Hrun as (o & c0 & Hfirst & [<- ->]%ret_Ok).
    apply ensure_genre_contents_cache_fetches in Hfirst. lia.
  - apply bind_Ok in Hrun as (a & c0 & Hfirst & [<- ->]%ret_Ok).
    apply ensure_album_cache_fetches in Hfirst. lia.
  - apply bind_Ok in Hrun as (a & c0 & Hfirst & [<- ->]%ret_Ok).
    apply ensure_artist_cache_fetches in Hfirst. lia.
Qed.

Lemma second_call_is_cached_witness :
  let k := EnsureAlbumCache (py "10") in
  exists r c1,
    run (H:=demo_host) k init = (Ok r, c1) /\
    run k c1 = (Ok r, c1) /\
    fetches_between c1 (run k c1).2 = 0%nat /\
    fetches_between init (run k c1).2 = fetches_needed k init c1.
Proof.
  intros k.
  destruct (returned_run (run (H:=demo_host) k) init) as (r & c1 & Hrun);
    [vm_compute; reflexivity|].
  exists r, c1. split; [exact Hrun|].
  exact (second_call_is_cached k init c1 r Hrun).
Defined.

(** C1 (as stated) fails on the count of fetches. From a cache that holds
    the genre index, two calls for the display genre "Rock", which gathers
    two upstream genres, return the same list and issue two requests, one
    per link; from a fresh cache, two calls for album 10 return the same
    album and issue two requests, the genre index and the album. *)
Lemma two_calls_not_one_fetch :
  let rock := ensure_genre_contents_cache (H:=demo_host) (py "Rock") in
  let album := ensure_album_cache (H:=demo_host) (py "10") in
  (returned (rock demo_indexed) = true /\
   (rock (rock demo_indexed).2).1 = (rock demo_indexed).1 /\
   fetches_between demo_indexed (rock (rock demo_indexed).2).2 = 2%nat /\
   fetches_between demo_indexed (rock (rock demo_indexed).2).2 <> 1%nat) /\
  (returned (album init) = true /\
   (album (album init).2).1 = (album init).1 /\
   fetches_between init (album (album init).2).2 = 2%nat /\
   fetches_between init (album (album init).2).2 <> 1%nat).
Proof.
  intros rock album.
  split; (split; [|split; [|split]]); vm_compute; (reflexivity || discriminate).
Qed.

(** * Further properties *)

(** ** Links and ids *)

Lemma rindex_None (c : N) (s : pystr) : rindex c s = None <-> c ∉ s.
Proof.
  induction s as [|x s IH]; simpl.
  - split; [intros _; apply not_elem_of_nil|done].
  - rewrite not_elem_of_cons. destruct (rindex c s) as [i|].
    + split; [done|]. intros [_ Hs]. by apply IH in Hs.
    + destruct (N.eqb_spec x c) as [->|Hne].
      * split; [done|]. by intros [? _].
      * split; [|done]. intros _. split; [done|]. by apply IH.
Qed.

Lemma elem_of_middle {A} (x : A) (p i : list A) : x ∉ p ++ x :: i -> False.
Proof. intros Hx. apply Hx, elem_of_app. right. by left. Qed.

Lemma rindex_Some (c : N) (s : pystr) (n : nat) :
  rindex c s = Some n <->
  exists p i, s = p ++ c :: i /\ length p = n /\ c ∉ i.
Proof.
  revert n. induction s as [|x s IH]; intros n; simpl.
  - split; [done|]. intros (p & i & Hs & _). by destruct p.
  - destruct (rindex c s) as [k|] eqn:Hk.
    + split.
      * intros [= <-]. destruct (proj1 (IH k) eq_refl) as (p & i & -> & <- & Hi).
        by exists (x :: p), i.
      * intros (p & i & Hs & <- & Hi). destruct p as [|y p]; simplify_eq/=.
        { apply rindex_None in Hi. rewrite Hi in Hk.
          destruct (proj1 (IH k) eq_refl) as (p & i' & Hs & _).
          apply (f_equal (rindex c)) in Hs. rewrite Hi in Hs.
          symmetry in Hs. apply rindex_None in Hs. by apply elem_of_middle in Hs. }
        f_equal. assert (Some k = Some (length p)) as [= ->]; [|done].
        apply IH. eauto.
    + apply rindex_None in Hk. destruct (N.eqb_spec x c) as [->|Hne].
      * split.
        -- intros [= <-]. by exists [], s.
        -- intros (p & i & Hs & <- & Hi). destruct p as [|y p]; [done|].
           injection Hs as _ ->. by apply elem_of_middle in Hk.
      * split; [done|]. intros (p & i & Hs & <- & Hi).
        destruct p as [|y p]; injection Hs as ? ->; [done|by apply elem_of_middle in Hk].
Qed.

Lemma drop_after_sep {A} (p : list A) (x : A) (i : list A) :
  drop (S (length p)) (p ++ x :: i) = i.
Proof. induction p as [|y p IH]; [done|]. exact IH. Qed.

(** X1. [id_from_link] returns what follows the last [/] of the link:
    it returns [i] exactly when the link is some prefix, a [/] and [i],
    and [i] holds no [/]. *)
Theorem id_from_link_last_segment (link i : pystr) :
  id_from_link link = Some i <->
  exists prefix, link = prefix ++ 47%N :: i /\ 47%N ∉ i.
Proof.
  unfold id_from_link. split.
  - destruct (rindex 47 link) as [n|] eqn:Hn; simpl; [|done].
    intros [= <-]. apply rindex_Some in Hn as (p & i' & -> & <- & Hi).
    rewrite drop_after_sep. by exists p.
  - intros (p & -> & Hi).
    assert (rindex 47 (p ++ 47%N :: i) = Some (length p)) as ->.
    { apply rindex_Some. eauto. }
    simpl. by rewrite drop_after_sep.
Qed.

(** X2. [id_from_link] fails (the [ValueError] of [rindex]) exactly on
    the links without a [/]; it never fails on a link that has one. *)
Theorem id_from_link_fails_without_slash (link : pystr) :
  id_from_link link = None <-> 47%N ∉ link.
Proof.
  unfold id_from_link. rewrite <- rindex_None.
  by destruct (rindex 47 link).
Qed.

(** ** The server argument *)

Lemma py_http : py "http" = [104; 116; 116; 112]%N.
Proof. reflexivity. Qed.

Lemma py_http_scheme : py "http://" = [104; 116; 116; 112; 58; 47; 47]%N.
Proof. reflexivity. Qed.

Lemma starts_with_http (s : pystr) :
  starts_with (py "http") s = true <-> exists rest, s = py "http" ++ rest.
Proof.
  rewrite py_http. split.
  - destruct s as [|a [|b [|c [|d rest]]]]; cbn [starts_with]; try done;
      rewrite ?andb_false_r; try done.
    rewrite !andb_true_iff, !N.eqb_eq. intros (<- & <- & <- & <- & _).
    by exists rest.
  - intros [rest ->]. cbn [starts_with app]. by rewrite !N.eqb_refl.
Qed.

(** X3. [parse_args] never fails on the server argument, given or not:
    the index [-1] is taken of a string that is not empty. The server it
    returns starts with [http]. *)
Theorem parse_args_total (argv_server : option pystr) :
  exists server, parse_args argv_server = Some server /\
                 starts_with (py "http") server = true.
Proof.
  unfold parse_args, normalize_server.
  destruct (starts_with (py "http") (default (py "piju:5000") argv_server)) eqn:Hs.
  - apply starts_with_http in Hs as [rest ->].
    destruct rest as [|x rest].
    + eexists. split; [reflexivity|]. done.
    + destruct (last (py "http" ++ x :: rest)) as [c|] eqn:Hl.
      * eexists. split; [reflexivity|]. destruct (c =? 47)%N.
        -- apply starts_with_http. rewrite py_http.
           exists (removelast (x :: rest)). cbn [app removelast]. by destruct rest.
        -- apply starts_with_http. eauto.
      * by apply last_None in Hl.
  - generalize (default (py "piju:5000") argv_server). intros s.
    rewrite py_http_scheme.
    destruct (last ([104; 116; 116; 112; 58; 47; 47]%N ++ s))
      as [c|] eqn:Hl; [|by apply last_None in Hl].
    eexists. split; [reflexivity|]. apply starts_with_http. rewrite py_http.
    destruct (c =? 47)%N.
    + exists (removelast ([58; 47; 47]%N ++ s)). cbn [app removelast]. by destruct s.
    + by exists ([58; 47; 47]%N ++ s).
Qed.

Lemma starts_with_http_slash (s : pystr) :
  starts_with (py "http") (s ++ py "/") = starts_with (py "http") s.
Proof.
  rewrite py_http. change (py "/") with [47%N].
  destruct s as [|a [|b [|c [|d rest]]]]; cbn [starts_with app]; try done;
    rewrite ?andb_false_r; done.
Qed.

Lemma last_removelast_snoc {A} (l : list A) (x : A) :
  last (l ++ [x]) = Some x /\ removelast (l ++ [x]) = l.
Proof.
  split; [apply last_snoc|]. apply removelast_last.
Qed.

(** X4. One trailing [/] of the server argument makes no difference: for
    a server that is not empty and does not end in [/], with or without a
    [/] appended the result is the server itself, after [http://] unless
    it starts with [http]. *)
Theorem parse_args_trailing_slash (s : pystr) :
  s <> [] -> last s <> Some 47%N ->
  let scheme := if starts_with (py "http") s then [] else py "http://" in
  parse_args (Some s) = Some (scheme ++ s) /\
  parse_args (Some (s ++ py "/")) = Some (scheme ++ s).
Proof.
  intros Hne Hlast scheme. unfold parse_args, normalize_server. simpl default.
  rewrite starts_with_http_slash.
  assert ((if starts_with (py "http") s then s ++ py "/"
           else py "http://" ++ s ++ py "/") = (scheme ++ s) ++ [47%N]) as ->.
  { unfold scheme. destruct (starts_with (py "http") s); [done|].
    by rewrite <- app_assoc. }
  assert ((if starts_with (py "http") s then s else py "http://" ++ s)
          = scheme ++ s) as ->.
  { unfold scheme. by destruct (starts_with (py "http") s). }
  split.
  - destruct (last s) as [c|] eqn:Hl; [|by apply last_None in Hl].
    assert (last (scheme ++ s) = Some c) as ->.
    { destruct s as [|x s] using rev_ind; [done|].
      rewrite last_snoc in Hl. injection Hl as ->.
      by rewrite app_assoc, last_snoc. }
    simpl. destruct (N.eqb_spec c 47) as [->|_]; [done|]. done.
  - destruct (last_removelast_snoc (scheme ++ s) 47%N) as [-> Hr].
    simpl. by rewrite Hr.
Qed.

Lemma parse_args_trailing_slash_witness :
  parse_args (Some (py "piju:5000")) = Some (py "http://piju:5000") /\
  parse_args (Some (py "piju:5000/")) = Some (py "http://piju:5000").
Proof.
  apply (parse_args_trailing_slash (py "piju:5000")).
  - discriminate.
  - vm_compute. discriminate.
Defined.

(** ** The header *)

Lemma str_join_app (sep : pystr) (l1 l2 : list pystr) :
  l1 <> [] -> l2 <> [] ->
  str_join sep (l1 ++ l2) = str_join sep l1 ++ sep ++ str_join sep l2.
Proof.
  intros H1 H2. induction l1 as [|s l1 IH]; [done|].
  destruct l1 as [|s' l1].
  - simpl. by destruct l2.
  - change (str_join sep ((s :: s' :: l1) ++ l2))
      with (s ++ sep ++ str_join sep ((s' :: l1) ++ l2)).
    rewrite IH by done.
    change (str_join sep (s :: s' :: l1)) with (s ++ sep ++ str_join sep (s' :: l1)).
    by rewrite <- !app_assoc.
Qed.

(** X5. The header of two lists of links, one after the other, is the
    two headers with one separator between them; no separator is put
    before the first link or after the last. *)
Theorem make_header_app (links1 links2 : list (pystr * pystr)) :
  links1 <> [] -> links2 <> [] ->
  make_header (links1 ++ links2)
  = make_header links1 ++ py " | " ++ make_header links2.
Proof.
  intros H1 H2. unfold make_header. rewrite map_app.
  apply str_join_app; by destruct links1, links2.
Qed.

Lemma make_header_app_witness :
  make_header ([(py "/", py "Home")] ++ [(py "/search", py "Search")])
  = make_header [(py "/", py "Home")] ++ py " | "
    ++ make_header [(py "/search", py "Search")].
Proof.
  apply (make_header_app [(py "/", py "Home")] [(py "/search", py "Search")]);
    discriminate.
Defined.

(** ** The protocol-version check *)

Lemma zip_longest_nil_l {A} (fill : A) (l : list A) :
  zip_longest fill [] l = zip (replicate (length l) fill) l.
Proof. simpl. induction l as [|y l IH]; [done|]. simpl. by rewrite IH. Qed.

Lemma zip_longest_nil_r {A} (fill : A) (l : list A) :
  zip_longest fill l [] = zip l (replicate (length l) fill).
Proof.
  destruct l as [|x l]; [done|]. simpl. f_equal.
  induction l as [|y l IH]; [done|]. simpl. by rewrite IH.
Qed.

(** [zip_longest] pairs the two lists after the shorter one is filled up. *)
Lemma zip_longest_zip {A} (fill : A) (l1 l2 : list A) :
  zip_longest fill l1 l2
  = zip (l1 ++ replicate (length l2 - length l1) fill)
        (l2 ++ replicate (length l1 - length l2) fill).
Proof.
  revert l2. induction l1 as [|x l1 IH]; intros l2.
  - rewrite zip_longest_nil_l. simpl. by rewrite Nat.sub_0_r, app_nil_r.
  - destruct l2 as [|y l2].
    + rewrite zip_longest_nil_r. simpl. by rewrite app_nil_r.
    + simpl. by rewrite IH.
Qed.

Lemma nth_replicate_0 (k i : nat) : nth i (replicate k 0) 0 = 0.
Proof. revert i. induction k as [|k IH]; intros [|i]; simpl; auto. Qed.

Lemma digits_value_0 : digits_value (py "0") = 0.
Proof. reflexivity. Qed.

Lemma nth_fill (l : list pystr) (k i : nat) :
  nth i (map digits_value (l ++ replicate k (py "0"))) 0
  = nth i (map digits_value l) 0.
Proof.
  rewrite map_app. destruct (Nat.lt_ge_cases i (length (map digits_value l))) as [Hi|Hi].
  - by rewrite app_nth1.
  - rewrite app_nth2 by done. rewrite (nth_overflow (map digits_value l)) by done.
    change map with (@fmap list _). rewrite fmap_replicate, digits_value_0.
    apply nth_replicate_0.
Qed.

Lemma is_digit_ascii (c : N) : is_digit c = true -> is_ascii c = true.
Proof.
  unfold is_digit, is_ascii. intros [_ Hc%N.leb_le]%andb_true_iff.
  apply N.ltb_lt. lia.
Qed.

Lemma numeric_fill : numeric (py "0").
Proof. split; [done|]. by repeat constructor. Qed.

Lemma numeric_forallb (f : pystr) :
  numeric f ->
  forallb is_ascii f = true /\ forallb is_digit f = true /\
  bool_decide (f = []) = false.
Proof.
  intros [Hne Hd]. split; [|split].
  - clear Hne. induction Hd as [|c f Hc _ IH]; [done|]. simpl.
    by rewrite (is_digit_ascii _ Hc), IH.
  - clear Hne. induction Hd as [|c f Hc _ IH]; [done|]. simpl. by rewrite Hc, IH.
  - by apply bool_decide_eq_false.
Qed.

Section VersionCheck.
Variable host_isdigit : pystr -> bool.
Variable host_int : pystr -> option Z.

Lemma numeric_isdigit (f : pystr) : numeric f -> str_isdigit host_isdigit f = true.
Proof.
  intros (Ha & Hd & He)%numeric_forallb. unfold str_isdigit.
  by rewrite Ha, Hd, He.
Qed.

Lemma numeric_int (f : pystr) :
  numeric f -> str_int host_int f = Some (digits_value f).
Proof.
  intros (Ha & Hd & He)%numeric_forallb. unfold str_int.
  by rewrite Ha, Hd, He.
Qed.

Lemma compare_fragments_cons_numeric R D r d rest :
  numeric r -> numeric d ->
  compare_fragments host_isdigit host_int R D ((r, d) :: rest)
  = if digits_value r =? digits_value d
    then compare_fragments host_isdigit host_int R D rest
    else if digits_value r <? digits_value d
         then (Ok tt, [(WARNING, newer_msg R D)])
         else (Ok tt, [(ERROR, older_msg R D)]).
Proof.
  intros Hr Hd. simpl.
  by rewrite !numeric_isdigit, !numeric_int.
Qed.

Lemma compare_fragments_equal R D : forall rs ds,
  length rs = length ds -> Forall numeric rs -> Forall numeric ds ->
  (forall i, nth i (map digits_value rs) 0 = nth i (map digits_value ds) 0) ->
  compare_fragments host_isdigit host_int R D (zip rs ds) = (Ok tt, []).
Proof.
  induction rs as [|r rs IH]; intros [|d ds] Hlen Hrs Hds Heq; try done.
  apply Forall_cons in Hrs as [Hr Hrs]. apply Forall_cons in Hds as [Hd Hds].
  change (zip (r :: rs) (d :: ds)) with ((r, d) :: zip rs ds).
  rewrite compare_fragments_cons_numeric by done.
  pose proof (Heq 0%nat) as H0. simpl in H0. rewrite H0, Z.eqb_refl.
  apply IH; [by injection Hlen|done|done|]. intros i. apply (Heq (S i)).
Qed.

Lemma compare_fragments_differ R D : forall rs ds i,
  length rs = length ds -> Forall numeric rs -> Forall numeric ds ->
  (forall j, (j < i)%nat ->
     nth j (map digits_value rs) 0 = nth j (map digits_value ds) 0) ->
  nth i (map digits_value rs) 0 <> nth i (map digits_value ds) 0 ->
  compare_fragments host_isdigit host_int R D (zip rs ds)
  = (Ok tt, [if nth i (map digits_value rs) 0 <? nth i (map digits_value ds) 0
             then (WARNING, newer_msg R D) else (ERROR, older_msg R D)]).
Proof.
  induction rs as [|r rs IH]; intros [|d ds] i Hlen Hrs Hds Heq Hne; try done.
  apply Forall_cons in Hrs as [Hr Hrs]. apply Forall_cons in Hds as [Hd Hds].
  change (zip (r :: rs) (d :: ds)) with ((r, d) :: zip rs ds).
  rewrite compare_fragments_cons_numeric by done.
  destruct i as [|i].
  - simpl in *. apply Z.eqb_neq in Hne. rewrite Hne.
    by destruct (digits_value r <? digits_value d).
  - pose proof (Heq 0%nat (Nat.lt_0_succ i)) as H0. simpl in H0.
    rewrite H0, Z.eqb_refl.
    apply (IH ds i); [by injection Hlen|done|done| |done].
    intros j Hj. apply (Heq (S j)). lia.
Qed.

Lemma str_split_ascii (s : pystr) :
  forallb is_ascii s = true ->
  Forall (fun f => forallb is_ascii f = true) (str_split 46 s).
Proof.
  induction s as [|x s IH]; simpl.
  - by repeat constructor.
  - intros [Hx Hs]%andb_true_iff. specialize (IH Hs).
    destruct (x =? 46)%N; [by constructor|].
    destruct (str_split 46 s) as [|f fs].
    + repeat constructor. simpl. by rewrite Hx.
    + apply Forall_cons in IH as [Hf Hfs]. constructor; [|done].
      simpl. by rewrite Hx, Hf.
Qed.

Lemma compare_fragments_ascii R D : forall l,
  Forall (fun p => forallb is_ascii p.1 = true /\ forallb is_ascii p.2 = true) l ->
  exists n verdict,
    compare_fragments host_isdigit host_int R D l
    = (Ok tt, replicate n (WARNING, non_numeric) ++ verdict) /\
    (verdict = [] \/ verdict = [(WARNING, newer_msg R D)]
     \/ verdict = [(ERROR, older_msg R D)]).
Proof.
  induction l as [|[r d] l IH]; intros Hl.
  - exists 0%nat, []. by split; [|left].
  - apply Forall_cons in Hl as [[Hr Hd] Hl].
    destruct (IH Hl) as (n & verdict & Hrun & Hv). simpl in *.
    destruct (negb (str_isdigit host_isdigit r)
              || negb (str_isdigit host_isdigit d)) eqn:Hdigits.
    + exists (S n), verdict. by rewrite Hrun.
    + apply orb_false_iff in Hdigits as [Hdr%negb_false_iff Hdd%negb_false_iff].
      unfold str_isdigit in Hdr, Hdd. unfold str_int.
      rewrite Hr in *. rewrite Hd in *. rewrite Hdr, Hdd.
      destruct (digits_value r =? digits_value d); [by exists n, verdict|].
      destruct (digits_value r <? digits_value d).
      * exists 0%nat. eexists. split; [reflexivity|]. right. by left.
      * exists 0%nat. eexists. split; [reflexivity|]. right. by right.
Qed.

End VersionCheck.

Lemma zip_longest_Forall {A} (P : A -> Prop) (fill : A) (l1 l2 : list A) :
  P fill -> Forall P l1 -> Forall P l2 ->
  Forall (fun p => P p.1 /\ P p.2) (zip_longest fill l1 l2).
Proof.
  intros Hfill H1. revert l2. induction H1 as [|x l1 Hx H1 IH]; intros l2 H2.
  - simpl. induction H2; by constructor.
  - destruct H2 as [|y l2 Hy H2].
    + simpl. constructor; [done|]. clear IH. induction H1; by constructor.
    + simpl. constructor; [done|]. by apply IH.
Qed.

(** X6. When all fragments of the required and the detected version are
    strings of ASCII digits, the check compares the versions as lists of
    numbers, the shorter one filled up with zeros: it logs nothing when
    they agree everywhere, and otherwise one record, decided at the first
    position where they differ: the warning of a newer server when the
    detected number is larger, the error of an older one when smaller. *)
Theorem connection_test_compares_numbers (host_isdigit : pystr -> bool)
    (host_int : pystr -> option Z) (required detected : pystr) :
  Forall numeric (str_split 46 required) ->
  Forall numeric (str_split 46 detected) ->
  let outcome :=
    connection_test host_isdigit host_int (Replied 200 (Some detected)) required in
  ((forall i, version_nth required i = version_nth detected i) ->
   outcome = (Ok tt, [])) /\
  (forall i, first_difference required detected i ->
     outcome = (Ok tt, [if version_nth required i <? version_nth detected i
                        then (WARNING, newer_msg required detected)
                        else (ERROR, older_msg required detected)])).
Proof.
  intros Hr Hd outcome.
  assert (outcome = compare_fragments host_isdigit host_int required detected
            (zip_longest (py "0") (str_split 46 required) (str_split 46 detected)))
    as ->.
  { unfold outcome. simpl. destruct detected as [|x detected]; [|done].
    apply Forall_cons in Hd as [[Hne _] _]. done. }
  unfold first_difference, version_nth, version_numbers.
  rewrite zip_longest_zip.
  set (rs := str_split 46 required) in *. set (ds := str_split 46 detected) in *.
  set (rs' := rs ++ replicate (length ds - length rs) (py "0")).
  set (ds' := ds ++ replicate (length rs - length ds) (py "0")).
  assert (length rs' = length ds') as Hlen.
  { unfold rs', ds'. rewrite !length_app, !length_replicate. lia. }
  assert (Forall numeric rs') as Hrs'.
  { apply Forall_app. split; [done|]. apply Forall_replicate, numeric_fill. }
  assert (Forall numeric ds') as Hds'.
  { apply Forall_app. split; [done|]. apply Forall_replicate, numeric_fill. }
  assert (forall i, nth i (map digits_value rs') 0 = nth i (map digits_value rs) 0)
    as Hnr by (intros i; apply nth_fill).
  assert (forall i, nth i (map digits_value ds') 0 = nth i (map digits_value ds) 0)
    as Hnd by (intros i; apply nth_fill).
  split.
  - intros Heq. apply compare_fragments_equal; try done.
    intros i. by rewrite Hnr, Hnd.
  - intros i [Heq Hne]. rewrite <- (Hnr i), <- (Hnd i).
    apply compare_fragments_differ; try done.
    + intros j Hj. rewrite Hnr, Hnd. by apply Heq.
    + by rewrite Hnr, Hnd.
Qed.

Lemma connection_test_compares_numbers_witness :
  connection_test (fun _ => false) (fun _ => None)
    (Replied 200 (Some (py "2.10"))) (py "2.9")
  = (Ok tt, [(WARNING, newer_msg (py "2.9") (py "2.10"))]).
Proof.
  refine (proj2 (connection_test_compares_numbers (fun _ => false) (fun _ => None)
                   (py "2.9") (py "2.10") _ _) 1%nat _).
  - repeat (constructor; [split; [discriminate|by repeat constructor]|]).
    constructor.
  - repeat (constructor; [split; [discriminate|by repeat constructor]|]).
    constructor.
  - split.
    + intros [|j] Hj; [vm_compute; reflexivity|lia].
    + vm_compute. discriminate.
Defined.

(** X7. On version strings of ASCII characters the check never raises,
    and its log is warnings of non-numeric fragments followed by at most
    one verdict, the warning of a newer or the error of an older server:
    a fragment that is not a number is skipped, and the comparison stops
    at the first pair of numbers that differ. *)
Theorem connection_test_ascii_log (host_isdigit : pystr -> bool)
    (host_int : pystr -> option Z) (required detected : pystr) :
  forallb is_ascii required = true ->
  forallb is_ascii detected = true ->
  detected <> [] ->
  exists n verdict,
    connection_test host_isdigit host_int (Replied 200 (Some detected)) required
    = (Ok tt, replicate n (WARNING, non_numeric) ++ verdict) /\
    (verdict = [] \/ verdict = [(WARNING, newer_msg required detected)]
     \/ verdict = [(ERROR, older_msg required detected)]).
Proof.
  intros Hr Hd Hne. destruct detected as [|x detected]; [done|].
  change (connection_test host_isdigit host_int
            (Replied 200 (Some (x :: detected))) required)
    with (compare_fragments host_isdigit host_int required (x :: detected)
            (zip_longest (py "0") (str_split 46 required)
               (str_split 46 (x :: detected)))).
  apply compare_fragments_ascii.
  apply (zip_longest_Forall (fun f => forallb is_ascii f = true));
    [done|by apply str_split_ascii..].
Qed.

Lemma connection_test_ascii_log_witness :
  exists n verdict,
    connection_test (fun _ => false) (fun _ => None)
      (Replied 200 (Some (py "2.x.1-beta.3"))) (py "2.0.1.4")
    = (Ok tt, replicate n (WARNING, non_numeric) ++ verdict) /\
    (verdict = [] \/ verdict = [(WARNING, newer_msg (py "2.0.1.4") (py "2.x.1-beta.3"))]
     \/ verdict = [(ERROR, older_msg (py "2.0.1.4") (py "2.x.1-beta.3"))]).
Proof.
  apply (connection_test_ascii_log (fun _ => false) (fun _ => None)
           (py "2.0.1.4") (py "2.x.1-beta.3")).
  - vm_compute. reflexivity.
  - vm_compute. reflexivity.
  - discriminate.
Defined.

(** ** Normalising an album: all or nothing *)

Lemma raised_run `{Host} {A} (m : M A) c e :
  raised (m c) = Some e -> m c = (Raise e, (m c).2).
Proof.
  unfold raised. destruct (m c) as [[a|e'] c1]; simpl; [done|by intros [= ->]].
Qed.

Section AlbumRuns.
Context `{Host}.

Lemma genre_name_of_run genres c :
  genre_name_of genres c
  = (match genres with
     | (_ :: _) as first_genre :: _ =>
         match genre_names_from_links c !! first_genre with
         | Some genre_name => Ok (Some genre_name)
         | None => Raise KeyError
         end
     | _ => Ok None
     end, c).
Proof.
  unfold genre_name_of. destruct genres as [|[|x g] gs]; try done.
  unfold bind, get, or_raise.
  by destruct (genre_names_from_links c !! (x :: g)).
Qed.

(** The three steps of [add_album_from_json] that may raise, and its one
    assignment to the cache. *)
Lemma add_album_from_json_run j c :
  add_album_from_json j c
  = match id_from_link (AlbumJson.link j) with
    | None => (Raise ValueError, c)
    | Some album_id =>
        match (genre_name_of (AlbumJson.genres j) c).1 with
        | Raise e => (Raise e, c)
        | Ok genre_name =>
            match mapM track_from_json (AlbumJson.tracks j) with
            | None => (Raise ValueError, c)
            | Some ts =>
                let a :=
                  Album.mk album_id (AlbumJson.artist j) (AlbumJson.title j)
                    (AlbumJson.releasedate j) (AlbumJson.artwork_link j) genre_name
                    (AlbumJson.numberdisks j) (sort_by track_sort_key ts)
                    (anchor_of (AlbumJson.artist j)) in
                (Ok a, set_album_details (<[album_id := a]> (album_details c)) c)
            end
        end
    end.
Proof.
  unfold add_album_from_json, bind.
  destruct (id_from_link (AlbumJson.link j)) as [album_id|]; [|done]. simpl.
  pose proof (genre_name_of_run (AlbumJson.genres j) c) as Hg.
  destruct (genre_name_of (AlbumJson.genres j) c) as [[genre_name|e] c0];
    injection Hg as _ ->; simpl; [|done].
  by destruct (mapM track_from_json (AlbumJson.tracks j)).
Qed.

Lemma genre_name_of_set_album_details genres v c :
  (genre_name_of genres (set_album_details v c)).1 = (genre_name_of genres c).1.
Proof. by rewrite !genre_name_of_run. Qed.

Lemma tracks_normalisable (tracks : list TrackJson.t) :
  is_Some (mapM track_from_json tracks)
  <-> Forall (fun t => is_Some (id_from_link (TrackJson.link t))) tracks.
Proof.
  rewrite mapM_is_Some. apply Forall_iff. intros t. unfold track_from_json. simpl.
  destruct (id_from_link (TrackJson.link t)); simpl; split; intros [? ?]; eauto; done.
Qed.

End AlbumRuns.

Lemma add_album_from_json_cases `{Host} (album_json : AlbumJson.t)
    (c : Cache) :
  match add_album_from_json album_json c with
  | (Ok album, c') =>
      normalisable album_json c /\
      c' = set_album_details (<[Album.id album := album]> (album_details c)) c
  | (Raise e, c') => ~ normalisable album_json c /\ c' = c /\ data_fault e
  end.
Proof.
  rewrite add_album_from_json_run, genre_name_of_run. unfold normalisable.
  pose proof (tracks_normalisable (AlbumJson.tracks album_json)) as Ht.
  destruct (id_from_link (AlbumJson.link album_json)) as [album_id|]; simpl.
  2: { split; [by intros [[? ?] _]|]. split; [done|by left]. }
  assert (forall P : Prop, P -> mapM track_from_json (AlbumJson.tracks album_json) = None ->
          ~ (is_Some (Some album_id) /\ P /\
             Forall (fun t => is_Some (id_from_link (TrackJson.link t)))
               (AlbumJson.tracks album_json))) as Hno.
  { intros P _ Hts (_ & _ & Hf). apply Ht in Hf as [ts Hf]. congruence. }
  destruct (AlbumJson.genres album_json) as [|[|x g] gs].
  - destruct (mapM track_from_json _) as [ts|] eqn:Hts; simpl.
    + split; [|done]. split; [done|]. split; [done|]. apply Ht. eauto.
    + split; [by apply Hno|]. split; [done|by left].
  - destruct (mapM track_from_json _) as [ts|] eqn:Hts; simpl.
    + split; [|done]. split; [done|]. split; [done|]. apply Ht. eauto.
    + split; [by apply Hno|]. split; [done|by left].
  - destruct (genre_names_from_links c !! (x :: g)) as [genre_name|] eqn:Hg.
    + destruct (mapM track_from_json _) as [ts|] eqn:Hts; simpl.
      * split; [|done]. split; [done|]. split; [done|]. apply Ht. eauto.
      * split; [by apply Hno|]. split; [done|by left].
    + simpl. split; [by intros (_ & [? ?] & _)|]. split; [done|by right].
Qed.

(** X8. [add_album_from_json] does all or nothing. It returns exactly on
    the payloads whose link and track links have a [/] and whose first
    genre link, unless empty or missing, is in the genre index, and then
    its one effect is the entry of [album_details] under the id of the
    album; on any other payload it raises [ValueError] or [KeyError] and
    leaves the cache as it was. *)
Theorem add_album_from_json_all_or_nothing `{Host} (album_json : AlbumJson.t)
    (c : Cache) :
  match add_album_from_json album_json c with
  | (Ok album, c') =>
      normalisable album_json c /\
      c' = set_album_details (<[Album.id album := album]> (album_details c)) c
  | (Raise e, c') => ~ normalisable album_json c /\ c' = c /\ data_fault e
  end.
Proof. apply add_album_from_json_cases. Qed.

(** X9. Normalising a payload twice is the same as once: a second
    [add_album_from_json] of a payload, from the cache the first one left,
    returns the same album and leaves that cache as it is. *)
Theorem add_album_from_json_idempotent `{Host} (album_json : AlbumJson.t)
    (c c1 : Cache) (album : Album.t) :
  add_album_from_json album_json c = (Ok album, c1) ->
  add_album_from_json album_json c1 = (Ok album, c1).
Proof.
  rewrite !add_album_from_json_run.
  destruct (id_from_link (AlbumJson.link album_json)) as [album_id|]; [|done].
  destruct ((genre_name_of (AlbumJson.genres album_json) c).1)
    as [genre_name|e] eqn:Hg; [|done].
  destruct (mapM track_from_json (AlbumJson.tracks album_json)) as [ts|]; [|done].
  intros [= <- <-]. rewrite genre_name_of_set_album_details, Hg. simpl. f_equal.
  unfold set_album_details. simpl. by rewrite insert_insert_eq.
Qed.

Lemma add_album_from_json_idempotent_witness :
  returned (add_album_from_json (H:=demo_host) album_A demo_indexed) = true /\
  add_album_from_json (H:=demo_host) album_A
    (add_album_from_json (H:=demo_host) album_A demo_indexed).2
  = add_album_from_json (H:=demo_host) album_A demo_indexed.
Proof.
  destruct (returned_run (add_album_from_json (H:=demo_host) album_A) demo_indexed)
    as (a & c1 & Hrun); [vm_compute; reflexivity|].
  split; [vm_compute; reflexivity|].
  rewrite Hrun. simpl.
  apply (add_album_from_json_idempotent album_A demo_indexed c1 a Hrun).
Defined.

(** ** Which status a call aborts with *)

Section AbortCodes.
Context `{Host}.

Lemma raises_in_weaken {A} (P Q : exn -> Prop) (m : M A) :
  (forall e, P e -> Q e) -> raises_in P m -> raises_in Q m.
Proof. intros HPQ Hm c e c' Hr. eapply HPQ, Hm, Hr. Qed.

Lemma raises_in_requests_get (P : exn -> Prop) url :
  P ConnectionError -> raises_in P (requests_get url).
Proof.
  intros HP c e c'. unfold requests_get.
  destruct (http_get _ _); [done|by intros [= <- _]].
Qed.

Lemma data_fault_abort_only code e : data_fault e -> abort_only code e.
Proof. by intros [-> | ->] code'. Qed.

Lemma add_album_aborts code j : raises_in (abort_only code) (add_album_from_json j).
Proof.
  eapply raises_in_weaken; [apply data_fault_abort_only|apply add_album_raises].
Qed.

Lemma add_artist_aborts code m : raises_in (abort_only code) (add_artist_from_json m).
Proof.
  eapply raises_in_weaken; [|apply add_artist_raises].
  intros e [->|He]; [done|by apply data_fault_abort_only].
Qed.

End AbortCodes.

(** One step of a run whose exceptions all have a property. *)
Ltac exn_step :=
  lazymatch goal with
  | |- raises_in _ (bind _ _) => apply raises_in_bind; [|intros ?]
  | |- raises_in _ (ret _) => apply raises_in_ret
  | |- raises_in _ get => apply raises_in_get
  | |- raises_in _ (modify _) => apply raises_in_modify
  | |- raises_in _ (raise _) =>
      apply raises_in_raise; first [discriminate | by intros ? [= <-]]
  | |- raises_in _ (or_raise _ _) =>
      apply raises_in_or_raise; first [discriminate | by intros ? [=]]
  | |- raises_in _ (requests_get _) =>
      apply raises_in_requests_get; first [discriminate | by intros ? [=]]
  | |- raises_in _ (foldM _ _ _) => apply raises_in_foldM; intros ? ?
  | |- raises_in _ (match ?x with _ => _ end) => destruct x
  | |- raises_in _ (if ?x then _ else _) => destruct x
  end.

Section AbortCodesOfCalls.
Context `{Host}.

Lemma ensure_genre_cache_aborts code : raises_in (abort_only code) ensure_genre_cache.
Proof. unfold ensure_genre_cache, index_server_genre. repeat exn_step. Qed.

Lemma ensure_genre_contents_cache_aborts genre_name :
  raises_in (abort_only 500) (ensure_genre_contents_cache genre_name).
Proof.
  pose proof (ensure_genre_cache_aborts 500). pose proof (add_album_aborts 500).
  unfold ensure_genre_contents_cache, albums_in_genre_item, fetch_genre_link.
  repeat first [done | exn_step].
Qed.

Lemma ensure_album_cache_aborts album_id :
  raises_in (abort_only 500) (ensure_album_cache album_id).
Proof.
  pose proof (ensure_genre_cache_aborts 500). pose proof (add_album_aborts 500).
  unfold ensure_album_cache. repeat first [done | exn_step].
Qed.

Lemma ensure_artist_cache_aborts artist :
  raises_in (abort_only 404) (ensure_artist_cache artist).
Proof.
  pose proof (ensure_genre_cache_aborts 404). pose proof (add_artist_aborts 404).
  unfold ensure_artist_cache. repeat first [done | exn_step].
Qed.

End AbortCodesOfCalls.

(** X10. The only HTTP errors the cache raises itself are the ones of its
    three [abort] calls: status 500 from the genre listing and the album
    lookup, status 404 from the artist lookup, and none from the genre
    index (whose failures are other exceptions). *)
Theorem abort_status `{Host} (k : call) (c c' : Cache) (code : Z) :
  run k c = (Raise (HTTPAbort code), c') ->
  match k with
  | EnsureGenreCache => False
  | EnsureGenreContentsCache _ | EnsureAlbumCache _ => code = 500
  | EnsureArtistCache _ => code = 404
  end.
Proof.
  destruct k as [|g|album_id|artist]; simpl;
    intros [Hr|(a & c1 & _ & Hr)]%bind_Raise; try done.
  - pose proof (ensure_genre_cache_aborts 0 _ _ _ Hr code eq_refl) as H0.
    pose proof (ensure_genre_cache_aborts 1 _ _ _ Hr code eq_refl) as H1.
    lia.
  - by apply (ensure_genre_contents_cache_aborts _ _ _ _ Hr).
  - by apply (ensure_album_cache_aborts _ _ _ _ Hr).
  - by apply (ensure_artist_cache_aborts _ _ _ _ Hr).
Qed.

Lemma abort_status_witness :
  raised (run (H:=demo_host) (EnsureArtistCache (py "Zed")) init)
  = Some (HTTPAbort 404) /\ 404 = 404.
Proof.
  split; [vm_compute; reflexivity|].
  apply (abort_status (H:=demo_host) (EnsureArtistCache (py "Zed")) init
           (run (H:=demo_host) (EnsureArtistCache (py "Zed")) init).2 404).
  apply (raised_run (H:=demo_host) (run (EnsureArtistCache (py "Zed"))) init).
  vm_compute. reflexivity.
Defined.

(** ** Runs as triples *)

Section Triples.
Context `{Host}.

Lemma triple_ret {A} (P : Cache -> Prop) (a : A) Q I :
  (forall c, P c -> Q a c) -> triple P (ret a) Q I.
Proof. intros HQ c Hc. by apply HQ. Qed.

Lemma triple_raise {A} (P : Cache -> Prop) e (Q : A -> Cache -> Prop) (I : Cache -> Prop) :
  (forall c, P c -> I c) -> triple P (raise e) Q I.
Proof. intros HI c Hc. by apply HI. Qed.

Lemma triple_get (P : Cache -> Prop) Q I :
  (forall c, P c -> Q c c) -> triple P get Q I.
Proof. intros HQ c Hc. by apply HQ. Qed.

Lemma triple_modify (P : Cache -> Prop) f Q I :
  (forall c, P c -> Q tt (f c)) -> triple P (modify f) Q I.
Proof. intros HQ c Hc. by apply HQ. Qed.

Lemma triple_or_raise {A} (P : Cache -> Prop) e (o : option A) Q (I : Cache -> Prop) :
  (forall a c, o = Some a -> P c -> Q a c) -> (forall c, o = None -> P c -> I c) ->
  triple P (or_raise e o) Q I.
Proof. intros HQ HI c Hc. destruct o as [a|]; simpl; [by apply HQ|by apply HI]. Qed.

Lemma triple_bind {A B} (P : Cache -> Prop) (m : M A) Q (f : A -> M B) Q' I :
  triple P m Q I -> (forall a, triple (Q a) (f a) Q' I) -> triple P (bind m f) Q' I.
Proof.
  intros Hm Hf c Hc. specialize (Hm c Hc). unfold bind.
  destruct (m c) as [[a|e] c1]; [|done]. by apply Hf.
Qed.

Lemma triple_foldM {A B} (Inv : B -> Cache -> Prop) I (f : B -> A -> M B) l b :
  (forall b x, triple (Inv b) (f b x) Inv I) -> triple (Inv b) (foldM f b l) Inv I.
Proof.
  intros Hf. revert b. induction l as [|x l IH]; intros b; simpl.
  - by apply triple_ret.
  - eapply triple_bind; [apply Hf|]. intros b'. apply IH.
Qed.

Lemma triple_conseq {A} (P P' : Cache -> Prop) (m : M A) (Q Q' : A -> Cache -> Prop)
    (I I' : Cache -> Prop) :
  triple P m Q I -> (forall c, P' c -> P c) -> (forall a c, Q a c -> Q' a c) ->
  (forall c, I c -> I' c) -> triple P' m Q' I'.
Proof.
  intros Hm HP HQ HI c Hc. specialize (Hm c (HP c Hc)).
  destruct (m c) as [[a|e] c1]; [by apply HQ|by apply HI].
Qed.

(** A run that keeps an observation keeps what depends on it alone. *)
Lemma triple_keeps {A B} (f : Cache -> B) (P : Cache -> Prop) (m : M A) :
  keeps f m -> (forall c c', f c' = f c -> P c -> P c') ->
  triple P m (fun _ => P) P.
Proof.
  intros Hk HP c Hc. specialize (Hk c).
  destruct (m c) as [[a|e] c1]; simpl in Hk; by apply (HP c).
Qed.

Lemma triple_run {A} (P : Cache -> Prop) (m : M A) Q I c a c' :
  triple P m Q I -> P c -> m c = (Ok a, c') -> Q a c'.
Proof. intros Hm Hc Hrun. specialize (Hm c Hc). by rewrite Hrun in Hm. Qed.

Lemma triple_snd {A} (P : Cache -> Prop) (m : M A) (I : Cache -> Prop) c :
  triple P m (fun _ => I) I -> P c -> I (m c).2.
Proof. intros Hm Hc. specialize (Hm c Hc). by destruct (m c) as [[a|e] c1]. Qed.

End Triples.

(** One step of a run that keeps a predicate of the cache. *)
Ltac inv_step :=
  cbv beta;
  lazymatch goal with
  | |- triple ?P (bind _ _) _ _ => apply (triple_bind P _ (fun _ => P)); [|intros ?]
  | |- triple _ (ret _) _ _ => apply triple_ret; intros ? ?; assumption
  | |- triple _ (raise _) _ _ => apply triple_raise; intros ? ?; assumption
  | |- triple _ get _ _ => apply triple_get; intros ? ?; assumption
  | |- triple _ (or_raise _ _) _ _ =>
      apply triple_or_raise; [intros ? ? _ ?|intros ? _ ?]; assumption
  | |- triple _ (modify _) _ _ => apply triple_modify; intros ? ?; auto
  | |- triple ?P (foldM _ _ _) _ _ => apply (triple_foldM (fun _ => P)); intros ? ?
  | |- triple _ (match ?x with _ => _ end) _ _ => destruct x
  | |- triple _ (if ?x then _ else _) _ _ => destruct x
  end.

(** ** A failed listing is not cached *)

Section ListingFailure.
Context `{Host}.

Lemma fetch_links_keeps_albums_in_genre d links :
  keeps albums_in_genre (foldM fetch_genre_link d links).
Proof. apply keeps_foldM. intros. apply fetch_genre_link_keeps_albums_in_genre. Qed.

Lemma ensure_genre_contents_cache_Raise g c e c' :
  ensure_genre_contents_cache g c = (Raise e, c') ->
  albums_in_genre c' = albums_in_genre c.
Proof.
  unfold ensure_genre_contents_cache.
  intros [Hidx|([] & c0 & Hidx & Hrun)]%bind_Raise.
  - apply (keeps_run albums_in_genre _ _ _ _
             ensure_genre_cache_keeps_albums_in_genre Hidx).
  - rewrite <- (keeps_run albums_in_genre _ _ _ _
                  ensure_genre_cache_keeps_albums_in_genre Hidx).
    apply bind_Raise in Hrun as [[=]|(? & ? & [-> ->]%get_Ok & Hrun)].
    destruct (albums_in_genre c0 !! g) as [l0|] eqn:Hl0.
    + apply bind_Raise in Hrun as [Hrun|(? & ? & _ & [=])].
      by rewrite (albums_in_genre_item_hit _ _ _ Hl0) in Hrun.
    + apply bind_Raise in Hrun as [Hrun|(links & ? & [Hgl ->]%or_raise_Ok & Hrun)].
      { by destruct (genre_links c0); injection Hrun as _ <-. }
      destruct (links !! g) as [server_links|]; [|done].
      apply bind_Raise in Hrun as [Hrun|(d & c2 & Hloop & Hrun)].
      { apply (keeps_run albums_in_genre _ _ _ _
                 (fetch_links_keeps_albums_in_genre _ _) Hrun). }
      apply bind_Raise in Hrun as [[=]|([] & c3 & ->%modify_Ok & Hrun)].
      apply bind_Raise in Hrun as [Hrun|(? & ? & _ & [=])].
      by rewrite (albums_in_genre_item_hit _ _
                    (sort_by get_album_sort_order (map snd d))) in Hrun
        by (simpl; apply lookup_insert_eq).
Qed.

End ListingFailure.

(** X11. A listing that could not be completed is not cached, not even in
    part: when [ensure_genre_contents_cache] raises, whatever the reason
    (a link that fails, a payload that cannot be normalised),
    [albums_in_genre] is as before the call, so the next call for the
    genre fetches again. *)
Theorem failed_listing_not_cached `{Host} (genre_name : pystr) (c c' : Cache)
    (e : exn) :
  ensure_genre_contents_cache genre_name c = (Raise e, c') ->
  albums_in_genre c' = albums_in_genre c.
Proof. apply ensure_genre_contents_cache_Raise. Qed.

Lemma failed_listing_not_cached_witness :
  raised (ensure_genre_contents_cache (H:=dropping_host 2) (py "Rock") init)
  = Some ConnectionError /\
  albums_in_genre (ensure_genre_contents_cache (H:=dropping_host 2) (py "Rock") init).2
  = albums_in_genre (init (H:=dropping_host 2)).
Proof.
  split; [vm_compute; reflexivity|].
  apply (failed_listing_not_cached (H:=dropping_host 2) (py "Rock") init
           (ensure_genre_contents_cache (H:=dropping_host 2) (py "Rock") init).2
           ConnectionError).
  apply (raised_run (H:=dropping_host 2) (ensure_genre_contents_cache (py "Rock")) init).
  vm_compute. reflexivity.
Defined.

(** ** The genre page *)

Lemma dict_get_snoc {V} (x : pystr) (d : list (pystr * V)) (k : pystr) (v : V) :
  dict_get x (d ++ [(k, v)])
  = match dict_get x d with
    | Some i => Some i
    | None => if decide (k = x) then Some v else None
    end.
Proof.
  induction d as [|[k' v'] d IH]; simpl; [done|].
  by destruct (decide (k' = x)).
Qed.

Lemma first_album_step_get (x : pystr) (d : list (pystr * pystr)) (a : Album.t) :
  dict_get x (first_album_step d a)
  = match dict_get x d with
    | Some i => Some i
    | None => if decide (Album.anchor a = x) then Some (Album.id a) else None
    end.
Proof.
  unfold first_album_step.
  destruct (dict_get (Album.anchor a) d) as [i|] eqn:Ha.
  - destruct (dict_get x d) as [i'|] eqn:Hx; [done|].
    destruct (decide (Album.anchor a = x)) as [<-|]; [congruence|done].
  - apply dict_get_snoc.
Qed.

Lemma first_album_fold (x : pystr) (l : list Album.t) : forall d,
  dict_get x (fold_left first_album_step l d)
  = match dict_get x d with
    | Some i => Some i
    | None => (fun p => Album.id p.2) <$> list_find (fun a => Album.anchor a = x) l
    end.
Proof.
  induction l as [|a l IH]; intros d; simpl.
  - by destruct (dict_get x d).
  - rewrite IH, first_album_step_get.
    destruct (dict_get x d) as [i|]; [done|].
    destruct (decide (Album.anchor a = x)) as [Ha|Ha]; [done|].
    by destruct (list_find (fun a => Album.anchor a = x) l) as [[k b]|].
Qed.

Lemma have_anchors_get (x : pystr) (albums : list Album.t) (names : list pystr) :
  dict_get x (map (fun anchor =>
                     (anchor, bool_decide (anchor ∈ map Album.anchor albums))) names)
  = if decide (x ∈ names)
    then Some (bool_decide (x ∈ map Album.anchor albums)) else None.
Proof.
  induction names as [|k names IH]; cbn [map dict_get].
  - destruct (decide (x ∈ [])) as [Hin|]; [by apply elem_of_nil in Hin|done].
  - rewrite IH.
    destruct (decide (k = x)) as [->|Hne], (decide (x ∈ names)) as [Hin|Hnin],
      (decide (x ∈ _ :: names)) as [Hin'|Hnin']; try done.
    all: first [ by destruct Hnin'; left | by destruct Hnin'; right
               | by apply elem_of_cons in Hin' as [?|?] ].
Qed.

Lemma first_album_is_Some (x : pystr) (albums : list Album.t) :
  is_Some (dict_get x (first_album_for_anchor_of albums))
  <-> x ∈ map Album.anchor albums.
Proof.
  unfold first_album_for_anchor_of. rewrite first_album_fold. simpl.
  rewrite fmap_is_Some. split.
  - intros [[n a] (Hn & Ha & _)%list_find_Some].
    apply list_elem_of_fmap. exists a. split; [done|].
    by apply list_elem_of_lookup_2 in Hn.
  - intros (a & -> & Hin)%list_elem_of_fmap.
    destruct (list_find (fun b => Album.anchor b = Album.anchor a) albums)
      as [p|] eqn:Hf; [eauto|].
    apply list_find_None in Hf. rewrite Forall_forall in Hf.
    by destruct (Hf a Hin).
Qed.

(** X12. The page of a genre marks the right anchors. [have_anchors] has
    one entry for each of the 27 anchor names, [num] and the letters, in
    that order; the entry is true exactly when [first_album_for_anchor]
    has an entry for the name; and [first_album_for_anchor] maps an anchor
    to the id of the first album of the listing that has it. The albums of
    the page are the listing the cache returned. *)
Theorem get_genre_anchors `{Host} (genre_name : pystr) (c c' : Cache)
    (page : GenrePage.t) :
  get_genre genre_name c = (Ok page, c') ->
  ensure_genre_contents_cache genre_name c = (Ok (Some (GenrePage.albums page)), c') /\
  map fst (GenrePage.have_anchors page) = anchor_names /\
  (forall x, x ∈ anchor_names ->
     exists b, dict_get x (GenrePage.have_anchors page) = Some b /\
       (b = true <-> is_Some (dict_get x (GenrePage.first_album_for_anchor page)))) /\
  (forall x i,
     dict_get x (GenrePage.first_album_for_anchor page) = Some i <->
     exists n a,
       GenrePage.albums page !! n = Some a /\ Album.anchor a = x /\ Album.id a = i /\
       forall j b, GenrePage.albums page !! j = Some b -> (j < n)%nat ->
                   Album.anchor b <> x).
Proof.
  unfold get_genre. intros (r & c1 & Hrun & Hpage)%bind_Ok.
  destruct r as [albums|]; [|done]. apply ret_Ok in Hpage as [<- <-].
  cbn [GenrePage.albums GenrePage.have_anchors GenrePage.first_album_for_anchor].
  split; [done|]. split; [|split].
  - unfold have_anchors_of. generalize anchor_names. intros names.
    induction names as [|k names IH]; [done|]. cbn [map fst]. by rewrite IH.
  - intros x Hx. unfold have_anchors_of. rewrite have_anchors_get.
    destruct (decide (x ∈ anchor_names)); [|done]. eexists. split; [done|].
    rewrite bool_decide_eq_true. symmetry. apply first_album_is_Some.
  - intros x i. unfold first_album_for_anchor_of. rewrite first_album_fold.
    cbn [dict_get]. split.
    + destruct (list_find _ albums) as [[n a]|] eqn:Hf; [|done].
      simpl. intros [= <-]. apply list_find_Some in Hf as (Hn & Ha & Hfirst).
      exists n, a. eauto.
    + intros (n & a & Hn & Ha & Hi & Hfirst).
      assert (list_find (fun a => Album.anchor a = x) albums = Some (n, a)) as ->.
      { apply list_find_Some. eauto. }
      simpl. by rewrite Hi.
Qed.

Lemma get_genre_anchors_witness :
  exists page,
    (get_genre (H:=demo_host) (py "Rock") init).1 = Ok page /\
    map fst (GenrePage.have_anchors page) = anchor_names /\
    (forall x, x ∈ anchor_names ->
       exists b, dict_get x (GenrePage.have_anchors page) = Some b /\
         (b = true <-> is_Some (dict_get x (GenrePage.first_album_for_anchor page)))).
Proof.
  destruct (returned_run (get_genre (H:=demo_host) (py "Rock")) init)
    as (page & c' & Hrun); [vm_compute; reflexivity|].
  exists page. rewrite Hrun. split; [done|].
  destruct (get_genre_anchors (H:=demo_host) (py "Rock") init c' page Hrun)
    as (_ & Hkeys & Hhave & _).
  by split.
Defined.

(** X13. The genre page answers [404] exactly for a genre that the genre
    index does not list: [get_genre] aborts with 404 if and only if the
    cache returned [None] for the genre, and then the cache is as the
    call for the listing left it. Upstream failures never show as 404. *)
Theorem get_genre_not_found `{Host} (genre_name : pystr) (c c' : Cache) :
  get_genre genre_name c = (Raise (HTTPAbort 404), c')
  <-> ensure_genre_contents_cache genre_name c = (Ok None, c').
Proof.
  unfold get_genre. rewrite bind_Raise. split.
  - intros [Hr|(r & c1 & Hrun & Hr)].
    + by pose proof (ensure_genre_contents_cache_aborts _ _ _ _ Hr 404 eq_refl).
    + destruct r as [albums|]; [done|]. by injection Hr as <-.
  - intros Hrun. right. by exists None, c'.
Qed.

(** ** An invariant of the tables *)

Lemma dict_set_values (k : pystr) (v : Album.t) (d : list (pystr * Album.t))
    (y : Album.t) :
  y ∈ map snd (dict_set k v d) -> y = v \/ y ∈ map snd d.
Proof.
  induction d as [|[k' v'] d IH]; simpl.
  - intros ->%list_elem_of_singleton. by left.
  - case_decide as Hk; simpl.
    + intros [->|Hy]%elem_of_cons; [by left|]. right. by right.
    + intros [->|Hy]%elem_of_cons; [right; by left|].
      destruct (IH Hy) as [->|?]; [by left|]. right. by right.
Qed.

Section CacheInvariant.
Context `{Host}.

Local Abbreviation tables :=
  (fun c : Cache => (album_details c, artist_details c, albums_in_genre c)).

Lemma cache_ok_tables c c' : tables c' = tables c -> cache_ok c -> cache_ok c'.
Proof.
  intros [= Ha Hr Hg]. unfold cache_ok, cached. by rewrite Ha, Hr, Hg.
Qed.

Lemma ok_with_tables l c c' :
  tables c' = tables c -> cache_ok c /\ cached l c -> cache_ok c' /\ cached l c'.
Proof.
  intros Ht [Hok Hl]. split; [by apply (cache_ok_tables c)|].
  injection Ht as Ha _ _. unfold cached. by rewrite Ha.
Qed.

Lemma keeps_tables {A} (m : M A) :
  keeps album_details m -> keeps artist_details m -> keeps albums_in_genre m ->
  keeps tables m.
Proof. intros Ha Hr Hg c. by rewrite Ha, Hr, Hg. Qed.

Lemma requests_get_keeps_tables url : keeps tables (requests_get url).
Proof. apply keeps_tables; keeps_tac. Qed.

Lemma ensure_genre_cache_keeps_tables : keeps tables ensure_genre_cache.
Proof.
  apply keeps_tables;
    [apply ensure_genre_cache_keeps_album_details
    |apply ensure_genre_cache_keeps_artist_details
    |apply ensure_genre_cache_keeps_albums_in_genre].
Qed.

Lemma requests_get_ok url : triple cache_ok (requests_get url) (fun _ => cache_ok) cache_ok.
Proof.
  apply (triple_keeps tables); [apply requests_get_keeps_tables|].
  apply cache_ok_tables.
Qed.

Lemma ensure_genre_cache_ok : triple cache_ok ensure_genre_cache (fun _ => cache_ok) cache_ok.
Proof.
  apply (triple_keeps tables); [apply ensure_genre_cache_keeps_tables|].
  apply cache_ok_tables.
Qed.

Lemma cached_insert l c k a :
  cached l c -> cached l (set_album_details (<[k := a]> (album_details c)) c).
Proof.
  intros Hl x Hx. simpl. rewrite lookup_insert_is_Some'. right. by apply Hl.
Qed.

Lemma cache_ok_insert_album c a :
  cache_ok c -> sorted_by track_sort_key (Album.tracks a) ->
  cache_ok (set_album_details (<[Album.id a := a]> (album_details c)) c).
Proof.
  intros (Ha & Hr & Hg) Hsorted. split; [|split].
  - intros k a' Hl. simpl in Hl.
    apply lookup_insert_Some in Hl as [[<- <-]|[Hne Hl]]; [done|by apply Ha].
  - intros k r Hl. simpl in Hl. destruct (Hr k r Hl) as (? & ? & Hc).
    split; [done|]. split; [done|]. by apply cached_insert.
  - intros g l Hl. simpl in Hl. apply cached_insert. by apply (Hg g).
Qed.

Lemma cache_ok_insert_artist c name l :
  cache_ok c -> cached l c ->
  cache_ok (set_artist_details
              (<[str_lower name := Artist.mk name (sort_by artist_album_sort_key l)]>
                 (artist_details c)) c).
Proof.
  intros (Ha & Hr & Hg) Hl. split; [|split].
  - exact Ha.
  - intros k r Hk. simpl in Hk.
    apply lookup_insert_Some in Hk as [[<- <-]|[Hne Hk]].
    + split; [done|]. split; [apply sort_by_sorted|].
      intros x Hx. simpl in Hx. rewrite sort_by_elem_of in Hx. by apply Hl.
    + destruct (Hr k r Hk) as (? & ? & Hc). done.
  - exact Hg.
Qed.

Lemma cache_ok_insert_listing c g l :
  cache_ok c -> cached l c ->
  cache_ok (set_albums_in_genre (<[g := l]> (albums_in_genre c)) c).
Proof.
  intros (Ha & Hr & Hg) Hl. split; [|split].
  - exact Ha.
  - exact Hr.
  - intros g' l' Hk. simpl in Hk.
    apply lookup_insert_Some in Hk as [[<- <-]|[Hne Hk]]; [done|by apply (Hg g')].
Qed.

Lemma add_album_ok l j :
  triple (fun c => cache_ok c /\ cached l c) (add_album_from_json j)
    (fun a c => cache_ok c /\ cached (a :: l) c) cache_ok.
Proof.
  intros c [Hok Hl]. rewrite add_album_from_json_run.
  destruct (id_from_link (AlbumJson.link j)) as [album_id|]; [|done].
  destruct ((genre_name_of (AlbumJson.genres j) c).1) as [genre_name|e]; [|done].
  destruct (mapM track_from_json (AlbumJson.tracks j)) as [ts|]; [|done].
  cbv zeta. split.
  - apply (cache_ok_insert_album c (Album.mk album_id _ _ _ _ _ _ _ _)); [done|].
    apply sort_by_sorted.
  - intros x [->|Hx]%elem_of_cons.
    + simpl. rewrite lookup_insert_eq. eauto.
    + by apply (cached_insert l c).
Qed.

Lemma add_album_cache_ok j :
  triple cache_ok (add_album_from_json j) (fun _ => cache_ok) cache_ok.
Proof.
  eapply triple_conseq; [apply (add_album_ok [])| | |done].
  - intros c Hc. split; [done|]. by intros a Ha%elem_of_nil.
  - by intros a c [Hc _].
Qed.

Lemma normalize_into_ok l js :
  triple (fun c => cache_ok c /\ cached l c) (normalize_into l js)
    (fun l' c => cache_ok c /\ cached l' c) cache_ok.
Proof.
  unfold normalize_into.
  apply (triple_foldM (fun l c => cache_ok c /\ cached l c)). intros b x.
  eapply triple_bind; [apply add_album_ok|]. intros a. apply triple_ret.
  intros c [Hok Hc]. split; [done|]. intros y Hy. apply Hc.
  apply elem_of_app in Hy as [Hy|Hy]; [by right|].
  apply list_elem_of_singleton in Hy as ->. by left.
Qed.

Lemma artist_groups_ok m :
  triple cache_ok (artist_groups m)
    (fun locals c => cache_ok c /\ cached locals.2 c) cache_ok.
Proof.
  unfold artist_groups.
  eapply triple_conseq;
    [apply (triple_foldM (fun acc c => cache_ok c /\ cached acc.2 c) cache_ok)
    | |intros a c Hc; exact Hc|done].
  - intros acc group. eapply triple_bind; [apply normalize_into_ok|].
    intros albums. by apply triple_ret.
  - intros c Hc. split; [done|]. by intros a Ha%elem_of_nil.
Qed.

Lemma add_artist_ok m :
  triple cache_ok (add_artist_from_json m) (fun _ => cache_ok) cache_ok.
Proof.
  unfold add_artist_from_json.
  eapply triple_bind; [apply artist_groups_ok|]. intros locals.
  apply (triple_bind _ _ (fun _ c => cache_ok c /\ cached locals.2 c)).
  - apply triple_or_raise; [by intros|by intros c _ [? _]].
  - intros name. apply triple_modify. intros c [Hok Hc].
    by apply cache_ok_insert_artist.
Qed.

Lemma fetch_genre_link_ok d link :
  triple (fun c => cache_ok c /\ cached (map snd d) c) (fetch_genre_link d link)
    (fun d' c => cache_ok c /\ cached (map snd d') c) cache_ok.
Proof.
  unfold fetch_genre_link.
  apply (triple_bind _ _ (fun _ c => cache_ok c /\ cached (map snd d) c)).
  { intros c Hc. pose proof (requests_get_keeps_tables (genre_url link) c) as Hk.
    destruct (requests_get (genre_url link) c) as [[r|e] c1]; simpl in Hk.
    - by apply (ok_with_tables _ c).
    - by apply (ok_with_tables (map snd d) c). }
  intros resp. destruct (negb (status_code resp =? 200)).
  { apply triple_raise. by intros c [? _]. }
  apply (triple_bind _ _ (fun _ c => cache_ok c /\ cached (map snd d) c)).
  { destruct (json resp); first [by apply triple_ret|apply triple_raise; by intros c [? _]]. }
  intros genre_albums.
  apply (triple_foldM (fun d c => cache_ok c /\ cached (map snd d) c)). intros b x.
  eapply triple_bind; [apply add_album_ok|]. intros a. apply triple_ret.
  intros c [Hok Hc]. split; [done|]. intros y Hy. apply Hc.
  apply dict_set_values in Hy as [->|Hy]; [by left|by right].
Qed.

Lemma albums_in_genre_item_ok g :
  triple cache_ok (albums_in_genre_item g) (fun _ => cache_ok) cache_ok.
Proof.
  unfold albums_in_genre_item.
  apply (triple_bind _ _ (fun c0 c => cache_ok c /\ c0 = c)).
  { by apply triple_get. }
  intros c0. destruct (albums_in_genre c0 !! g).
  { apply triple_ret. by intros c [? _]. }
  apply (triple_bind _ _ (fun _ => cache_ok)).
  - apply triple_modify. intros c [Hok ->].
    apply (cache_ok_insert_listing c g []); [done|]. by intros a Ha%elem_of_nil.
  - intros _. by apply triple_ret.
Qed.

Lemma ensure_genre_contents_cache_ok g :
  triple cache_ok (ensure_genre_contents_cache g) (fun _ => cache_ok) cache_ok.
Proof.
  pose proof ensure_genre_cache_ok. pose proof (albums_in_genre_item_ok g).
  unfold ensure_genre_contents_cache.
  inv_step; [done|]. inv_step; [inv_step|].
  destruct (albums_in_genre a0 !! g); [repeat first [done | inv_step]|].
  inv_step; [inv_step|].
  destruct (a1 !! g) as [server_links|]; [|inv_step].
  apply (triple_bind _ _ (fun d c => cache_ok c /\ cached (map snd d) c)).
  { eapply triple_conseq;
      [apply (triple_foldM (fun d c => cache_ok c /\ cached (map snd d) c) cache_ok)
      | |intros d c Hc; exact Hc|done].
    - intros d link. apply fetch_genre_link_ok.
    - intros c Hc. split; [done|]. by intros a' Ha%elem_of_nil. }
  intros d. apply (triple_bind _ _ (fun _ => cache_ok)).
  { apply triple_modify. intros c [Hok Hc]. apply cache_ok_insert_listing; [done|].
    intros x Hx. rewrite sort_by_elem_of in Hx. by apply Hc. }
  intros _. repeat first [done | inv_step].
Qed.

Lemma ensure_album_cache_ok album_id :
  triple cache_ok (ensure_album_cache album_id) (fun _ => cache_ok) cache_ok.
Proof.
  pose proof ensure_genre_cache_ok. pose proof requests_get_ok.
  pose proof add_album_cache_ok.
  unfold ensure_album_cache. repeat first [done | inv_step].
Qed.

Lemma ensure_artist_cache_ok artist :
  triple cache_ok (ensure_artist_cache artist) (fun _ => cache_ok) cache_ok.
Proof.
  pose proof ensure_genre_cache_ok. pose proof requests_get_ok.
  pose proof add_artist_ok.
  unfold ensure_artist_cache. repeat first [done | inv_step].
Qed.

Lemma run_ok k : triple cache_ok (run k) (fun _ => cache_ok) cache_ok.
Proof.
  pose proof ensure_genre_cache_ok. pose proof ensure_genre_contents_cache_ok.
  pose proof ensure_album_cache_ok. pose proof ensure_artist_cache_ok.
  destruct k; simpl; repeat first [done | inv_step].
Qed.

Lemma reachable_cache_ok c : reachable c -> cache_ok c.
Proof.
  induction 1 as [|k c Hc IH].
  - split; [|split]; intros ? ? Hl; simpl in Hl; by rewrite lookup_empty in Hl.
  - by apply (triple_snd cache_ok (run k) cache_ok c (run_ok k)).
Qed.

End CacheInvariant.

(** ** What the lookups return *)

(** X14. In any cache the process can be in, the album that
    [ensure_album_cache] returns has the id that was asked for, whether
    it was cached or fetched, and its tracks are in order. *)
Theorem album_cache_returns_requested `{Host} (album_id : pystr) (c c1 : Cache)
    (album : Album.t) :
  reachable c ->
  ensure_album_cache album_id c = (Ok album, c1) ->
  Album.id album = album_id /\ sorted_by track_sort_key (Album.tracks album).
Proof.
  intros Hc Hrun.
  pose proof (triple_run _ _ _ _ _ _ _ (ensure_album_cache_ok album_id)
                (reachable_cache_ok c Hc) Hrun) as (Ha & _).
  apply ensure_album_cache_Ok in Hrun as [_ Hl]. by apply Ha.
Qed.

Lemma album_cache_returns_requested_witness :
  exists album,
    (ensure_album_cache (H:=demo_host) (py "10") init).1 = Ok album /\
    Album.id album = py "10" /\ sorted_by track_sort_key (Album.tracks album).
Proof.
  destruct (returned_run (ensure_album_cache (H:=demo_host) (py "10")) init)
    as (album & c1 & Hrun); [vm_compute; reflexivity|].
  exists album. rewrite Hrun. split; [done|].
  apply (album_cache_returns_requested (py "10") init c1 album); [|done].
  apply reachable_init.
Defined.

(** X15. In any cache the process can be in, the artist that
    [ensure_artist_cache] returns has the name that was asked for, up to
    case, and the albums in order of year. *)
Theorem artist_cache_returns_requested `{Host} (artist : pystr) (c c1 : Cache)
    (r : Artist.t) :
  reachable c ->
  ensure_artist_cache artist c = (Ok r, c1) ->
  str_lower (Artist.name r) = str_lower artist /\
  sorted_by artist_album_sort_key (Artist.albums r).
Proof.
  intros Hc Hrun.
  pose proof (triple_run _ _ _ _ _ _ _ (ensure_artist_cache_ok artist)
                (reachable_cache_ok c Hc) Hrun) as (_ & Hr & _).
  apply ensure_artist_cache_Ok in Hrun as [_ Hl].
  destruct (Hr _ _ Hl) as (Hk & Hs & _). done.
Qed.

Lemma artist_cache_returns_requested_witness :
  exists r,
    (ensure_artist_cache (H:=demo_host) (py "Bob") init).1 = Ok r /\
    str_lower (H:=demo_host) (Artist.name r) = str_lower (H:=demo_host) (py "Bob") /\
    sorted_by artist_album_sort_key (Artist.albums r).
Proof.
  destruct (returned_run (ensure_artist_cache (H:=demo_host) (py "Bob")) init)
    as (r & c1 & Hrun); [vm_compute; reflexivity|].
  exists r. rewrite Hrun. split; [done|].
  apply (artist_cache_returns_requested (py "Bob") init c1 r); [|done].
  apply reachable_init.
Defined.

(** X16. Every album of a genre page opens without a request: after
    [ensure_genre_contents_cache] returned a listing, [ensure_album_cache]
    for the id of any of its albums returns an album of that id and
    leaves the cache, and with it the list of requests made, as it is. *)
Theorem listed_album_is_cached `{Host} (genre_name : pystr) (c c1 : Cache)
    (l : list Album.t) (album : Album.t) :
  reachable c ->
  ensure_genre_contents_cache genre_name c = (Ok (Some l), c1) ->
  album ∈ l ->
  exists album',
    ensure_album_cache (Album.id album) c1 = (Ok album', c1) /\
    Album.id album' = Album.id album.
Proof.
  intros Hc Hrun Hin.
  pose proof (triple_run _ _ _ _ _ _ _ (ensure_genre_contents_cache_ok genre_name)
                (reachable_cache_ok c Hc) Hrun) as (Ha & _ & Hg).
  apply ensure_genre_contents_cache_Ok in Hrun
    as [Hd [(l' & [= <-] & Hl)|([=] & _)]].
  destruct (Hg _ _ Hl album Hin) as [album' Hk]. exists album'.
  split; [by apply ensure_album_cache_hit|]. by apply Ha.
Qed.

Lemma listed_album_is_cached_witness :
  exists l c1,
    ensure_genre_contents_cache (H:=demo_host) (py "Rock") init = (Ok (Some l), c1) /\
    forall album, album ∈ l ->
      exists album',
        ensure_album_cache (Album.id album) c1 = (Ok album', c1) /\
        Album.id album' = Album.id album.
Proof.
  destruct (returned_some (ensure_genre_contents_cache (H:=demo_host) (py "Rock")) init)
    as (l & c1 & Hrun); [vm_compute; reflexivity|].
  exists l, c1. split; [done|]. intros album Hin.
  apply (listed_album_is_cached (py "Rock") init c1 l album); [|done|done].
  apply reachable_init.
Defined.

(** X17. Every album of an artist page opens without a request: after
    [ensure_artist_cache] returned an artist, [ensure_album_cache] for the
    id of any of the artist's albums returns an album of that id and
    leaves the cache as it is. *)
Theorem artist_album_is_cached `{Host} (artist : pystr) (c c1 : Cache)
    (r : Artist.t) (album : Album.t) :
  reachable c ->
  ensure_artist_cache artist c = (Ok r, c1) ->
  album ∈ Artist.albums r ->
  exists album',
    ensure_album_cache (Album.id album) c1 = (Ok album', c1) /\
    Album.id album' = Album.id album.
Proof.
  intros Hc Hrun Hin.
  pose proof (triple_run _ _ _ _ _ _ _ (ensure_artist_cache_ok artist)
                (reachable_cache_ok c Hc) Hrun) as (Ha & Hr & _).
  apply ensure_artist_cache_Ok in Hrun as [Hd Hl].
  destruct (Hr _ _ Hl) as (_ & _ & Hcached).
  destruct (Hcached album Hin) as [album' Hk]. exists album'.
  split; [by apply ensure_album_cache_hit|]. by apply Ha.
Qed.

Lemma artist_album_is_cached_witness :
  exists r c1,
    ensure_artist_cache (H:=demo_host) (py "Bob") init = (Ok r, c1) /\
    forall album, album ∈ Artist.albums r ->
      exists album',
        ensure_album_cache (Album.id album) c1 = (Ok album', c1) /\
        Album.id album' = Album.id album.
Proof.
  destruct (returned_run (ensure_artist_cache (H:=demo_host) (py "Bob")) init)
    as (r & c1 & Hrun); [vm_compute; reflexivity|].
  exists r, c1. split; [done|]. intros album Hin.
  apply (artist_album_is_cached (py "Bob") init c1 r album); [|done|done].
  apply reachable_init.
Defined.

(** X18. The artist cache is blind to case: once [ensure_artist_cache]
    returned an artist, a call with any spelling that lower-cases to the
    same string returns the same artist from the cache, with no request
    and no change of the cache. *)
Theorem artist_cache_ignores_case `{Host} (artist artist' : pystr) (c c1 : Cache)
    (r : Artist.t) :
  ensure_artist_cache artist c = (Ok r, c1) ->
  str_lower artist' = str_lower artist ->
  ensure_artist_cache artist' c1 = (Ok r, c1).
Proof.
  intros [Hd Hl]%ensure_artist_cache_Ok Hcase.
  apply ensure_artist_cache_hit; [done|]. by rewrite Hcase.
Qed.

Lemma artist_cache_ignores_case_witness :
  exists r c1,
    ensure_artist_cache (H:=demo_host) (py "Bob") init = (Ok r, c1) /\
    ensure_artist_cache (H:=demo_host) (py "BOB") c1 = (Ok r, c1).
Proof.
  destruct (returned_run (ensure_artist_cache (H:=demo_host) (py "Bob")) init)
    as (r & c1 & Hrun); [vm_compute; reflexivity|].
  exists r, c1. split; [done|].
  apply (artist_cache_ignores_case (py "Bob") (py "BOB") init c1 r Hrun).
  vm_compute. reflexivity.
Defined.

(** X19. An album that the server serves under another id is cached
    under its own id, and the lookup fails: when the album route of
    [album_id] answers with an album whose link ends in another id, a
    call of [ensure_album_cache] that has to fetch raises [KeyError], after
    it stored the album in [album_details] under the id of its link. *)
Theorem album_under_other_id `{Host} (album_id i : pystr) (c : Cache)
    (album_json : AlbumJson.t) :
  is_Some (display_genres c) ->
  album_details c !! album_id = None ->
  http_get (length (requests_made c)) (album_url album_id)
    = Some (mkResponse 200 (AlbumDetailJson album_json)) ->
  normalisable album_json c ->
  id_from_link (AlbumJson.link album_json) = Some i ->
  i <> album_id ->
  exists album c1,
    ensure_album_cache album_id c = (Raise KeyError, c1) /\
    Album.id album = i /\
    album_details c1 = <[i := album]> (album_details c).
Proof.
  intros Hd Hmiss Hget Hnorm Hid Hne.
  rewrite (ensure_album_cache_miss album_id c c _ (ensure_genre_cache_hit c Hd)
             Hmiss Hget).
  simpl. unfold bind, get, ret.
  pose proof (add_album_from_json_cases album_json (requested (album_url album_id) c))
    as Hcases.
  pose proof (add_album_from_json_run album_json (requested (album_url album_id) c))
    as Hshape.
  destruct (add_album_from_json album_json (requested (album_url album_id) c))
    as [[album|e] c1].
  2: { destruct Hcases as [Hn _]. destruct (Hn Hnorm). }
  destruct Hcases as [_ ->].
  assert (Album.id album = i) as Hi.
  { rewrite Hid in Hshape.
    destruct ((genre_name_of _ _).1); [|done]. destruct (mapM _ _); [|done].
    by injection Hshape as -> _. }
  exists album. eexists. simpl.
  rewrite Hi, lookup_insert_ne, Hmiss by done. simpl. done.
Qed.

Lemma album_under_other_id_witness :
  exists album c1,
    ensure_album_cache (H:=mixed_up_host) (py "7")
      (ensure_genre_cache (H:=mixed_up_host) init).2 = (Raise KeyError, c1) /\
    Album.id album = py "10" /\
    album_details c1
    = <[py "10" := album]>
        (album_details (ensure_genre_cache (H:=mixed_up_host) init).2).
Proof.
  apply (album_under_other_id (H:=mixed_up_host) (py "7") (py "10")
           (ensure_genre_cache (H:=mixed_up_host) init).2 album_A).
  - assert (match display_genres (ensure_genre_cache (H:=mixed_up_host) init).2 with
            | Some _ => true | None => false end = true) as Hs
      by (vm_compute; reflexivity).
    by destruct (display_genres (ensure_genre_cache (H:=mixed_up_host) init).2).
  - rewrite ensure_genre_cache_keeps_album_details. apply lookup_empty.
  - vm_compute. reflexivity.
  - split; [by eexists|]. split; [|by repeat constructor].
    assert (match genre_names_from_links (ensure_genre_cache (H:=mixed_up_host) init).2
                  !! py "/genres/1" with Some _ => true | None => false end = true)
      as Hs by (vm_compute; reflexivity).
    simpl.
    by destruct (genre_names_from_links (ensure_genre_cache (H:=mixed_up_host) init).2
                   !! py "/genres/1").
  - vm_compute. reflexivity.
  - discriminate.
Defined.

(** ** Loading the genre index *)

Section GenreIndex.
Context `{Host}.

Local Abbreviation shown_as sg := (display_genre_of (ServerGenre.name sg)).

Lemma index_server_genre_run names sg c links :
  genre_links c = Some links ->
  index_server_genre names sg c
  = (Ok (set_add (shown_as sg) names),
     set_genre_names_from_links
       (<[ServerGenre.link sg := shown_as sg]> (genre_names_from_links c))
       (set_genre_links
          (Some (<[shown_as sg := default [] (links !! shown_as sg)
                                  ++ [ServerGenre.link sg]]> links)) c)).
Proof.
  intros Hgl. unfold index_server_genre, bind, get, or_raise, modify, ret.
  by rewrite Hgl.
Qed.

Lemma links_of_cons g sg l :
  links_of g (sg :: l)
  = (if decide (shown_as sg = g) then [ServerGenre.link sg] else []) ++ links_of g l.
Proof.
  unfold links_of. simpl.
  destruct (bool_decide_reflect (shown_as sg = g)) as [Hg|Hg];
    by destruct (decide (shown_as sg = g)).
Qed.

Lemma genres_with_link_cons k sg l :
  genres_with_link k (sg :: l)
  = if decide (ServerGenre.link sg = k) then sg :: genres_with_link k l
    else genres_with_link k l.
Proof.
  unfold genres_with_link. simpl.
  destruct (bool_decide_reflect (ServerGenre.link sg = k)) as [Hg|Hg];
    by destruct (decide (ServerGenre.link sg = k)).
Qed.

Lemma elem_of_set_add x y s : x ∈ set_add y s <-> x = y \/ x ∈ s.
Proof.
  unfold set_add. destruct (decide (y ∈ s)) as [Hy|Hy].
  - split; [by right|]. by intros [->|?].
  - rewrite elem_of_app, list_elem_of_singleton. tauto.
Qed.

Lemma NoDup_set_add y s : NoDup s -> NoDup (set_add y s).
Proof.
  intros Hs. unfold set_add. destruct (decide (y ∈ s)) as [Hy|Hy]; [done|].
  apply NoDup_app. split; [done|]. split; [|apply NoDup_singleton].
  by intros x Hx ->%list_elem_of_singleton.
Qed.

(** The loop of lines 47-59 never raises; what it leaves in
    [genre_links], [genre_names_from_links] and [display_names_set]. *)
Lemma index_loop l : forall names c links,
  genre_links c = Some links ->
  exists names' c' links',
    foldM index_server_genre names l c = (Ok names', c') /\
    genre_links c' = Some links' /\
    (forall g, default [] (links' !! g) = default [] (links !! g) ++ links_of g l) /\
    (forall g, is_Some (links' !! g) <-> is_Some (links !! g) \/ links_of g l <> []) /\
    (forall k, genre_names_from_links c' !! k
               = match last (genres_with_link k l) with
                 | Some sg => Some (shown_as sg)
                 | None => genre_names_from_links c !! k
                 end) /\
    (forall x, x ∈ names' <-> x ∈ names \/ exists sg, sg ∈ l /\ shown_as sg = x) /\
    (NoDup names -> NoDup names').
Proof.
  induction l as [|sg l IH]; intros names c links Hgl.
  - exists names, c, links. split; [done|]. split; [done|].
    split; [intros g; by rewrite app_nil_r|].
    split; [intros g; split; [by left|by intros [?|?]]|].
    split; [done|]. split; [|done].
    intros x. split; [by left|]. intros [?|(sg & Hsg%elem_of_nil & _)]; done.
  - cbn [foldM]. unfold bind at 1. rewrite (index_server_genre_run _ _ _ _ Hgl).
    set (links1 := <[shown_as sg := default [] (links !! shown_as sg)
                                    ++ [ServerGenre.link sg]]> links).
    set (c1 := set_genre_names_from_links _ _).
    destruct (IH (set_add (shown_as sg) names) c1 links1 eq_refl)
      as (names' & c' & links' & Hrun & Hgl' & Hlinks & Hkeys & Hfrom & Hnames & Hnodup).
    exists names', c', links'. split; [done|]. split; [done|].
    split; [|split; [|split; [|split]]].
    + intros g. rewrite Hlinks, links_of_cons, app_assoc. f_equal.
      unfold links1. destruct (decide (shown_as sg = g)) as [<-|Hne].
      * by rewrite lookup_insert_eq.
      * by rewrite lookup_insert_ne, app_nil_r.
    + intros g. rewrite Hkeys, links_of_cons. unfold links1.
      rewrite lookup_insert_is_Some'.
      destruct (decide (shown_as sg = g)) as [Hg|Hg]; simpl; [|tauto].
      split; [intros _; by right|intros _; by left; left].
    + intros k. rewrite Hfrom, genres_with_link_cons.
      destruct (decide (ServerGenre.link sg = k)) as [<-|Hne].
      * destruct (genres_with_link (ServerGenre.link sg) l) as [|sg' rest] eqn:Hrest.
        -- simpl. unfold c1. simpl. by rewrite lookup_insert_eq.
        -- rewrite last_cons_cons.
           destruct (last (sg' :: rest)) eqn:Hlast; [done|by apply last_None in Hlast].
      * destruct (last (genres_with_link k l)); [done|].
        unfold c1. simpl. by rewrite lookup_insert_ne.
    + intros x. rewrite Hnames, elem_of_set_add. split.
      * intros [[->|Hx]|(sg' & Hin & Hsg')].
        -- right. exists sg. split; [by left|done].
        -- by left.
        -- right. exists sg'. split; [by right|done].
      * intros [Hx|(sg' & [->|Hin]%elem_of_cons & Hsg')].
        -- left. by right.
        -- left. by left.
        -- right. eauto.
    + intros Hn. by apply Hnodup, NoDup_set_add.
Qed.

Lemma index_loop_keeps {B} (f : Cache -> B) names l :
  (forall v c, f (set_genre_links v c) = f c) ->
  (forall v c, f (set_genre_names_from_links v c) = f c) ->
  keeps f (foldM index_server_genre names l).
Proof.
  intros Hl Hn. apply keeps_foldM. intros. by apply index_server_genre_keeps.
Qed.

(** The steps of [ensure_genre_cache] when the index is not loaded. *)
Lemma ensure_genre_cache_miss c :
  display_genres c = None ->
  ensure_genre_cache c
  = let c1 := requested (server ++ py "/genres") c in
    match http_get (length (requests_made c)) (server ++ py "/genres") with
    | None => (Raise ConnectionError, c1)
    | Some resp =>
        if negb (status_code resp =? 200) then (Raise UnableToConnect, c1)
        else
          match json resp with
          | GenresJson l =>
              bind (foldM index_server_genre [] l) (fun display_names_set =>
                bind (or_raise KeyError (sorted_display_names display_names_set))
                  (fun names =>
                     bind (modify (set_display_names (Some names))) (fun _ =>
                       bind (or_raise KeyError (mapM GENRE_VIEWS names)) (fun views =>
                         modify (set_display_genres (Some views))))))
                (set_genre_links (Some ∅) c1)
          | _ => (Raise TypeError, set_genre_links (Some ∅) c1)
          end
    end.
Proof.
  intros Hd. unfold ensure_genre_cache, bind at 1, get. rewrite Hd.
  unfold bind at 1, requests_get.
  destruct (http_get _ _) as [resp|]; [|done].
  destruct (negb (status_code resp =? 200)); [done|].
  unfold bind at 1, modify. unfold bind at 1.
  by destruct (json resp).
Qed.

(** What a load of the genre index did, when it returned. *)
Lemma ensure_genre_cache_loaded c c1 :
  display_genres c = None ->
  ensure_genre_cache c = (Ok tt, c1) ->
  exists l names_set ranked views links,
    http_get (length (requests_made c)) (server ++ py "/genres")
      = Some (mkResponse 200 (GenresJson l)) /\
    genre_links c1 = Some links /\
    (forall g, default [] (links !! g) = links_of g l) /\
    (forall g, is_Some (links !! g) <-> links_of g l <> []) /\
    (forall k, genre_names_from_links c1 !! k
               = match last (genres_with_link k l) with
                 | Some sg => Some (shown_as sg)
                 | None => genre_names_from_links c !! k
                 end) /\
    NoDup names_set /\
    (forall x, x ∈ names_set <-> exists sg, sg ∈ l /\ shown_as sg = x) /\
    mapM (fun dn => r ← GENRE_SORT_ORDER dn; Some (r, dn)) names_set = Some ranked /\
    display_names c1 = Some (map snd (sort_by fst ranked)) /\
    mapM GENRE_VIEWS (map snd (sort_by fst ranked)) = Some views /\
    display_genres c1 = Some views.
Proof.
  intros Hd. rewrite (ensure_genre_cache_miss c Hd). cbv zeta.
  destruct (http_get _ _) as [[status body]|]; [|done]. simpl.
  destruct (Z.eqb_spec status 200) as [->|]; [|done]. simpl.
  destruct body as [l| | |]; try done.
  set (c0 := set_genre_links (Some ∅) (requested (server ++ py "/genres") c)).
  destruct (index_loop l [] c0 ∅ eq_refl)
    as (names_set & c2 & links & Hloop & Hgl & Hlinks & Hkeys & Hfrom & Hnames & Hnodup).
  unfold bind at 1. rewrite Hloop.
  unfold sorted_display_names.
  destruct (mapM (fun dn => r ← GENRE_SORT_ORDER dn; Some (r, dn)) names_set)
    as [ranked|] eqn:Hranked; [|done].
  simpl. unfold bind at 1. simpl. unfold bind at 1, modify. unfold bind at 1.
  destruct (mapM GENRE_VIEWS (map snd (sort_by fst ranked))) as [views|] eqn:Hviews;
    [|done].
  simpl. intros [= <-].
  exists l, names_set, ranked, views, links. simpl.
  split; [done|]. split; [done|].
  split; [intros g; by rewrite Hlinks, lookup_empty|].
  split.
  { intros g. rewrite Hkeys, lookup_empty. split; [|by right].
    intros [[? [=]]|?]; done. }
  split; [done|]. split; [apply Hnodup; constructor|].
  split; [|done].
  intros x. rewrite Hnames. split; [|by right].
  intros [?%elem_of_nil|?]; done.
Qed.

Lemma ranked_names (names_set : list pystr) (ranked : list (Z * pystr)) :
  mapM (fun dn => r ← GENRE_SORT_ORDER dn; Some (r, dn)) names_set = Some ranked ->
  map snd ranked = names_set /\
  Forall (fun p => GENRE_SORT_ORDER p.2 = Some p.1) ranked.
Proof.
  intros Hm%mapM_Some. induction Hm as [|dn p names_set ranked Hp _ [IH1 IH2]].
  - by split.
  - destruct (GENRE_SORT_ORDER dn) as [r|] eqn:Hr; [|done].
    injection Hp as <-. simpl. rewrite IH1. split; [done|]. by constructor.
Qed.

(** A load of the genre index that raises. *)
Lemma ensure_genre_cache_Raise c e c' :
  ensure_genre_cache c = (Raise e, c') ->
  display_genres c = None /\ display_genres c' = None /\
  requests_made c' = (server ++ py "/genres") :: requests_made c /\
  e ∈ [ConnectionError; UnableToConnect; TypeError; KeyError].
Proof.
  destruct (display_genres c) as [v|] eqn:Hd.
  { rewrite ensure_genre_cache_hit by eauto. done. }
  rewrite (ensure_genre_cache_miss c Hd). cbv zeta.
  intros Hrun. split; [done|]. revert Hrun.
  destruct (http_get _ _) as [[status body]|]; simpl.
  2: { intros [= <- <-]. simpl. split; [done|]. split; [done|]. by left. }
  destruct (negb (status =? 200)).
  { intros [= <- <-]. simpl. split; [done|]. split; [done|]. right. by left. }
  destruct body as [l| | |].
  2-4: intros [= <- <-]; simpl; (split; [done|]); (split; [done|]);
       right; right; by left.
  set (c0 := set_genre_links (Some ∅) (requested (server ++ py "/genres") c)).
  destruct (index_loop l [] c0 ∅ eq_refl) as (names_set & c2 & links & Hloop & _).
  pose proof (keeps_run display_genres _ _ _ _
                (index_loop_keeps display_genres [] l (fun _ _ => eq_refl)
                   (fun _ _ => eq_refl)) Hloop) as Hd2.
  pose proof (keeps_run requests_made _ _ _ _
                (index_loop_keeps requests_made [] l (fun _ _ => eq_refl)
                   (fun _ _ => eq_refl)) Hloop) as Hr2.
  unfold bind at 1. rewrite Hloop.
  destruct (sorted_display_names names_set) as [names|]; simpl.
  2: { intros [= <- <-]. split; [by rewrite Hd2|]. split; [by rewrite Hr2|].
       do 3 right. by left. }
  unfold bind at 1. simpl. unfold bind at 1. unfold modify at 1.
  destruct (mapM GENRE_VIEWS names) as [views|]; simpl; [done|].
  intros [= <- <-]. simpl. split; [by rewrite Hd2|]. split; [by rewrite Hr2|].
  do 3 right. by left.
Qed.

End GenreIndex.

(** X20. A load of the genre index that fails is not cached. When
    [ensure_genre_cache] raises, it has made exactly one request, the one
    for [/genres]; [display_genres] is still [None], so the next call
    loads again; the tables of albums, artists and listings are as they
    were; and the exception is one of the connection error of [requests],
    the exception of line 43, a payload of the wrong shape, or the
    [KeyError] of a display genre without rank or view, never an abort. *)
Theorem genre_index_failure_not_cached `{Host} (c c' : Cache) (e : exn) :
  ensure_genre_cache c = (Raise e, c') ->
  display_genres c' = None /\
  requests_made c' = (server ++ py "/genres") :: requests_made c /\
  album_details c' = album_details c /\
  artist_details c' = artist_details c /\
  albums_in_genre c' = albums_in_genre c /\
  e ∈ [ConnectionError; UnableToConnect; TypeError; KeyError].
Proof.
  intros Hrun.
  pose proof (keeps_run album_details _ _ _ _
                ensure_genre_cache_keeps_album_details Hrun).
  pose proof (keeps_run artist_details _ _ _ _
                ensure_genre_cache_keeps_artist_details Hrun).
  pose proof (keeps_run albums_in_genre _ _ _ _
                ensure_genre_cache_keeps_albums_in_genre Hrun).
  apply ensure_genre_cache_Raise in Hrun as (_ & ? & ? & ?). done.
Qed.

Lemma genre_index_failure_not_cached_witness :
  raised (ensure_genre_cache (H:=dropping_host 0) init) = Some ConnectionError /\
  display_genres (ensure_genre_cache (H:=dropping_host 0) init).2 = None /\
  requests_made (ensure_genre_cache (H:=dropping_host 0) init).2
  = [py "http://piju:5000/genres"].
Proof.
  split; [vm_compute; reflexivity|].
  destruct (genre_index_failure_not_cached (H:=dropping_host 0) init
              (ensure_genre_cache (H:=dropping_host 0) init).2 ConnectionError)
    as (Hd & Hr & _).
  - apply (raised_run (H:=dropping_host 0) ensure_genre_cache init).
    vm_compute. reflexivity.
  - split; [exact Hd|exact Hr].
Defined.

(** X21. After a load of the genre index, [genre_links] files the links
    of the [/genres] document under the display genres: the entry of a
    display genre is the list of the links of the server genres shown
    under it, in the order of the document, and a display genre that no
    server genre maps to has no entry. Links of an earlier load are gone. *)
Theorem genre_index_links `{Host} (c c1 : Cache) :
  display_genres c = None ->
  ensure_genre_cache c = (Ok tt, c1) ->
  exists server_genre_json links,
    http_get (length (requests_made c)) (server ++ py "/genres")
      = Some (mkResponse 200 (GenresJson server_genre_json)) /\
    genre_links c1 = Some links /\
    forall g, links !! g = match links_of g server_genre_json with
                           | [] => None
                           | (_ :: _) as server_links => Some server_links
                           end.
Proof.
  intros Hd Hrun.
  destruct (ensure_genre_cache_loaded c c1 Hd Hrun)
    as (l & names_set & ranked & views & links & Hget & Hgl & Hlinks & Hkeys & _).
  exists l, links. split; [done|]. split; [done|]. intros g.
  specialize (Hlinks g). specialize (Hkeys g).
  destruct (links !! g) as [ls|] eqn:Hg; simpl in Hlinks.
  - rewrite <- Hlinks. destruct ls; [|done].
    destruct (proj1 Hkeys); [by eexists|done].
  - by rewrite <- Hlinks.
Qed.

Lemma genre_index_links_witness :
  exists server_genre_json links,
    http_get (Host:=demo_host) (length (requests_made (init (H:=demo_host))))
      (server (Host:=demo_host) ++ py "/genres")
      = Some (mkResponse 200 (GenresJson server_genre_json)) /\
    genre_links demo_indexed = Some links /\
    forall g, links !! g = match links_of (H:=demo_host) g server_genre_json with
                           | [] => None
                           | (_ :: _) as server_links => Some server_links
                           end.
Proof.
  apply (genre_index_links (H:=demo_host) init demo_indexed).
  - reflexivity.
  - apply demo_indexed_run.
Defined.

(** X22. After a load of the genre index, [display_names] holds each
    display genre of the [/genres] document once, in ascending order of
    [GENRE_SORT_ORDER], and [display_genres] holds their views, in the
    same order. *)
Theorem genre_index_display_names `{Host} (c c1 : Cache) :
  display_genres c = None ->
  ensure_genre_cache c = (Ok tt, c1) ->
  exists server_genre_json names views,
    http_get (length (requests_made c)) (server ++ py "/genres")
      = Some (mkResponse 200 (GenresJson server_genre_json)) /\
    display_names c1 = Some names /\
    display_genres c1 = Some views /\
    NoDup names /\
    (forall dn, dn ∈ names <->
       exists server_genre, server_genre ∈ server_genre_json /\
         display_genre_of (ServerGenre.name server_genre) = dn) /\
    Forall2 (fun dn view => GENRE_VIEWS dn = Some view) names views /\
    (forall i j dn dn', names !! i = Some dn -> names !! j = Some dn' -> (i < j)%nat ->
       exists r r', GENRE_SORT_ORDER dn = Some r /\ GENRE_SORT_ORDER dn' = Some r' /\
                    r <= r').
Proof.
  intros Hd Hrun.
  destruct (ensure_genre_cache_loaded c c1 Hd Hrun)
    as (l & names_set & ranked & views & links & Hget & _ & _ & _ & _
        & Hnodup & Hnames & Hranked & Hdn & Hviews & Hdg).
  destruct (ranked_names _ _ Hranked) as [Hsnd Hrank].
  exists l, (map snd (sort_by fst ranked)), views.
  split; [done|]. split; [done|]. split; [done|].
  assert (map snd (sort_by fst ranked) ≡ₚ names_set) as Hperm.
  { rewrite <- Hsnd. apply fmap_Permutation, sort_by_perm. }
  split; [by rewrite Hperm|].
  split; [intros dn; by rewrite Hperm|].
  split; [by apply mapM_Some|].
  intros i j dn dn' Hi Hj Hij.
  apply list_lookup_fmap_Some in Hi as ([r x] & -> & Hi).
  apply list_lookup_fmap_Some in Hj as ([r' x'] & -> & Hj).
  exists r, r'.
  assert (forall p, p ∈ sort_by fst ranked -> GENRE_SORT_ORDER p.2 = Some p.1) as Hr.
  { intros p Hp. rewrite sort_by_elem_of in Hp. rewrite Forall_forall in Hrank.
    by apply Hrank. }
  split; [apply (Hr (r, x)); by eapply list_elem_of_lookup_2|].
  split; [apply (Hr (r', x')); by eapply list_elem_of_lookup_2|].
  pose proof (sorted_by_lookup fst _ i j _ _ (sort_by_sorted fst ranked) Hi Hj Hij)
    as Hle.
  unfold key_leb, key_ltb, Z_key in Hle. simpl in Hle.
  apply negb_true_iff, Z.ltb_ge in Hle. done.
Qed.

Lemma genre_index_display_names_witness :
  exists server_genre_json names views,
    http_get (Host:=demo_host) (length (requests_made (init (H:=demo_host))))
      (server (Host:=demo_host) ++ py "/genres")
      = Some (mkResponse 200 (GenresJson server_genre_json)) /\
    display_names demo_indexed = Some names /\
    display_genres demo_indexed = Some views /\
    NoDup names /\
    (forall dn, dn ∈ names <->
       exists server_genre, server_genre ∈ server_genre_json /\
         display_genre_of (H:=demo_host) (ServerGenre.name server_genre) = dn) /\
    Forall2 (fun dn view => GENRE_VIEWS (Host:=demo_host) dn = Some view) names views /\
    (forall i j dn dn', names !! i = Some dn -> names !! j = Some dn' -> (i < j)%nat ->
       exists r r', GENRE_SORT_ORDER (Host:=demo_host) dn = Some r /\
                    GENRE_SORT_ORDER (Host:=demo_host) dn' = Some r' /\ r <= r').
Proof.
  apply (genre_index_display_names (H:=demo_host) init demo_indexed).
  - reflexivity.
  - apply demo_indexed_run.
Defined.

(** X23. After a load of the genre index, [genre_names_from_links] maps
    every link of the [/genres] document to the display genre of the last
    server genre listed with that link; the entry of any other link is as
    it was before the load: the mapping is never cleared. *)
Theorem genre_index_names_from_links `{Host} (c c1 : Cache) :
  display_genres c = None ->
  ensure_genre_cache c = (Ok tt, c1) ->
  exists server_genre_json,
    http_get (length (requests_made c)) (server ++ py "/genres")
      = Some (mkResponse 200 (GenresJson server_genre_json)) /\
    forall link,
      genre_names_from_links c1 !! link
      = match last (genres_with_link link server_genre_json) with
        | Some server_genre => Some (display_genre_of (ServerGenre.name server_genre))
        | None => genre_names_from_links c !! link
        end.
Proof.
  intros Hd Hrun.
  destruct (ensure_genre_cache_loaded c c1 Hd Hrun)
    as (l & names_set & ranked & views & links & Hget & _ & _ & _ & Hfrom & _).
  by exists l.
Qed.

Lemma genre_index_names_from_links_witness :
  exists server_genre_json,
    http_get (Host:=demo_host) (length (requests_made (init (H:=demo_host))))
      (server (Host:=demo_host) ++ py "/genres")
      = Some (mkResponse 200 (GenresJson server_genre_json)) /\
    forall link,
      genre_names_from_links demo_indexed !! link
      = match last (genres_with_link link server_genre_json) with
        | Some server_genre =>
            Some (display_genre_of (H:=demo_host) (ServerGenre.name server_genre))
        | None => genre_names_from_links (init (H:=demo_host)) !! link
        end.
Proof.
  apply (genre_index_names_from_links (H:=demo_host) init demo_indexed).
  - reflexivity.
  - apply demo_indexed_run.
Defined.

(** ** What the log of the version check can hold *)

Lemma compare_fragments_records (host_isdigit : pystr -> bool)
    (host_int : pystr -> option Z) (R D : pystr) (l : list (pystr * pystr))
    (record : level * pystr) :
  record ∈ (compare_fragments host_isdigit host_int R D l).2 ->
  record = (WARNING, non_numeric) \/ record = (WARNING, newer_msg R D)
  \/ record = (ERROR, older_msg R D).
Proof.
  induction l as [|[r d] l IH]; simpl.
  - by intros ?%elem_of_nil.
  - destruct (negb (str_isdigit host_isdigit r) || negb (str_isdigit host_isdigit d)).
    + simpl. intros [->|Hin]%elem_of_cons; [by left|by apply IH].
    + destruct (str_int host_int r) as [x|]; [|by intros ?%elem_of_nil].
      destruct (str_int host_int d) as [y|]; [|by intros ?%elem_of_nil].
      destruct (x =? y); [done|].
      destruct (x <? y); simpl; intros ->%list_elem_of_singleton; tauto.
Qed.

(** X24. The version check logs an error in two cases only: the
    connection failed, or the server answered 200 with a version older
    than required. Every other finding (another status, no version, a
    fragment that is no number, a newer server) is a warning. *)
Theorem connection_test_errors (host_isdigit : pystr -> bool)
    (host_int : pystr -> option Z) (reply : root_reply)
    (required_api_version msg : pystr) :
  (ERROR, msg) ∈ (connection_test host_isdigit host_int reply required_api_version).2 ->
  (reply = ConnectionRefused /\ msg = unable_to_connect) \/
  exists api_version,
    reply = Replied 200 (Some api_version) /\
    msg = older_msg required_api_version api_version.
Proof.
  destruct reply as [|status [[|x v]|]]; simpl.
  - intros [= ->]%list_elem_of_singleton. by left.
  - destruct (negb (status =? 200)); by intros [=]%list_elem_of_singleton.
  - destruct (Z.eqb_spec status 200) as [->|]; simpl;
      [|by intros [=]%list_elem_of_singleton].
    intros [[=]|[[=]|[= ->]]]%compare_fragments_records. right. by eexists.
  - destruct (negb (status =? 200)); by intros [=]%list_elem_of_singleton.
Qed.

Lemma connection_test_errors_witness :
  (connection_test (fun _ => false) (fun _ => None) ConnectionRefused (py "2.0")).2
  = [(ERROR, unable_to_connect)] /\
  ((ConnectionRefused = ConnectionRefused /\ unable_to_connect = unable_to_connect) \/
   exists api_version,
     ConnectionRefused = Replied 200 (Some api_version) /\
     unable_to_connect = older_msg (py "2.0") api_version).
Proof.
  split; [reflexivity|].
  apply (connection_test_errors (fun _ => false) (fun _ => None) ConnectionRefused
           (py "2.0") unable_to_connect).
  by left.
Defined.

(** ** The genre index is there when it is read *)

Section IndexIsThere.
Context `{Host}.

Local Abbreviation no_attribute_error := (fun e : exn => e <> AttributeError).

Lemma add_album_no_attribute_error j :
  raises_in no_attribute_error (add_album_from_json j).
Proof.
  eapply raises_in_weaken; [|apply add_album_raises]. by intros e [-> | ->].
Qed.

Lemma add_artist_no_attribute_error m :
  raises_in no_attribute_error (add_artist_from_json m).
Proof.
  eapply raises_in_weaken; [|apply add_artist_raises].
  by intros e [->|[-> | ->]].
Qed.

Lemma ensure_genre_cache_no_attribute_error :
  raises_in no_attribute_error ensure_genre_cache.
Proof.
  intros c e c' (_ & _ & _ & He)%ensure_genre_cache_Raise ->.
  by repeat apply elem_of_cons in He as [?|He]; try apply elem_of_nil in He.
Qed.

Lemma reachable_index c :
  reachable c -> is_Some (display_genres c) -> is_Some (genre_links c).
Proof.
  induction 1 as [|k c Hc IH].
  - by intros [? ?].
  - destruct (ensure_genre_cache c) as [[[]|e] c0] eqn:Hidx.
    + destruct (run_effect k c c0 Hidx) as (-> & -> & _).
      destruct (display_genres c) as [v|] eqn:Hd.
      * rewrite ensure_genre_cache_hit in Hidx by eauto.
        injection Hidx as <-. rewrite Hd. intros _. apply IH. eauto.
      * destruct (ensure_genre_cache_loaded c c0 Hd Hidx)
          as (? & ? & ? & ? & links & _ & -> & _). eauto.
    + rewrite (run_index_raise _ _ _ _ Hidx).
      apply ensure_genre_cache_Raise in Hidx as (_ & -> & _). by intros [? ?].
Qed.

Lemma albums_in_genre_item_no_attribute_error (g : pystr) :
  raises_in no_attribute_error
    (bind (albums_in_genre_item g) (fun albums => ret (Some albums))).
Proof. unfold albums_in_genre_item. repeat first [done | exn_step]. Qed.

Lemma fetch_links_no_attribute_error (g : pystr) (links : gmap pystr (list pystr)) :
  raises_in no_attribute_error
    match links !! g with
    | Some server_links =>
        bind (foldM fetch_genre_link [] server_links) (fun albums =>
          bind (modify (fun c =>
                  set_albums_in_genre
                    (<[g := sort_by get_album_sort_order (map snd albums)]>
                       (albums_in_genre c)) c))
            (fun _ => bind (albums_in_genre_item g) (fun albums => ret (Some albums))))
    | None => ret None
    end.
Proof.
  pose proof add_album_no_attribute_error.
  pose proof (albums_in_genre_item_no_attribute_error g).
  unfold fetch_genre_link. repeat first [done | exn_step].
Qed.

Lemma ensure_genre_contents_cache_no_attribute_error g c e c' :
  reachable c ->
  ensure_genre_contents_cache g c = (Raise e, c') -> e <> AttributeError.
Proof.
  intros Hc. unfold ensure_genre_contents_cache.
  intros [Hidx|([] & c0 & Hidx & Hrun)]%bind_Raise.
  { by apply (ensure_genre_cache_no_attribute_error _ _ _ Hidx). }
  assert (is_Some (genre_links c0)) as [links Hgl].
  { pose proof (reachable_run EnsureGenreCache c Hc) as Hc0.
    simpl in Hc0. rewrite bind_snd, Hidx in Hc0. simpl in Hc0.
    apply (reachable_index c0 Hc0). by apply ensure_genre_cache_Ok in Hidx. }
  apply bind_Raise in Hrun as [[=]|(? & ? & [-> ->]%get_Ok & Hrun)].
  destruct (albums_in_genre c0 !! g).
  - by apply (albums_in_genre_item_no_attribute_error g _ _ _ Hrun).
  - rewrite Hgl in Hrun.
    apply bind_Raise in Hrun as [[=]|(links' & c2 & [_ ->]%or_raise_Ok & Hrun)].
    by apply (fetch_links_no_attribute_error g links' _ _ _ Hrun).
Qed.

Lemma ensure_album_cache_no_attribute_error album_id :
  raises_in no_attribute_error (ensure_album_cache album_id).
Proof.
  pose proof ensure_genre_cache_no_attribute_error.
  pose proof add_album_no_attribute_error.
  unfold ensure_album_cache. repeat first [done | exn_step].
Qed.

Lemma ensure_artist_cache_no_attribute_error artist :
  raises_in no_attribute_error (ensure_artist_cache artist).
Proof.
  pose proof ensure_genre_cache_no_attribute_error.
  pose proof add_artist_no_attribute_error.
  unfold ensure_artist_cache. repeat first [done | exn_step].
Qed.

End IndexIsThere.

(** X25. The genre index is there whenever it is read. In any cache the
    process can be in, no call raises [AttributeError]: [genre_links] is
    never [None] when [ensure_genre_contents_cache] or the loop of
    [ensure_genre_cache] reads it, also after loads that failed. *)
Theorem no_attribute_error_raised `{Host} (k : call) (c c' : Cache) (e : exn) :
  reachable c ->
  run k c = (Raise e, c') ->
  e <> AttributeError.
Proof.
  intros Hc. destruct k as [|g|album_id|artist]; simpl;
    intros [Hr|(a & c1 & _ & Hr)]%bind_Raise; try done.
  - by apply (ensure_genre_cache_no_attribute_error _ _ _ Hr).
  - by apply (ensure_genre_contents_cache_no_attribute_error g c e c' Hc).
  - by apply (ensure_album_cache_no_attribute_error _ _ _ _ Hr).
  - by apply (ensure_artist_cache_no_attribute_error _ _ _ _ Hr).
Qed.

Lemma no_attribute_error_raised_witness :
  raised (run (H:=dropping_host 2) (EnsureGenreContentsCache (py "Rock")) init)
  = Some ConnectionError /\ ConnectionError <> AttributeError.
Proof.
  split; [vm_compute; reflexivity|].
  apply (no_attribute_error_raised (H:=dropping_host 2)
           (EnsureGenreContentsCache (py "Rock")) init
           (run (H:=dropping_host 2) (EnsureGenreContentsCache (py "Rock")) init).2
           ConnectionError).
  - apply reachable_init.
  - apply (raised_run (H:=dropping_host 2)
             (run (EnsureGenreContentsCache (py "Rock"))) init).
    vm_compute. reflexivity.
Defined.

(** ** Where the requests go *)

Section Requests.
Context `{Host}.

Local Abbreviation on_server_only :=
  (fun c : Cache => Forall on_server (requests_made c)).

Lemma requests_get_on_server path :
  triple on_server_only (requests_get (server ++ path))
    (fun _ => on_server_only) on_server_only.
Proof.
  intros c Hc. unfold requests_get.
  destruct (http_get _ _); simpl; (constructor; [by exists path|done]).
Qed.

Lemma keeps_on_server {A} (m : M A) :
  keeps requests_made m -> triple on_server_only m (fun _ => on_server_only) on_server_only.
Proof.
  intros Hk. apply (triple_keeps requests_made); [done|].
  intros c c' Heq. by rewrite Heq.
Qed.

Lemma ensure_genre_cache_on_server :
  triple on_server_only ensure_genre_cache (fun _ => on_server_only) on_server_only.
Proof.
  pose proof (requests_get_on_server (py "/genres")).
  assert (forall names g, triple on_server_only (index_server_genre names g)
                            (fun _ => on_server_only) on_server_only).
  { intros. by apply keeps_on_server, index_server_genre_keeps. }
  unfold ensure_genre_cache. repeat first [done | inv_step].
Qed.

Lemma add_album_on_server j :
  triple on_server_only (add_album_from_json j) (fun _ => on_server_only) on_server_only.
Proof. apply keeps_on_server, add_album_keeps_requests_made. Qed.

Lemma add_artist_on_server m :
  triple on_server_only (add_artist_from_json m) (fun _ => on_server_only) on_server_only.
Proof. apply keeps_on_server, add_artist_keeps_requests_made. Qed.

Lemma ensure_genre_contents_cache_on_server g :
  triple on_server_only (ensure_genre_contents_cache g)
    (fun _ => on_server_only) on_server_only.
Proof.
  pose proof ensure_genre_cache_on_server. pose proof add_album_on_server.
  pose proof (fun link => requests_get_on_server (link ++ py "?albums=all")).
  unfold ensure_genre_contents_cache, albums_in_genre_item, fetch_genre_link, genre_url.
  repeat first [done | inv_step].
Qed.

Lemma ensure_album_cache_on_server album_id :
  triple on_server_only (ensure_album_cache album_id)
    (fun _ => on_server_only) on_server_only.
Proof.
  pose proof ensure_genre_cache_on_server. pose proof add_album_on_server.
  pose proof (requests_get_on_server (py "/albums/" ++ album_id ++ py "?tracks=all")).
  unfold ensure_album_cache, album_url. repeat first [done | inv_step].
Qed.

Lemma ensure_artist_cache_on_server artist :
  triple on_server_only (ensure_artist_cache artist)
    (fun _ => on_server_only) on_server_only.
Proof.
  pose proof ensure_genre_cache_on_server. pose proof add_artist_on_server.
  pose proof (requests_get_on_server (py "/artists/" ++ artist ++ py "?tracks=all")).
  unfold ensure_artist_cache, artist_url. repeat first [done | inv_step].
Qed.

Lemma run_on_server k :
  triple on_server_only (run k) (fun _ => on_server_only) on_server_only.
Proof.
  pose proof ensure_genre_cache_on_server.
  pose proof ensure_genre_contents_cache_on_server.
  pose proof ensure_album_cache_on_server. pose proof ensure_artist_cache_on_server.
  destruct k; simpl; repeat first [done | inv_step].
Qed.

End Requests.

(** X26. The cache talks to the configured server only: every URL the
    process has requested, in any cache it can be in, is [app.server]
    followed by a path. *)
Theorem requests_stay_on_server `{Host} (c : Cache) (url : pystr) :
  reachable c ->
  url ∈ requests_made c ->
  exists path, url = server ++ path.
Proof.
  intros Hc. revert url. apply Forall_forall.
  induction Hc as [|k c Hc IH]; [constructor|].
  by apply (triple_snd _ (run k) _ c (run_on_server k)).
Qed.

Lemma requests_stay_on_server_witness :
  requests_made (run (H:=demo_host) (EnsureAlbumCache (py "10")) init).2
  = [py "http://piju:5000/albums/10?tracks=all"; py "http://piju:5000/genres"] /\
  exists path,
    py "http://piju:5000/albums/10?tracks=all" = server (Host:=demo_host) ++ path.
Proof.
  assert (requests_made (run (H:=demo_host) (EnsureAlbumCache (py "10")) init).2
          = [py "http://piju:5000/albums/10?tracks=all"; py "http://piju:5000/genres"])
    as Hreq by (vm_compute; reflexivity).
  split; [exact Hreq|].
  apply (requests_stay_on_server (H:=demo_host)
           (run (H:=demo_host) (EnsureAlbumCache (py "10")) init).2).
  - apply reachable_run, reachable_init.
  - rewrite Hreq. by left.
Defined.

(** ** What stays in the cache *)

Lemma run_snd `{Host} (k : call) (c : Cache) :
  (run k c).2
  = match k with
    | EnsureGenreCache => (ensure_genre_cache c).2
    | EnsureGenreContentsCache genre_name =>
        (ensure_genre_contents_cache genre_name c).2
    | EnsureAlbumCache album_id => (ensure_album_cache album_id c).2
    | EnsureArtistCache artist => (ensure_artist_cache artist c).2
    end.
Proof.
  destruct k; simpl; rewrite bind_snd.
  - by destruct (ensure_genre_cache c) as [[a|e] c1].
  - by destruct (ensure_genre_contents_cache _ c) as [[a|e] c1].
  - by destruct (ensure_album_cache _ c) as [[a|e] c1].
  - by destruct (ensure_artist_cache _ c) as [[a|e] c1].
Qed.

Lemma ensure_genre_contents_cache_frozen `{Host} (g' g : pystr) (c : Cache)
    (l : list Album.t) :
  albums_in_genre c !! g = Some l ->
  albums_in_genre (ensure_genre_contents_cache g' c).2 !! g = Some l.
Proof.
  intros Hl.
  destruct (ensure_genre_contents_cache g' c) as [[r|e] c'] eqn:Hrun; simpl.
  - apply ensure_genre_contents_cache_cases in Hrun as (c0 & Hidx & Hcases).
    pose proof (keeps_run albums_in_genre _ _ _ _
                  ensure_genre_cache_keeps_albums_in_genre Hidx) as Hsame.
    rewrite <- Hsame in Hl.
    destruct Hcases as [(l0 & _ & _ & ->)|(Hmiss & links & _ & Hcases)]; [done|].
    destruct Hcases as [(_ & _ & ->)|(server_links & d & c2 & _ & Hloop & _ & ->)];
      [done|].
    simpl. rewrite lookup_insert_ne by congruence.
    by rewrite (keeps_run albums_in_genre _ _ _ _
                  (fetch_links_keeps_albums_in_genre _ _) Hloop).
  - by rewrite (ensure_genre_contents_cache_Raise _ _ _ _ Hrun).
Qed.

(** X27. A cached listing is never replaced. Once [albums_in_genre] has a
    listing for a genre, it has the same listing after any call, whether
    the call returns or raises, and whatever it fetched in between. *)
Theorem cached_listing_never_changes `{Host} (k : call) (c : Cache)
    (genre_name : pystr) (l : list Album.t) :
  albums_in_genre c !! genre_name = Some l ->
  albums_in_genre (run k c).2 !! genre_name = Some l.
Proof.
  intros Hl. rewrite run_snd. destruct k as [|g'|album_id|artist].
  - by rewrite ensure_genre_cache_keeps_albums_in_genre.
  - by apply ensure_genre_contents_cache_frozen.
  - by rewrite ensure_album_cache_keeps_albums_in_genre.
  - by rewrite ensure_artist_cache_keeps_albums_in_genre.
Qed.

Lemma cached_listing_never_changes_witness :
  let c1 := (run (H:=demo_host) (EnsureGenreContentsCache (py "Rock")) init).2 in
  exists l,
    albums_in_genre c1 !! py "Rock" = Some l /\
    albums_in_genre (run (H:=demo_host) (EnsureArtistCache (py "Bob")) c1).2
      !! py "Rock" = Some l.
Proof.
  intros c1.
  assert (match albums_in_genre c1 !! py "Rock" with Some _ => true | None => false end
          = true) as Hs by (vm_compute; reflexivity).
  destruct (albums_in_genre c1 !! py "Rock") as [l|] eqn:Hl; [|done].
  exists l. split; [done|].
  apply (cached_listing_never_changes (H:=demo_host) (EnsureArtistCache (py "Bob"))
           c1 (py "Rock") l Hl).
Defined.

(** X28. The genre index is loaded once: when [display_genres] is set, no
    call changes it or [genre_links], whether the call returns or
    raises. *)
Theorem genre_index_loaded_once `{Host} (k : call) (c : Cache) :
  is_Some (display_genres c) ->
  display_genres (run k c).2 = display_genres c /\
  genre_links (run k c).2 = genre_links c.
Proof.
  intros Hd.
  destruct (run_effect k c c (ensure_genre_cache_hit c Hd)) as (Hdg & Hgl & _).
  by split.
Qed.

Lemma genre_index_loaded_once_witness :
  display_genres (run (H:=demo_host) (EnsureAlbumCache (py "10")) demo_indexed).2
  = display_genres demo_indexed /\
  genre_links (run (H:=demo_host) (EnsureAlbumCache (py "10")) demo_indexed).2
  = genre_links demo_indexed.
Proof.
  apply (genre_index_loaded_once (H:=demo_host) (EnsureAlbumCache (py "10"))
           demo_indexed).
  assert (match display_genres demo_indexed with Some _ => true | None => false end
          = true) as Hs by (vm_compute; reflexivity).
  by destruct (display_genres demo_indexed).
Defined.

Section Stable.
Context `{Host}.
Variable P : Cache -> Prop.
Hypothesis P_requests_made : forall v c, P c -> P (set_requests_made v c).
Hypothesis P_genre_links : forall v c, P c -> P (set_genre_links v c).
Hypothesis P_genre_names_from_links :
  forall v c, P c -> P (set_genre_names_from_links v c).
Hypothesis P_display_names : forall v c, P c -> P (set_display_names v c).
Hypothesis P_display_genres : forall v c, P c -> P (set_display_genres v c).
Hypothesis P_albums_in_genre : forall v c, P c -> P (set_albums_in_genre v c).
Hypothesis P_album_details :
  forall k a c, P c -> P (set_album_details (<[k := a]> (album_details c)) c).
Hypothesis P_artist_details :
  forall k r c, P c -> P (set_artist_details (<[k := r]> (artist_details c)) c).

Lemma requests_get_stable url : triple P (requests_get url) (fun _ => P) P.
Proof.
  intros c Hc. unfold requests_get, requested.
  destruct (http_get _ _); simpl; by apply P_requests_made.
Qed.

Lemma add_album_stable j : triple P (add_album_from_json j) (fun _ => P) P.
Proof.
  unfold add_album_from_json, genre_name_of. repeat first [done | inv_step].
Qed.

Lemma add_artist_stable m : triple P (add_artist_from_json m) (fun _ => P) P.
Proof.
  pose proof add_album_stable.
  unfold add_artist_from_json, artist_groups, normalize_into.
  repeat first [done | inv_step].
Qed.

Lemma ensure_genre_cache_stable : triple P ensure_genre_cache (fun _ => P) P.
Proof.
  pose proof requests_get_stable.
  unfold ensure_genre_cache, index_server_genre. repeat first [done | inv_step].
Qed.

Lemma run_stable k : triple P (run k) (fun _ => P) P.
Proof.
  pose proof requests_get_stable. pose proof add_album_stable.
  pose proof add_artist_stable. pose proof ensure_genre_cache_stable.
  destruct k; simpl;
    unfold ensure_genre_contents_cache, ensure_album_cache, ensure_artist_cache,
      albums_in_genre_item, fetch_genre_link;
    repeat first [done | inv_step].
Qed.

End Stable.

(** X29. Nothing is evicted from the tables of albums and artists: a key
    that [album_details] or [artist_details] holds before a call is still
    there after it, whether the call returns or raises. *)
Theorem cache_never_evicts `{Host} (k : call) (c : Cache) :
  (forall album_id, is_Some (album_details c !! album_id) ->
     is_Some (album_details (run k c).2 !! album_id)) /\
  (forall artist_lookup, is_Some (artist_details c !! artist_lookup) ->
     is_Some (artist_details (run k c).2 !! artist_lookup)).
Proof.
  split.
  - intros album_id Hc.
    refine (triple_snd (fun c => is_Some (album_details c !! album_id)) (run k)
              (fun c => is_Some (album_details c !! album_id)) c _ Hc).
    apply run_stable; try done.
    intros i a c' Hc'. simpl. rewrite lookup_insert_is_Some'. by right.
  - intros artist_lookup Hc.
    refine (triple_snd (fun c => is_Some (artist_details c !! artist_lookup)) (run k)
              (fun c => is_Some (artist_details c !! artist_lookup)) c _ Hc).
    apply run_stable; try done.
    intros i a c' Hc'. simpl. rewrite lookup_insert_is_Some'. by right.
Qed.
